(** * vscode-vcalc: value model, operator library, parser and calculation engine

    A shallow embedding of [src/unnamed/part_004] (value.ts),
    [src/src/extension.ts] (operator library and [ContentProvider]) and
    [src/unnamed/part_003] (parser.ts).

    JavaScript numbers are kept abstract: every operation works over a
    number type [N] with the handful of primitive operations the code uses
    (class [JsArith] and [JsMath]).  Two instances are given at the end of
    the definitions: IEEE binary64 through the primitive floats (what a JS
    [number] is) and the real numbers (for [Math.asin]/[Math.acos], which
    the primitive floats lack).  Lengths, row counts and indices are
    natural numbers. *)

From Stdlib Require Import List Arith Lia ZArith NArith Bool Ascii String.
From Stdlib Require Import PrimFloat Reals Lra.
From Stdlib Require Import FloatOps SpecFloat.
Import ListNotations.
Open Scope nat_scope.

(** ** JavaScript numbers *)

(** The arithmetic of a JS [number] used by the code.  [jnan] is what an
    array read past the end ([undefined]) becomes under arithmetic. *)
Class JsArith (N : Type) := {
  jzero : N;
  jone : N;
  jtwo : N;
  jnan : N;
  jadd : N -> N -> N;
  jsub : N -> N -> N;
  jmul : N -> N -> N;
  jdiv : N -> N -> N;
  jneg : N -> N;
  jsqrt : N -> N;          (* Math.sqrt *)
  jeqb : N -> N -> bool;   (* === *)
  jltb : N -> N -> bool    (* < *)
}.

(** The [Math] functions used by the code beyond plain arithmetic. *)
Class JsMath (N : Type) := {
  jpow : N -> N -> N;      (* Math.pow *)
  jabs : N -> N;           (* Math.abs *)
  jasin : N -> N;          (* Math.asin *)
  jacos : N -> N           (* Math.acos *)
}.

(** How a JS computation ends: with a value, or with an exception thrown
    (a [ReferenceError], or the [RangeError] of an array grown past its
    maximal length). *)
Inductive Run (A : Type) : Type :=
| Ok : A -> Run A
| Throw : string -> Run A.
Arguments Ok {A} _.
Arguments Throw {A} _.

Definition run_bind {A B} (m : Run A) (k : A -> Run B) : Run B :=
  match m with Ok a => k a | Throw e => Throw e end.

Notation "x <- m ;; k" := (run_bind m (fun x => k))
  (at level 61, m at next level, right associativity).

(** ** value.ts *)

Inductive ValueMode := Decimal | Hexadecimal.

(** [class Value extends Array<number>] with its [rows] field: the array
    elements and the row count.  Matrices are column-major. *)
Record Value (N : Type) := mkValue { elems : list N; rows : nat }.
Arguments mkValue {N} _ _.
Arguments elems {N} _.
Arguments rows {N} _.

Section ValueModel.
Context {N : Type} `{JsArith N}.

(** [new Value(x)]: the row count defaults to [x.length]. *)
Definition vec (x : list N) : Value N := mkValue x (List.length x).

(** [static scalar(x) { return new Value([x]); }] *)
Definition scalar (x : N) : Value N := vec [x].

(** [static get invalid() { return new Value([], 0); }] *)
Definition invalid : Value N := mkValue [] 0.

(** [get valid() { return this.rows > 0; }] *)
Definition valid (v : Value N) : bool := 0 <? rows v.

(** [this.length] *)
Definition vlength (v : Value N) : nat := List.length (elems v).

(** [this[i]]: a read past the end yields [undefined]. *)
Definition js_at (v : Value N) (i : nat) : N := nth i (elems v) jnan.

(** [a % b === 0] on natural numbers: [a % 0] is [NaN] in JS. *)
Definition js_mod_is_zero (a b : nat) : bool :=
  match b with 0 => false | _ => a mod b =? 0 end.

(** [get dimensions()] *)
Definition dimensions (v : Value N) : Z :=
  if vlength v =? 1 then 0%Z
  else if vlength v =? rows v then 1%Z
  else if js_mod_is_zero (vlength v) (rows v) then 2%Z
  else (-1)%Z.

(** [this.cols === c] for a natural number [c], where
    [get cols() { return this.length / this.rows; }].  The division is
    exact when [rows] divides [length]; for [rows = 0] it is [NaN] or
    [Infinity], equal to no natural number.  (Array lengths are below
    2^32, so a non-exact quotient never rounds to a natural number.) *)
Definition cols_eqb (v : Value N) (c : nat) : bool :=
  (0 <? rows v) && (vlength v =? c * rows v).

(** The number of iterations of [for (let i = 0; i < v.cols; i++)]:
    [ceil(length / rows)] for [rows > 0]; no iteration for [0 / 0 = NaN];
    [None] when [v.cols] is [Infinity]: the loop has no bound of its own. *)
Definition cols_iterations (v : Value N) : option nat :=
  match rows v with
  | 0 => if vlength v =? 0 then Some 0 else None
  | r => Some ((vlength v + r - 1) / r)
  end.

(** [index(row, col) { return col * this.rows + row; }] *)
Definition index (v : Value N) (row col : nat) : nat := col * rows v + row.

(** [entry(row, col) { return this[this.index(row, col)]; }] *)
Definition entry (v : Value N) (row col : nat) : N := js_at v (index v row col).

End ValueModel.

(** ** extension.ts: the operator library *)

Section Operators.
Context {N : Type} `{JsArith N} `{JsMath N}.

Local Notation "a ==? b" := (Z.eqb a b) (at level 70).

(** [opPairs(a, b, op)].  [a[i % a.length]] with [a.length = 0] reads
    [a[NaN]], i.e. [undefined]; [js_at] gives the same for [i mod 0 = i]. *)
Definition opPairs (a b : Value N) (op : N -> N -> N) : Value N :=
  if (negb (vlength a =? vlength b) || negb (rows a =? rows b))
     && negb (dimensions a ==? 0) && negb (dimensions b ==? 0)
  then invalid
  else
    let length := Nat.max (vlength a) (vlength b) in
    let result := fold_left
      (fun result i =>
         result ++ [op (js_at a (i mod vlength a)) (js_at b (i mod vlength b))])
      (seq 0 length) [] in
    mkValue result (Nat.max (rows a) (rows b)).

Definition addPairs a b := opPairs a b jadd.
Definition subPairs a b := opPairs a b jsub.
Definition mulPairs a b := opPairs a b jmul.
Definition divPairs a b := opPairs a b jdiv.
Definition powPairs a b := opPairs a b jpow.

(** [matrixMultiply(left, right)].  Past the guard [left.cols] equals
    [right.rows], so the [k] loop runs [right.rows] times; the [i] loop
    runs [right.cols] times.  When [right.cols] is [Infinity] ([right] has
    0 rows and some components), the guard passed means [left.cols = 0],
    so [left] is empty with [left.rows > 0]: every round of the [i] loop
    pushes [left.rows] sums, until [result] outgrows the maximal array
    length and [push] throws. *)
Definition matrixMultiply (left right : Value N) : Run (Value N) :=
  if negb (cols_eqb left (rows right)) then Ok invalid
  else
    match cols_iterations right with
    | None => Throw "RangeError: Invalid array length"
    | Some right_cols =>
      let result := fold_left
        (fun result i =>
           fold_left
             (fun result j =>
                let sum := fold_left
                  (fun sum k => jadd sum (jmul (entry left j k) (entry right k i)))
                  (seq 0 (rows right)) jzero in
                result ++ [sum])
             (seq 0 (rows left)) result)
        (seq 0 right_cols) [] in
      Ok (mkValue result (rows left))
    end.

(** [magnitude(x)] *)
Definition magnitude (x : Value N) : Value N :=
  if negb (dimensions x ==? 1) then invalid
  else
    let lengthSquared := fold_left
      (fun s i => jadd s (jmul (js_at x i) (js_at x i)))
      (seq 0 (vlength x)) jzero in
    scalar (jsqrt lengthSquared).

(** [unary(x, op)]: [forEach] pushing [op] of every element. *)
Definition unary (x : Value N) (op : N -> N) : Value N :=
  mkValue (map op (elems x)) (rows x).

Definition negate x := unary x jneg.
(** [let abs = (x) => unary(x, (x) => Math.abs(-x));] *)
Definition abs x := unary x (fun x => jabs (jneg x)).
Definition asin x := unary x jasin.
Definition acos x := unary x jacos.
Definition zero x := unary x (fun _ => jzero).

(** [normalize(x)] *)
Definition normalize (x : Value N) : Value N :=
  if negb (dimensions x ==? 1) then invalid
  else
    let invLength := jdiv jone (js_at (magnitude x) 0) in
    unary x (fun x => jmul x invLength).

(** [dot(a, b)] *)
Definition dot (a b : Value N) : Value N :=
  if negb (vlength a =? vlength b) || negb (dimensions a ==? 1)
     || negb (dimensions b ==? 1)
  then invalid
  else
    let length := Nat.max (vlength a) (vlength b) in
    let sum := fold_left (fun sum i => jadd sum (jmul (js_at a i) (js_at b i)))
                 (seq 0 length) jzero in
    scalar sum.

(** [project(a, b)] *)
Definition project (a b : Value N) : Value N :=
  let d := dot a b in
  if negb (valid d) then d
  else if jeqb (js_at d 0) jzero then zero a
  else mulPairs b (divPairs d (dot b b)).

(** [reject(a, b)] *)
Definition reject (a b : Value N) : Value N := subPairs a (project a b).

(** [cross(a, b)] *)
Definition cross (a b : Value N) : Value N :=
  if negb (dimensions a ==? 1) || negb (dimensions b ==? 1)
     || (vlength a <? 3) || (vlength b <? 3)
  then invalid
  else vec [ jsub (jmul (js_at a 1) (js_at b 2)) (jmul (js_at a 2) (js_at b 1));
             jsub (jmul (js_at a 2) (js_at b 0)) (jmul (js_at a 0) (js_at b 2));
             jsub (jmul (js_at a 0) (js_at b 1)) (jmul (js_at a 1) (js_at b 0)) ].

(** [Math.sqrt(2) / 2] *)
Definition half_sqrt2 : N := jdiv (jsqrt jtwo) jtwo.

(** [angle(a, b)]; [cosAngle[0] > t] is [t < cosAngle[0]]. *)
Definition angle (a b : Value N) : Value N :=
  if negb (dimensions a ==? 1) || negb (dimensions b ==? 1)
     || negb (vlength a =? vlength b) || (vlength a <? 2) || (3 <? vlength a)
     || jeqb (js_at (magnitude a) 0) jzero || jeqb (js_at (magnitude b) 0) jzero
  then invalid
  else
    let normA := normalize a in
    let normB := normalize b in
    let cosAngle := dot normA normB in
    if jltb half_sqrt2 (js_at cosAngle 0) then
      let sinAngle :=
        if vlength a =? 2
        then scalar (jsub (jmul (js_at normA 0) (js_at normB 1))
                          (jmul (js_at normA 1) (js_at normB 0)))
        else magnitude (cross normA normB) in
      abs (asin sinAngle)
    else acos cosAngle.

(** The bindings of Value type visible inside [xyz]: its parameter [v].
    The module scope of extension.ts binds the imports, [vscode], the
    operator functions and [ContentProvider]; none of them is named [a]. *)
Definition xyz_scope (v : Value N) (name : string) : option (Value N) :=
  if String.eqb name "v" then Some v else None.

(** [xyz(v)]: its guard reads [a.dimensions] and [a.rows]; reading an
    identifier bound nowhere in scope throws a [ReferenceError]. *)
Definition xyz (v : Value N) : Run (Value N) :=
  match xyz_scope v "a" with
  | None => Throw "ReferenceError: a is not defined"
  | Some a =>
    if negb (dimensions a ==? 1) || (rows a <? 3) then Ok invalid
    else Ok (vec (firstn 3 (elems v)))
  end.

(** [plane(direction, position)].  The last element of
    [[...n, negate(dot(n, v))]] is the one-element array
    [negate(dot(n, v))], which JS arithmetic and [toString] read as its
    single number; it is modelled by that number. *)
Definition plane (direction position : Value N) : Run (Value N) :=
  d <- xyz direction ;;
  let n := normalize d in
  v <- xyz position ;;
  if negb (valid n) || negb (valid v) then Ok invalid
  else Ok (vec (elems n ++ [js_at (negate (dot n v)) 0])).

(** [pointPlaneDistance(point, plane)] *)
Definition pointPlaneDistance (point plane : Value N) : Run (Value N) :=
  v <- xyz point ;;
  if negb (valid v) || negb (dimensions plane ==? 1) || (vlength plane <? 4)
  then Ok invalid
  else Ok (dot (vec (elems v ++ [jone])) plane).

End Operators.

Section Transpose.
Context {N : Type} `{JsArith N}.

(** [y[k] = e]: inside the array it replaces the element; past the end JS
    grows the array, the gap being holes that read as [undefined]. *)
Definition js_set (y : Value N) (k : nat) (e : N) : Value N :=
  if k <? vlength y
  then mkValue (firstn k (elems y) ++ e :: skipn (S k) (elems y)) (rows y)
  else mkValue (elems y ++ repeat jnan (k - vlength y) ++ [e]) (rows y).

(** [transpose(x)]: [y = new Value(x, x.cols)], then
    [y[y.index(j, i)] = x.entry(i, j)] for [i < x.rows], [j < x.cols].
    [None] when [x.cols] is not a natural number ([rows = 0] or [rows]
    not dividing the length): the row count of [y] is then fractional,
    [NaN] or [Infinity], a case [transpose_js] below follows. *)
Definition transpose (x : Value N) : option (Value N) :=
  let c := vlength x / rows x in
  if negb (cols_eqb x c) then None
  else
    let y := mkValue (elems x) c in
    Some (fold_left
            (fun y i =>
               fold_left (fun y j => js_set y (index y j i) (entry x i j))
                         (seq 0 c) y)
            (seq 0 (rows x)) y).

End Transpose.

(** ** [transpose] with the row count as a JS number *)

(** [transpose] above takes [x.cols] to be a natural number.  When it is
    not ([rows] not dividing the length, or [rows = 0]), [new Value(x,
    x.cols)] has a fractional, [Infinity] or [NaN] row count, the loop
    indices [y.index(j, i)] may be fractional, and [y[k] = e] with such a
    [k] sets a plain property of the array, not an element.  The model
    below keeps all of this: the row count is a double, and so are the
    loop counters and the indices, computed with the double operations of
    the source. *)

(** The integer a double stands for, when it is a finite integer. *)
Definition float_to_Z (k : float) : option Z :=
  match Prim2SF k with
  | S754_zero _ => Some 0%Z
  | S754_finite s m e =>
      let v := if (0 <=? e)%Z then Some (Zpos m * 2 ^ e)%Z
               else if (Zpos m mod 2 ^ (- e) =? 0)%Z then Some (Zpos m / 2 ^ (- e))%Z
               else None in
      option_map (fun n => if s then (- n)%Z else n) v
  | _ => None
  end.

(** A key [k] is an array index when [ToString(k)] is the text of an
    integer in [0, 2^32 - 2] ([-0] is written "0"). *)
Definition array_index (k : float) : option nat :=
  match float_to_Z k with
  | Some n => if (0 <=? n)%Z && (n <? 2 ^ 32 - 1)%Z then Some (Z.to_nat n) else None
  | None => None
  end.

(** Two keys name the same property when their texts agree: equal
    doubles, or both [NaN]. *)
Definition same_key (a b : float) : bool :=
  PrimFloat.eqb a b || (PrimFloat.is_nan a && PrimFloat.is_nan b).

(** A natural number as a double ([length] of an array). *)
Fixpoint nat_to_float (n : nat) : float :=
  match n with
  | O => 0%float
  | S n => PrimFloat.add (nat_to_float n) 1%float
  end.

Section TransposeJs.
Context {N : Type} `{JsArith N}.

(** A [Value] as a JS object: its elements, its [rows] property (any JS
    number) and the other properties set on it, keyed by doubles. *)
Record JsValue := mkJsValue {
  js_elems : list N;
  js_rows : float;
  js_props : list (float * N)
}.

(** [new Value(x, rows)] for a [Value] of this model. *)
Definition of_value (v : Value N) : JsValue := mkJsValue (elems v) (nat_to_float (rows v)) [].

(** [v[k]]: an element, a property, or [undefined] (holes included). *)
Definition js_get (v : JsValue) (k : float) : N :=
  match array_index k with
  | Some n => nth n (js_elems v) jnan
  | None =>
      match find (fun p => same_key (fst p) k) (js_props v) with
      | Some p => snd p
      | None => jnan
      end
  end.

(** [v[k] = e]: an element inside the array is replaced, past the end the
    array grows with holes; any other key sets a property. *)
Definition js_put (v : JsValue) (k : float) (e : N) : JsValue :=
  match array_index k with
  | Some n =>
      let el := js_elems v in
      let el' := if n <? List.length el
                 then firstn n el ++ e :: skipn (S n) el
                 else el ++ repeat jnan (n - List.length el) ++ [e] in
      mkJsValue el' (js_rows v) (js_props v)
  | None =>
      mkJsValue (js_elems v) (js_rows v)
        ((k, e) :: filter (fun p => negb (same_key (fst p) k)) (js_props v))
  end.

(** [get cols() { return this.length / this.rows; }] *)
Definition js_cols (v : JsValue) : float :=
  PrimFloat.div (nat_to_float (List.length (js_elems v))) (js_rows v).

(** [index(row, col) { return col * this.rows + row; }] *)
Definition js_index (v : JsValue) (row col : float) : float :=
  PrimFloat.add (PrimFloat.mul col (js_rows v)) row.

(** [entry(row, col) { return this[this.index(row, col)]; }] *)
Definition js_entry (v : JsValue) (row col : float) : N := js_get v (js_index v row col).

(** [for (let i = from; i < bound; i++) body], at most [fuel] rounds:
    [None] when the loop has not ended by then. *)
Fixpoint js_for {St : Type} (fuel : nat) (i bound : float)
    (body : float -> St -> option St) (s : St) : option St :=
  match fuel with
  | O => None
  | S fuel' =>
      if PrimFloat.ltb i bound then
        match body i s with
        | Some s' => js_for fuel' (PrimFloat.add i 1%float) bound body s'
        | None => None
        end
      else Some s
  end.

(** [transpose(x)], each loop given [fuel] rounds. *)
Definition transpose_js (fuel : nat) (x : JsValue) : option JsValue :=
  let y := mkJsValue (js_elems x) (js_cols x) [] in
  js_for fuel 0%float (js_rows x)
    (fun i y =>
       js_for fuel 0%float (js_cols x)
         (fun j y => Some (js_put y (js_index y j i) (js_entry x i j))) y)
    y.

End TransposeJs.

(** ** Number models *)

(** IEEE binary64, the representation of a JS [number]. *)
Module FloatModel.
#[export] Instance float_arith : JsArith float := {|
  jzero := 0%float; jone := 1%float; jtwo := 2%float; jnan := PrimFloat.nan;
  jadd := PrimFloat.add; jsub := PrimFloat.sub; jmul := PrimFloat.mul;
  jdiv := PrimFloat.div; jneg := PrimFloat.opp; jsqrt := PrimFloat.sqrt;
  jeqb := PrimFloat.eqb; jltb := PrimFloat.ltb |}.
End FloatModel.

(** Exact real arithmetic, with the [Math] functions of the Stdlib reals.
    The reals have no NaN: reads past the end of an array are read as 0. *)
Module RealModel.
#[export] Instance real_arith : JsArith R := {|
  jzero := 0%R; jone := 1%R; jtwo := 2%R; jnan := 0%R;
  jadd := Rplus; jsub := Rminus; jmul := Rmult; jdiv := Rdiv;
  jneg := Ropp; jsqrt := R_sqrt.sqrt;
  jeqb := fun x y => if Req_dec_T x y then true else false;
  jltb := fun x y => if Rlt_dec x y then true else false |}.
#[export] Instance real_math : JsMath R := {|
  jpow := Rpower; jabs := Rabs; jasin := Ratan.asin; jacos := Ratan.acos |}.
End RealModel.

(** ** parser.ts *)

Module Parser.

Set Warnings "-register-all".

Inductive NodeType := List | Scalar | Vector | Matrix.

Definition NodeType_eqb (a b : NodeType) : bool :=
  match a, b with
  | List, List | Scalar, Scalar | Vector, Vector | Matrix, Matrix => true
  | _, _ => false
  end.

(** [class Node]: type, [begin], [end], [delim] and [items]. *)
Inductive Node := mkNode {
  type : NodeType;
  begin : Z;
  end_ : Z;
  delim : string;
  items : list Node }.

(** [new Node(begin, delim)]: [delim] becomes the matching closer. *)
Definition newNode (b : Z) (c : string) : Node :=
  let closer := if String.eqb c "{" then "}"%string
                else if String.eqb c "[" then "]"%string
                else if String.eqb c "(" then ")"%string
                else ""%string in
  mkNode List b (-1)%Z closer [].

(** [parent.items.push(child)] *)
Definition push_item (parent child : Node) : Node :=
  mkNode (type parent) (begin parent) (end_ parent) (delim parent)
         (items parent ++ [child]).

(** [close(end, parent)]: [None] when the node is empty and returns
    without being pushed; otherwise the classified node, which the caller
    pushes onto [parent]. *)
Definition close (n : Node) (e : Z) : option Node :=
  match items n with
  | [] => None
  | first :: rest =>
    let type0 := fold_left
      (fun t it => if NodeType_eqb (type it) t then t else List) rest (type first) in
    let count := fold_left
      (fun c it => if Z.eqb (Z.of_nat (List.length (items it))) c then c else (-1)%Z)
      rest (Z.of_nat (List.length (items first))) in
    let n' :=
      if NodeType_eqb type0 Scalar then
        if List.length (items n) =? 1
        then mkNode Scalar (begin first) (end_ first) (delim n) []
        else mkNode Vector (begin n) e (delim n) (items n)
      else if NodeType_eqb type0 Vector && Z.ltb 1 count then
        if List.length (items n) =? 1
        then mkNode Vector (begin first) (end_ first) (delim n) (items first)
        else mkNode Matrix (begin n) e (delim n) (items n)
      else mkNode (type n) (begin n) e (delim n) (items n) in
    Some n'
  end.

(** Regular expressions as the code uses them, matched by backtracking in
    the order of JS: alternatives left to right, [?] and [*] greedy.
    [k] is the continuation receiving the rest of the input. *)
Inductive regex :=
| RChar (p : ascii -> bool)
| RSeq (r1 r2 : regex)
| RAlt (r1 r2 : regex)
| ROpt (r : regex)
| RStar (p : ascii -> bool)
| REnd.

Section Match.
Context {X : Type}.

Fixpoint star_match (p : ascii -> bool) (s : list ascii)
    (k : list ascii -> option X) : option X :=
  match s with
  | c :: s' =>
    if p c then
      match star_match p s' k with Some x => Some x | None => k s end
    else k s
  | [] => k []
  end.

Fixpoint re_match (r : regex) (s : list ascii)
    (k : list ascii -> option X) : option X :=
  match r with
  | RChar p => match s with c :: s' => if p c then k s' else None | [] => None end
  | RSeq r1 r2 => re_match r1 s (fun s' => re_match r2 s' k)
  | RAlt r1 r2 =>
    match re_match r1 s k with Some x => Some x | None => re_match r2 s k end
  | ROpt r => match re_match r s k with Some x => Some x | None => k s end
  | RStar p => star_match p s k
  | REnd => match s with [] => k [] | _ => None end
  end.

End Match.

Definition in_range (lo hi c : ascii) : bool :=
  (nat_of_ascii lo <=? nat_of_ascii c) && (nat_of_ascii c <=? nat_of_ascii hi).
Definition is_char (x c : ascii) : bool := Ascii.eqb x c.
Definition is_digit (c : ascii) : bool := in_range "0" "9" c.
Definition is_alpha (c : ascii) : bool := in_range "a" "z" c || in_range "A" "Z" c.
Definition is_alnum (c : ascii) : bool := is_alpha c || is_digit c.
Definition is_hex (c : ascii) : bool :=
  is_digit c || in_range "A" "F" c || in_range "a" "f" c.

Definition plus (p : ascii -> bool) : regex := RSeq (RChar p) (RStar p).
Fixpoint seqs (rs : list regex) : regex :=
  match rs with [] => REnd | [r] => r | r :: rs => RSeq r (seqs rs) end.

(** Groups [1] of
    [/^((0x[0-9A-Fa-f]+)|(-?\d+\.?\d*(e[+-]?\d+)?f?))([^a-zA-Z0-9]|$)/] *)
Definition number_group1 : regex :=
  RAlt (seqs [RChar (is_char "0"); RChar (is_char "x"); plus is_hex])
       (seqs [ROpt (RChar (is_char "-")); plus is_digit;
              ROpt (RChar (is_char ".")); RStar is_digit;
              ROpt (seqs [RChar (is_char "e");
                          ROpt (RChar (fun c => is_char "+" c || is_char "-" c));
                          plus is_digit]);
              ROpt (RChar (is_char "f"))]).

(** ... and group [5]. *)
Definition number_group5 : regex := RAlt (RChar (fun c => negb (is_alnum c))) REnd.

(** [line.substr(i).match(...)], returning
    [match[0].length - match[5].length], the length of group 1. *)
Definition number_match (s : list ascii) : option nat :=
  re_match number_group1 s
    (fun s1 => re_match number_group5 s1
                 (fun _ => Some (List.length s - List.length s1))).

(** The body of [while (i < line.length)]; [nodes] is the stack of open
    nodes, top first.  Each iteration moves [i] forward by at least one. *)
Fixpoint parse_loop (fuel : nat) (line : list ascii) (i : nat)
    (nodes : list Node) (valid : bool) : list Node :=
  match fuel with
  | 0 => nodes
  | S fuel =>
    match nth_error line i, nodes with
    | None, _ => nodes
    | _, [] => nodes
    | Some c, top :: below =>
      if is_char "(" c || is_char "[" c || is_char "{" c then
        parse_loop fuel line (S i) (newNode (Z.of_nat i) (String c EmptyString) :: nodes) true
      else if String.eqb (String c EmptyString) (delim top) then
        match below with
        | parent :: rest =>
          let nodes' :=
            match close top (Z.of_nat (S i)) with
            | Some n => push_item parent n :: rest
            | None => parent :: rest
            end in
          parse_loop fuel line (S i) nodes' true
        | [] => nodes (* the root's [delim] is '' and never matches *)
        end
      else if valid then
        let valid := if is_alpha c then false else valid in
        if is_digit c || is_char "-" c then
          match number_match (skipn i line) with
          | Some len =>
            let next := i + len in
            let number := mkNode Scalar (Z.of_nat i) (Z.of_nat next) "" [] in
            parse_loop fuel line next (push_item top number :: below) valid
          | None => parse_loop fuel line (S i) nodes false
          end
        else parse_loop fuel line (S i) nodes valid
      else if negb (is_alnum c || is_char "-" c) then
        parse_loop fuel line (S i) nodes true
      else parse_loop fuel line (S i) nodes valid
    end
  end.

(** "Shed singleton lists" *)
Fixpoint shed (n : Node) : Node :=
  match n with
  | mkNode List _ _ _ [child] => shed child
  | _ => n
  end.

(** [parse(line)]: the top of the stack once the line is consumed. *)
Definition parse (line : string) : Node :=
  let cs := list_ascii_of_string line in
  match parse_loop (List.length cs) cs 0 [newNode 0 ""] true with
  | top :: _ => shed top
  | [] => newNode 0 ""
  end.

End Parser.

(** ** value.ts: [stringify] of a scalar *)

Module Stringify.

(** Digits of [Number.prototype.toString(radix)] on a non-negative
    integer, most significant first, lowercase. *)
Definition digit_char (d : N) : ascii :=
  nth (N.to_nat d) (list_ascii_of_string "0123456789abcdef") "0"%char.

Fixpoint radix_digits_fuel (fuel : nat) (radix x : N) : list ascii :=
  match fuel with
  | 0 => []
  | S fuel =>
    if (x <? radix)%N then [digit_char x]
    else radix_digits_fuel fuel radix (x / radix) ++ [digit_char (x mod radix)]
  end.

(** [x] has [N.size x] bits, so [N.size x + 1] divisions suffice for any
    radix from 2 on. *)
Definition radix_digits (radix x : N) : list ascii :=
  radix_digits_fuel (S (N.to_nat (N.size x))) radix x.

(** [x.toString(radix)] for an integer-valued number [x]. *)
Definition toString_radix (radix : N) (x : Z) : list ascii :=
  match x with
  | Zneg p => "-"%char :: radix_digits radix (Npos p)
  | _ => radix_digits radix (Z.to_N x)
  end.

(** [s.substr(-k)]: the start [s.length - k] is clamped at 0. *)
Definition substr_neg (s : list ascii) (k : nat) : list ascii :=
  skipn (List.length s - k) s.

(** The decimal digits of a non-negative integer. *)
Definition dec_digits (s : Z) : list ascii := radix_digits 10 (Z.to_N s).

(** The double nearest to a non-negative integer [m]: a double holds 53
    significant bits, and a tie goes to the even significand.  A result of
    2^1024 or more is beyond the largest double, i.e. [Infinity]. *)
Definition round_double_pos (m : Z) : Z :=
  let sh := (Z.log2 m + 1 - 53)%Z in
  if (sh <=? 0)%Z then m
  else
    let q := Z.shiftr m sh in
    let r := (m - Z.shiftl q sh)%Z in
    let half := Z.shiftl 1 (sh - 1) in
    let q' := if (half <? r)%Z || ((r =? half)%Z && Z.odd q) then (q + 1)%Z else q in
    Z.shiftl q' sh.

(** The JS number an integer [m] denotes: the double nearest to it. *)
Definition round_double (m : Z) : Z :=
  if (m <? 0)%Z then (- round_double_pos (- m))%Z else round_double_pos m.

(** [Number::toString(x)], step 5, for a positive integer-valued double
    [x]: the pairs [(s, e)], [s] of [k] digits, with [s * 10^e] rounding
    to [x].  Such a value has [D] (the digit count of [x]) or [D + 1]
    digits, so [e] is [D - k] or [D + 1 - k] ([D - 1 - k] is tried too);
    for each [e] the candidates closest to [x] are the multiples of
    [10^e] just below and just above it. *)
Definition shortest_candidates (x : Z) (k : nat) : list (Z * nat) :=
  let D := List.length (dec_digits x) in
  filter (fun p =>
            let '(s, e) := p in
            (10 ^ Z.of_nat (k - 1) <=? s)%Z && (s <? 10 ^ Z.of_nat k)%Z
            && (round_double_pos (s * 10 ^ Z.of_nat e) =? x)%Z)
    (flat_map (fun e => [(x / 10 ^ Z.of_nat e, e); (x / 10 ^ Z.of_nat e + 1, e)]%Z)
       [D - 1 - k; D - k; D + 1 - k]).

(** How far [s * 10^e] of [p] is from [x]. *)
Definition dist (x : Z) (p : Z * nat) : Z := Z.abs (fst p * 10 ^ Z.of_nat (snd p) - x).

(** [s * 10^e] of [p] is strictly closer to [x] than that of [q], or as
    close with an even [s] where [q]'s is odd. *)
Definition closer (x : Z) (p q : Z * nat) : bool :=
  let dp := Z.abs (fst p * 10 ^ Z.of_nat (snd p) - x) in
  let dq := Z.abs (fst q * 10 ^ Z.of_nat (snd q) - x) in
  (dp <? dq)%Z || ((dp =? dq)%Z && Z.even (fst p) && negb (Z.even (fst q))).

(** The candidate closest to [x], a tie going to the even [s] (the
    choice of V8, the engine of VS Code, and of the spec's Note 2). *)
Definition closest (x : Z) (ps : list (Z * nat)) : option (Z * nat) :=
  fold_left (fun acc p => match acc with
                          | None => Some p
                          | Some q => if closer x p q then Some p else Some q
                          end) ps None.

(** Steps 6 and 10 for [n = k + e]: the [k] digits of [s] and [e] zeros
    when [n <= 21], otherwise the exponent form [d.ddde+(n-1)]. *)
Definition digits_text (s : Z) (k e : nat) : list ascii :=
  let n := k + e in
  if n <=? 21 then dec_digits s ++ repeat "0"%char e
  else match dec_digits s with
       | [] => []
       | d :: rest =>
         d :: (match rest with [] => [] | _ => "."%char :: rest end)
           ++ list_ascii_of_string "e+" ++ dec_digits (Z.of_nat (n - 1))
       end.

(** [Number::toString(x)] for a positive integer-valued double [x]: the
    smallest [k] with a candidate, and the closest candidate for it.  The
    last two branches are never taken: [x] itself, with its [D] digits and
    [e = 0], is a candidate for [k = D]. *)
Definition positive_text (x : Z) : list ascii :=
  if (2 ^ 1024 <=? x)%Z then list_ascii_of_string "Infinity"
  else
    match find (fun k => match shortest_candidates x k with [] => false | _ => true end)
               (seq 1 (List.length (dec_digits x))) with
    | Some k =>
      match closest x (shortest_candidates x k) with
      | Some (s, e) => digits_text s k e
      | None => dec_digits x
      end
    | None => dec_digits x
    end.

(** [Number::toString(x)] (radix 10) for an integer-valued double [x]. *)
Definition number_toString (x : Z) : list ascii :=
  match x with
  | Z0 => ["0"%char]
  | Zpos p => positive_text (Zpos p)
  | Zneg p => "-"%char :: positive_text (Zpos p)
  end.

(** [x.toString(16)] for an integer-valued double [x]: its hex digits,
    exactly (V8 fills in zeros only where the double has zero bits), or
    [Infinity]. *)
Definition hex_toString (x : Z) : list ascii :=
  if (2 ^ 1024 <=? Z.abs x)%Z
  then list_ascii_of_string (if (x <? 0)%Z then "-Infinity" else "Infinity")
  else toString_radix 16 x.

(** [stringifyScalar(x, mode)] for an integer-valued [x]: both
    [x.toString()] and [x.toString(16)] print the double [x] denotes. *)
Definition stringifyScalar (x : Z) (mode : ValueMode) : string :=
  match mode with
  | Decimal => string_of_list_ascii (number_toString (round_double x))
  | Hexadecimal =>
    string_of_list_ascii
      (list_ascii_of_string "0x"
       ++ substr_neg (list_ascii_of_string "00000000" ++ hex_toString (round_double x)) 8)
  end.

(** The format the spec describes: [x] cast to an unsigned 32-bit integer
    ([x >>> 0], i.e. [x] modulo 2^32) and written with exactly 8 hex
    digits. *)
Fixpoint fixed_hex (k : nat) (x : N) : list ascii :=
  match k with
  | 0 => []
  | S k => fixed_hex k (x / 16) ++ [digit_char (x mod 16)]
  end.

Definition uint32_hex8 (x : Z) : string :=
  string_of_list_ascii
    (list_ascii_of_string "0x" ++ fixed_hex 8 (Z.to_N (x mod 2 ^ 32))).

End Stringify.

(** ** extension.ts: [ContentProvider], the calculation engine *)

Module Engine.
Import Parser.

(** A [vscode.Range] *)
Record Range := mkRange {
  start_line : nat; start_character : nat; end_line : nat; end_character : nat }.

(** The fields of [ContentProvider] that [setOperandStr] reads or writes. *)
Record Session (N : Type) := mkSession {
  operand : Value N;
  operator : string;
  mode : ValueMode;
  stack : list (Value N);
  sourceRange : Range;
  sourceString : string }.
Arguments mkSession {N} _ _ _ _ _ _.
Arguments operand {N} _.
Arguments operator {N} _.
Arguments mode {N} _.
Arguments stack {N} _.
Arguments sourceRange {N} _.
Arguments sourceString {N} _.

(** How a call of [setOperandStr] ends, up to the operator menu. *)
Inductive Outcome (N : Type) :=
| Reported (message : string) (st : Session N)
    (* [this.report(message); this.clear(); return;] *)
| Selected (st : Session N) (result : Value N)
    (* [result] is shown and the operator menu is built for it *)
| Raised (e : string) (st : Session N)
    (* an exception leaves the async function, the session as it was *).
Arguments Reported {N} _ _.
Arguments Selected {N} _ _.
Arguments Raised {N} _ _.

Section Engine.
Context {N : Type} `{JsArith N} `{JsMath N}.

(** [parseInt] and [parseFloat] of a literal the parser found. *)
Variable parseInt parseFloat : list ascii -> N.

(** [clear()] *)
Definition clear (st : Session N) : Session N :=
  mkSession invalid "" Decimal (stack st) (sourceRange st) "".

Definition set_mode (st : Session N) (m : ValueMode) : Session N :=
  mkSession (operand st) (operator st) m (stack st) (sourceRange st) (sourceString st).

(** [enumerate(node)]: the numbers of the [Scalar] leaves, left to right,
    and whether all of them were written in hex ([allHex] stays [true]). *)
Fixpoint enumerate (s : list ascii) (node : Node) : list N * bool :=
  match node with
  | mkNode Scalar b e _ _ =>
    let numberStr := firstn (Z.to_nat e - Z.to_nat b) (skipn (Z.to_nat b) s) in
    if match numberStr with
       | c0 :: c1 :: _ => Ascii.eqb c0 "0" && Ascii.eqb c1 "x"
       | _ => false
       end
    then ([parseInt numberStr], true)
    else ([parseFloat numberStr], false)
  | mkNode _ _ _ _ its =>
    (fix go (its : list Node) : list N * bool :=
       match its with
       | [] => ([], true)
       | it :: its =>
         let (x1, h1) := enumerate s it in
         let (x2, h2) := go its in (x1 ++ x2, h1 && h2)
       end) its
  end.

(** The submitted operand: [new Value(x, rows)] with [rows] from the
    tree's type; [None] for a [List] tree (the ['error'] branch).  For a
    [Matrix] tree the division [x.length / tree.items.length] is exact. *)
Definition parsed_operand (operandStr : string) : option (Value N) :=
  let tree := parse operandStr in
  let x := fst (enumerate (list_ascii_of_string operandStr) tree) in
  match type tree with
  | Scalar => Some (mkValue x 1)
  | Vector => Some (mkValue x (List.length x))
  | Matrix => Some (mkValue x (List.length x / List.length (items tree)))
  | List => None
  end.

Local Notation "a ==? b" := (Z.eqb a b) (at level 70).

(** The [switch(this.operator)] completing a pending operation. *)
Definition apply_operator (op : string) (left operand : Value N) : Run (Value N) :=
  if String.eqb op "add" then Ok (addPairs left operand)
  else if String.eqb op "subtract" then Ok (subPairs left operand)
  else if String.eqb op "divide" then Ok (divPairs left operand)
  else if String.eqb op "multiply" then
    if (dimensions left ==? 2) && negb (dimensions operand ==? 0)
    then matrixMultiply left operand
    else if (dimensions operand ==? 2) && negb (dimensions left ==? 0)
    then matrixMultiply operand left
    else Ok (mulPairs left operand)
  else if String.eqb op "power" then Ok (powPairs left operand)
  else if String.eqb op "dot" then Ok (dot left operand)
  else if String.eqb op "cross" then Ok (cross left operand)
  else if String.eqb op "angle" then Ok (angle left operand)
  else if String.eqb op "project" then Ok (project left operand)
  else if String.eqb op "reject" then Ok (reject left operand)
  else if String.eqb op "plane" then plane left operand
  else if String.eqb op "planeDistance" then
    (* both branches of the [if] make the same call *)
    pointPlaneDistance left operand
  else Ok operand.

(** [setOperandStr(operandStr)] up to the operator menu. *)
Definition setOperandStr (st : Session N) (operandStr : string) : Outcome N :=
  let tree := parse operandStr in
  let allHex0 := (vlength (operand st) =? 0)
                 || match mode st with Hexadecimal => true | Decimal => false end in
  let allHex := allHex0 && snd (enumerate (list_ascii_of_string operandStr) tree) in
  let st1 := set_mode st (if allHex then Hexadecimal else Decimal) in
  let this_operand := operand st1 in
  match parsed_operand operandStr with
  | None => Reported "error" (clear st1)
  | Some operand =>
    match apply_operator (operator st1) this_operand operand with
    | Throw e => Raised e st1
    | Ok result =>
      if negb (valid result) then Reported "error" (clear st1)
      else Selected st1 result
    end
  end.

End Engine.
End Engine.

(** ** value.ts: [col] and [stringify] of a whole value *)

Section Columns.
Context {N : Type}.

(** [col(i) { return new Value(this.slice(i*this.rows, (i+1)*this.rows)); }]:
    [slice] stops at the end of the array. *)
Definition col (v : Value N) (i : nat) : Value N :=
  vec (firstn (rows v) (skipn (i * rows v) (elems v))).

End Columns.

(** [stringify(mode)] of a value whose numbers are all integers, which is
    where [stringifyScalar] is modelled. *)
Module Display.
Import Stringify.
Local Open Scope string_scope.

(** [stringifyVector(x, mode)] *)
Definition stringifyVector (x : list Z) (mode : ValueMode) : string :=
  fold_left
    (fun vector i =>
       vector ++ stringifyScalar (nth i x 0%Z) mode
       ++ (if Nat.ltb i (List.length x - 1) then ", " else ""))
    (seq 0 (List.length x)) "(" ++ ")".

(** [stringify(mode)]: for [dimensions = 2], [rows] divides the length,
    so [this.cols] is the natural number [length / rows]. *)
Definition stringify (v : Value Z) (mode : ValueMode) : string :=
  match dimensions v with
  | 0%Z => stringifyScalar (nth 0 (elems v) 0%Z) mode
  | 1%Z => stringifyVector (elems v) mode
  | 2%Z =>
    let c := Nat.div (vlength v) (rows v) in
    fold_left
      (fun matrix i =>
         matrix ++ stringifyVector (elems (col v i)) mode
         ++ (if Nat.ltb i (c - 1) then ", " else ""))
      (seq 0 c) "(" ++ ")"
  | _ => "error"
  end.

End Display.

(** Auxiliary, for reasoning about printed texts (not in the source):
    texts separated by [", "]. *)
Fixpoint join_comma (ts : list (list ascii)) : list ascii :=
  match ts with
  | [] => []
  | [t] => t
  | t :: ts => t ++ [","%char; " "%char] ++ join_comma ts
  end.

(** ** Printed values as the parser meets them

    The texts [stringify] produces, the nodes [parse] makes of them and what
    [enumerate] reads from those nodes. *)

Section Texts.
Import Parser Stringify.

(** What may follow a number: the end of the line or a character that
    is neither alphanumeric nor ['.']. *)
Definition stops (rest : list ascii) : Prop :=
  match rest with [] => True | h :: _ => is_alnum h = false /\ is_char "." h = false end.

(** A number text: it starts with a digit or ['-'], and the parser's
    regular expression takes all of it when a stop follows. *)
Definition leaf_ok (t : list ascii) : Prop :=
  exists c cs, t = c :: cs /\ (is_digit c = true \/ c = "-"%char) /\
  forall rest, stops rest -> number_match (t ++ rest) = Some (List.length t).

(** [top] with the nodes [l] pushed onto its items. *)
Definition with_items (top : Node) (l : list Node) : Node :=
  mkNode (type top) (begin top) (end_ top) (delim top) (items top ++ l).

(** The nodes of a comma-separated sequence whose elements start at [i]:
    [node j e] for the element [e] starting at [j]. *)
Fixpoint seq_nodes {A} (txt : A -> list ascii) (node : nat -> A -> Node) (i : nat)
    (es : list A) : list Node :=
  match es with
  | [] => []
  | e :: es => node i e :: seq_nodes txt node (i + List.length (txt e) + 2) es
  end.

(** The iterations of the parser's loop such a sequence takes. *)
Fixpoint seq_cost {A} (cost : A -> nat) (es : list A) : nat :=
  match es with
  | [] => 0
  | [e] => cost e
  | e :: es => cost e + 2 + seq_cost cost es
  end.

(** A number of the line at [i]: a [Scalar] leaf. *)
Definition leaf_node (i : nat) (t : list ascii) : Node :=
  mkNode Scalar (Z.of_nat i) (Z.of_nat (i + List.length t)) "" [].

Definition leaves (i : nat) (ts : list (list ascii)) : list Node :=
  seq_nodes (fun t => t) leaf_node i ts.

Definition leaves_cost (ts : list (list ascii)) : nat := seq_cost (fun _ => 1) ts.

(** A parenthesized list of numbers, as [stringifyVector] prints it, and
    the [Vector] node the parser makes of it at [i]. *)
Definition block_text (ts : list (list ascii)) : list ascii :=
  "("%char :: join_comma ts ++ [")"%char].

Definition block_cost (ts : list (list ascii)) : nat := 2 + leaves_cost ts.

Definition block_node (i : nat) (ts : list (list ascii)) : Node :=
  mkNode Vector (Z.of_nat i) (Z.of_nat (i + List.length (block_text ts))) ")" (leaves (S i) ts).

Definition block_ok (ts : list (list ascii)) : Prop := Forall leaf_ok ts /\ 2 <= List.length ts.

(** A parenthesized list of such lists, as [stringify] prints a matrix
    column by column, and the [Matrix] node made of it. *)
Definition blocks (i : nat) (cols : list (list (list ascii))) : list Node :=
  seq_nodes block_text block_node i cols.

Definition matrix_text (cols : list (list (list ascii))) : list ascii :=
  "("%char :: join_comma (map block_text cols) ++ [")"%char].

Definition matrix_cost (cols : list (list (list ascii))) : nat := 2 + seq_cost block_cost cols.

Definition matrix_node (i : nat) (cols : list (list (list ascii))) : Node :=
  mkNode Matrix (Z.of_nat i) (Z.of_nat (i + List.length (matrix_text cols))) ")" (blocks (S i) cols).

Definition matrix_ok (r : nat) (cols : list (list (list ascii))) : Prop :=
  Forall (fun ts => block_ok ts /\ List.length ts = r) cols /\ 2 <= List.length cols.

(** What [enumerate] makes of one number text, and of a list of them. *)
Definition leaf_read {V} (pI pF : list ascii -> V) (t : list ascii) : list V * bool :=
  if match t with
     | c0 :: c1 :: _ => Ascii.eqb c0 "0" && Ascii.eqb c1 "x"
     | _ => false
     end
  then ([pI t], true) else ([pF t], false).

Definition block_read {V} (pI pF : list ascii -> V) (ts : list (list ascii)) : list V * bool :=
  (List.concat (map (fun t => fst (leaf_read pI pF t)) ts),
   forallb (fun t => snd (leaf_read pI pF t)) ts).

(** The text of one component. *)
Definition scalar_text (mode : ValueMode) (z : Z) : list ascii :=
  list_ascii_of_string (stringifyScalar z mode).

(** How the calculator reads back the text of one component: [parseFloat]
    for a decimal text, [parseInt] for a hex one. *)
Definition text_read {V} (pI pF : list ascii -> V) (mode : ValueMode) (z : Z) : V :=
  match mode with
  | Decimal => pF (scalar_text mode z)
  | Hexadecimal => pI (scalar_text mode z)
  end.

(** The components whose printed text is read back: in Decimal mode an
    integer of magnitude at most 2^53, whose JS text is its plain decimal
    digits; in Hexadecimal mode an integer from 0 to 2^53. *)
Definition printable (mode : ValueMode) (z : Z) : Prop :=
  match mode with
  | Decimal => (Z.abs z <= 2 ^ 53)%Z
  | Hexadecimal => (0 <= z <= 2 ^ 53)%Z
  end.

Definition mode_is_hex (mode : ValueMode) : bool :=
  match mode with Decimal => false | Hexadecimal => true end.

(** A parenthesized single number, as [stringifyVector] prints a column
    of one row, and the [Scalar] node [close] makes of it: the number's
    own position, with the closer as [delim]. *)
Definition single_text (t : list ascii) : list ascii := block_text [t].

Definition single_node (i : nat) (t : list ascii) : Node :=
  mkNode Scalar (Z.of_nat (S i)) (Z.of_nat (S i + List.length t)) ")" [].

(** A parenthesized list of such single numbers, as [stringify] prints a
    matrix of one row, and the [Vector] node made of it. *)
Definition singles_node (i : nat) (ts : list (list ascii)) : Node :=
  mkNode Vector (Z.of_nat i) (Z.of_nat (i + List.length (matrix_text (map (fun t => [t]) ts)))) ")"
    (seq_nodes single_text single_node (S i) ts).

End Texts.

(** ** The spec's descriptions, where a claim is compared with the code *)

Section SpecSide.
Context {N : Type} `{JsArith N} `{JsMath N}.

(** "both operands are scalar, OR at least one is scalar, OR both have
    identical length and identical row count" *)
Definition opPairs_compatible (a b : Value N) : bool :=
  ((vlength a =? vlength b) && (rows a =? rows b))
  || Z.eqb (dimensions a) 0 || Z.eqb (dimensions b) 0.

(** "the sum over k", accumulated from 0 left to right as JS does. *)
Definition sum_over (n : nat) (g : nat -> N) : N :=
  fold_left (fun s k => jadd s (g k)) (seq 0 n) jzero.


(** The guard of [angle]: vectors of equal length 2 or 3, both nonzero. *)
Definition angle_ok (a b : Value N) : bool :=
  Z.eqb (dimensions a) 1 && Z.eqb (dimensions b) 1 && (vlength a =? vlength b)
  && (2 <=? vlength a) && (vlength a <=? 3)
  && negb (jeqb (js_at (magnitude a) 0) jzero)
  && negb (jeqb (js_at (magnitude b) 0) jzero).

(** [cos = dot(normalize(a), normalize(b))] *)
Definition angle_cos (a b : Value N) : N :=
  js_at (dot (normalize a) (normalize b)) 0.

(** The 2D pseudo-cross (length 2) or the magnitude of the 3D cross. *)
Definition angle_sin (a b : Value N) : N :=
  let normA := normalize a in
  let normB := normalize b in
  if vlength a =? 2
  then jsub (jmul (js_at normA 0) (js_at normB 1)) (jmul (js_at normA 1) (js_at normB 0))
  else js_at (magnitude (cross normA normB)) 0.

(** [angle] as the claim words it: the arcsine branch whenever
    [|cos| > sqrt(2)/2]. *)
Definition angle_claimed (a b : Value N) : Value N :=
  if negb (angle_ok a b) then invalid
  else if jltb half_sqrt2 (jabs (angle_cos a b))
  then scalar (jabs (jneg (jasin (angle_sin a b))))
  else scalar (jacos (angle_cos a b)).

End SpecSide.

(** A [parseInt]/[parseFloat] for unsigned decimal integer literals,
    with values in the reals. *)
Definition real_parse_integer (cs : list ascii) : R :=
  fold_left (fun acc c => (acc * 10 + INR (nat_of_ascii c - 48))%R) cs 0%R.

(** * Proofs *)

(** ** Lemmas on the loops *)

Lemma fold_push_map {A B} (f : A -> B) (l : list A) (acc : list B) :
  fold_left (fun acc i => acc ++ [f i]) l acc = acc ++ map f l.
Proof.
  revert acc; induction l as [|x l IH]; intros acc; simpl.
  - now rewrite app_nil_r.
  - rewrite IH, <- app_assoc; reflexivity.
Qed.

Lemma map_nth_seq {A B} (g : A -> B) (l : list A) (d : A) :
  map (fun i => g (nth i l d)) (seq 0 (List.length l)) = map g l.
Proof.
  apply nth_error_ext; intros n.
  rewrite !nth_error_map, nth_error_seq.
  destruct (Nat.ltb_spec n (List.length l)) as [Hn|Hn].
  - now rewrite (nth_error_nth' l d Hn).
  - rewrite (proj2 (nth_error_None l n)) by lia; reflexivity.
Qed.

(** ** C3: the derived shape *)

(** Claim C3 (as stated, refuted): the sentinel [Value.invalid] (rows 0,
    length 0) has [dimensions] 1, the vector code, and a 1xN value
    (rows 1) has [dimensions] 2 although its row count is not above 1. *)
Lemma dimensions_sentinel_is_vector :
  dimensions (@invalid nat) = 1%Z /\ dimensions (mkValue [0; 0; 0] 1) = 2%Z.
Proof. split; reflexivity. Qed.

(** Claim C3 (amended): [dimensions] is 0 exactly when the length is 1;
    otherwise 1 exactly when length = rows (the sentinel included);
    otherwise 2 exactly when rows > 0 divides the length (1xN included);
    otherwise -1.  The sentinel is told apart by [valid] (rows > 0). *)
Theorem dimensions_classification {N : Type} (v : Value N) :
  (dimensions v = 0%Z <-> vlength v = 1) /\
  (dimensions v = 1%Z <-> vlength v <> 1 /\ vlength v = rows v) /\
  (dimensions v = 2%Z <->
     vlength v <> 1 /\ vlength v <> rows v /\
     0 < rows v /\ Nat.divide (rows v) (vlength v)) /\
  (dimensions v = (-1)%Z <->
     vlength v <> 1 /\ vlength v <> rows v /\
     ~ (0 < rows v /\ Nat.divide (rows v) (vlength v))) /\
  dimensions (@invalid N) = 1%Z /\ valid (@invalid N) = false.
Proof.
  unfold dimensions, js_mod_is_zero.
  destruct (Nat.eqb_spec (vlength v) 1) as [H1|H1];
    [repeat split; intros; (discriminate || lia || tauto) |].
  destruct (Nat.eqb_spec (vlength v) (rows v)) as [H2|H2];
    [repeat split; intros; (discriminate || lia || tauto) |].
  destruct (rows v) as [|r] eqn:Hr.
  - assert (~ 0 < 0) by lia.
    repeat split; intros; (discriminate || lia || tauto).
  - assert (0 < S r) by lia.
    destruct (Nat.eqb_spec (vlength v mod S r) 0) as [H3|H3].
    + apply Nat.Lcm0.mod_divide in H3.
      repeat split; intros; (discriminate || lia || tauto).
    + assert (~ Nat.divide (S r) (vlength v)) as H4
        by (intro Hd; apply H3, Nat.Lcm0.mod_divide; exact Hd).
      repeat split; intros; (discriminate || lia || tauto).
Qed.

(** ** C1: elementwise operators *)

Import FloatModel RealModel.

Lemma opPairs_guard {N : Type} `{JsArith N} (a b : Value N) :
  (negb (vlength a =? vlength b) || negb (rows a =? rows b))
  && negb (Z.eqb (dimensions a) 0) && negb (Z.eqb (dimensions b) 0)
  = negb (opPairs_compatible a b).
Proof.
  unfold opPairs_compatible.
  destruct (vlength a =? vlength b), (rows a =? rows b),
    (Z.eqb (dimensions a) 0), (Z.eqb (dimensions b) 0); reflexivity.
Qed.

Lemma opPairs_elems {N : Type} `{JsArith N} (a b : Value N) op :
  opPairs_compatible a b = true ->
  opPairs a b op =
  mkValue (map (fun i => op (js_at a (i mod vlength a)) (js_at b (i mod vlength b)))
             (seq 0 (Nat.max (vlength a) (vlength b))))
          (Nat.max (rows a) (rows b)).
Proof.
  intros Hc; unfold opPairs; rewrite opPairs_guard, Hc; simpl.
  now rewrite fold_push_map.
Qed.

(** Claim C1 (as stated, refuted): two sentinels have identical length and
    identical row count, yet [opPairs] of them is not valid. *)
Lemma opPairs_sentinels_not_valid :
  opPairs_compatible (@invalid float) (@invalid float) = true /\
  valid (addPairs (@invalid float) (@invalid float)) = false.
Proof. split; reflexivity. Qed.

(** Claim C1 (amended): [opPairs a b f] is the sentinel whenever the
    operands are incompatible; when they are compatible its components are
    [f(a[i mod len a], b[i mod len b])] for [i < max(len a, len b)] and its
    row count is [max(rows a, rows b)], so it is valid exactly when the
    operands are compatible and one of them has a positive row count; a
    nonempty [v] with rows > 0 combined with a scalar [s] gives [f]
    applied componentwise, with the rows of [v]. *)
Theorem opPairs_spec {N : Type} `{JsArith N} (a b : Value N) (op : N -> N -> N) :
  (opPairs_compatible a b = false -> opPairs a b op = invalid) /\
  (opPairs_compatible a b = true ->
     vlength (opPairs a b op) = Nat.max (vlength a) (vlength b) /\
     rows (opPairs a b op) = Nat.max (rows a) (rows b) /\
     forall i, i < Nat.max (vlength a) (vlength b) ->
       js_at (opPairs a b op) i = op (js_at a (i mod vlength a)) (js_at b (i mod vlength b))) /\
  valid (opPairs a b op) = opPairs_compatible a b && (0 <? Nat.max (rows a) (rows b)) /\
  (forall (s : N), 0 < vlength a -> 0 < rows a ->
     opPairs a (scalar s) op = mkValue (map (fun x => op x s) (elems a)) (rows a)).
Proof.
  split; [|split; [|split]].
  - intros Hc; unfold opPairs; rewrite opPairs_guard, Hc; reflexivity.
  - intros Hc; rewrite (opPairs_elems a b op Hc); simpl.
    split; [unfold vlength; simpl; now rewrite length_map, length_seq|].
    split; [reflexivity|].
    intros i Hi; unfold js_at at 1; simpl.
    apply nth_error_nth.
    rewrite nth_error_map, nth_error_seq.
    destruct (Nat.ltb_spec i (Nat.max (vlength a) (vlength b))); [reflexivity | lia].
  - destruct (opPairs_compatible a b) eqn:Hc.
    + rewrite (opPairs_elems a b op Hc); reflexivity.
    + unfold opPairs; rewrite opPairs_guard, Hc; reflexivity.
  - intros s Hl Hr.
    assert (Hc : opPairs_compatible a (scalar s) = true)
      by (unfold opPairs_compatible; rewrite !orb_true_iff; right; reflexivity).
    rewrite (opPairs_elems a (scalar s) op Hc).
    change (vlength (scalar s)) with 1; change (rows (scalar s)) with 1.
    replace (Nat.max (vlength a) 1) with (vlength a) by lia.
    replace (Nat.max (rows a) 1) with (rows a) by lia.
    f_equal.
    rewrite <- (map_nth_seq (fun x => op x s) (elems a) jnan).
    apply map_ext_in; intros i Hi; apply in_seq in Hi.
    rewrite Nat.mod_small by (unfold vlength in *; lia).
    rewrite Nat.mod_1_r; reflexivity.
Qed.

(** Witness of C1 on doubles: [(1, 2) + 3] is [(4, 5)], and a
    vector of length 3 with a vector of length 2 is the sentinel. *)
Lemma opPairs_spec_witness :
  addPairs (vec [1%float; 2%float]) (scalar 3%float) = vec [4%float; 5%float] /\
  addPairs (vec [1%float; 2%float; 3%float]) (vec [1%float; 2%float]) = invalid.
Proof.
  split.
  - destruct (opPairs_spec (vec [1%float; 2%float]) (scalar 3%float) jadd)
      as [_ [_ [_ H4]]].
    unfold addPairs; rewrite (H4 3%float) by (vm_compute; lia).
    vm_compute; reflexivity.
  - destruct (opPairs_spec (vec [1%float; 2%float; 3%float]) (vec [1%float; 2%float]) jadd)
      as [H1 _].
    apply H1; vm_compute; reflexivity.
Defined.

(** ** C2: matrix product *)

Lemma nth_map_seq {A} (f : nat -> A) (s n i : nat) (d : A) :
  i < n -> nth i (map f (seq s n)) d = f (s + i).
Proof.
  intros Hi; apply nth_error_nth.
  rewrite nth_error_map, nth_error_seq.
  destruct (Nat.ltb_spec i n); [reflexivity | lia].
Qed.








(** ** C10: transpose *)

Lemma divmod_block (c i j : nat) :
  j < c -> (i * c + j) / c = i /\ (i * c + j) mod c = j.
Proof.
  intros Hj; split; symmetry.
  - apply (Nat.div_unique _ _ _ j); [exact Hj | lia].
  - apply (Nat.mod_unique _ _ i); [exact Hj | lia].
Qed.

(** Writing [f m] at position [m] of [f 0, ..., f (m-1)] followed by the
    tail of [L] from [m] on. *)
Lemma write_next {A} (f : nat -> A) (L : list A) (m : nat) :
  m < List.length L ->
  firstn m (map f (seq 0 m) ++ skipn m L) ++ f m :: skipn (S m) (map f (seq 0 m) ++ skipn m L)
  = map f (seq 0 (S m)) ++ skipn (S m) L.
Proof.
  intros Hm.
  rewrite firstn_app, skipn_app, length_map, length_seq, Nat.sub_diag.
  rewrite firstn_all2 by (rewrite length_map, length_seq; lia).
  rewrite (skipn_all2 (map f (seq 0 m))) by (rewrite length_map, length_seq; lia).
  replace (S m - m) with 1 by lia.
  rewrite skipn_skipn, firstn_O, app_nil_r, seq_S, map_app; simpl.
  rewrite <- app_assoc; simpl; do 3 f_equal; lia.
Qed.

Lemma transpose_inner {N : Type} `{JsArith N} (x : Value N) (c i J : nat)
  (f : nat -> N) :
  vlength x = rows x * c -> i < rows x -> J <= c ->
  (forall j, j < c -> f (i * c + j) = entry x i j) ->
  fold_left (fun y j => js_set y (index y j i) (entry x i j)) (seq 0 J)
    (mkValue (map f (seq 0 (i * c)) ++ skipn (i * c) (elems x)) c)
  = mkValue (map f (seq 0 (i * c + J)) ++ skipn (i * c + J) (elems x)) c.
Proof.
  intros Hl Hi; induction J as [|J IH]; intros HJ Hf.
  - now rewrite Nat.add_0_r.
  - rewrite seq_S, fold_left_app, IH by (lia || exact Hf); simpl.
    assert (Hlt : i * c + J < vlength x) by (rewrite Hl; nia).
    unfold js_set, index, vlength at 1; cbn [elems rows].
    rewrite length_app, length_map, length_seq, length_skipn.
    replace (i * c + J <? i * c + J + (List.length (elems x) - (i * c + J))) with true
      by (symmetry; apply Nat.ltb_lt; unfold vlength in Hlt; lia).
    rewrite <- (Hf J) by lia.
    rewrite (write_next f (elems x) (i * c + J)) by exact Hlt.
    now rewrite Nat.add_succ_r.
Qed.

Lemma transpose_outer {N : Type} `{JsArith N} (x : Value N) (c I : nat)
  (f : nat -> N) :
  vlength x = rows x * c -> I <= rows x ->
  (forall i j, i < rows x -> j < c -> f (i * c + j) = entry x i j) ->
  fold_left
    (fun y i => fold_left (fun y j => js_set y (index y j i) (entry x i j)) (seq 0 c) y)
    (seq 0 I) (mkValue (elems x) c)
  = mkValue (map f (seq 0 (I * c)) ++ skipn (I * c) (elems x)) c.
Proof.
  intros Hl; induction I as [|I IH]; intros HI Hf; [reflexivity|].
  rewrite seq_S, fold_left_app, IH by (lia || exact Hf); simpl.
  rewrite (transpose_inner x c I c f Hl) by (lia || (intros; apply Hf; lia)).
  assert (E : I * c + c = S I * c) by lia.
  simpl in E |- *; rewrite E; reflexivity.
Qed.

(** The result of [transpose] on an r x c value with r, c > 0. *)
Lemma transpose_layout {N : Type} `{JsArith N} (x : Value N) (c : nat) :
  0 < rows x -> 0 < c -> vlength x = rows x * c ->
  transpose x =
  Some (mkValue (map (fun p => js_at x ((p mod c) * rows x + p / c))
                     (seq 0 (rows x * c))) c).
Proof.
  intros Hr Hc Hl.
  assert (Hdiv : vlength x / rows x = c)
    by (rewrite Hl, Nat.mul_comm, Nat.div_mul; lia).
  unfold transpose; rewrite Hdiv.
  assert (Hcols : cols_eqb x c = true)
    by (unfold cols_eqb; rewrite Hl; apply andb_true_iff;
        split; [apply Nat.ltb_lt; lia | apply Nat.eqb_eq; lia]).
  rewrite Hcols; simpl.
  rewrite (transpose_outer x c (rows x)
             (fun p => js_at x ((p mod c) * rows x + p / c)) Hl (le_n _)).
  - rewrite skipn_all2 by (unfold vlength in Hl; lia).
    now rewrite app_nil_r.
  - intros i j Hi Hj; destruct (divmod_block c i j Hj) as [-> ->].
    reflexivity.
Qed.

(** On values with a natural number of columns, [transpose_js] and
    [transpose] agree: a 2x3 matrix, a vector and a scalar. *)
Lemma transpose_js_natural_examples :
  transpose_js 10 (of_value (mkValue [1; 2; 3; 4; 5; 6]%float 2))
  = option_map of_value (transpose (mkValue [1; 2; 3; 4; 5; 6]%float 2)) /\
  transpose_js 10 (of_value (vec [1; 2; 3]%float))
  = option_map of_value (transpose (vec [1; 2; 3]%float)) /\
  transpose_js 10 (of_value (scalar 7%float))
  = option_map of_value (transpose (scalar 7%float)).
Proof. repeat split; vm_compute; reflexivity. Qed.

(** Claim C10 (as stated, refuted): two valid values that two transposes
    do not give back.  The value with no component and two rows is
    classified as a matrix; its transpose has zero columns, i.e.
    rows = 0, and transposing that gives [y.cols = 0 / 0], a [NaN] row
    count.  The value [5] with three rows has length 1, so it is a
    scalar, and [x.cols = 1 / 3]: its transpose is [5] with the row count
    1/3 (the index [y.index(0, i) = i / 3] of the writes for i = 1, 2 is
    fractional, so they set properties, not elements), and transposing
    that gives the three components 5, undefined, undefined with three
    rows. *)
Lemma transpose_not_involutive :
  (valid (mkValue (@nil float) 2) = true /\
   dimensions (mkValue (@nil float) 2) = 2%Z /\
   transpose (mkValue (@nil float) 2) = Some (mkValue [] 0) /\
   transpose (mkValue (@nil float) 0) = None /\
   option_map (fun y => (js_elems y, PrimFloat.is_nan (js_rows y)))
     (match transpose_js 10 (of_value (mkValue (@nil float) 2)) with
      | Some y => transpose_js 10 y
      | None => None
      end) = Some ([], true)) /\
  (valid (mkValue [5%float] 3) = true /\
   dimensions (mkValue [5%float] 3) = 0%Z /\
   option_map (fun y => (js_elems y, js_rows y))
     (transpose_js 10 (of_value (mkValue [5%float] 3)))
   = Some ([5%float], PrimFloat.div 1 3) /\
   option_map (fun y => (js_elems y, js_rows y))
     (match transpose_js 10 (of_value (mkValue [5%float] 3)) with
      | Some y => transpose_js 10 y
      | None => None
      end) = Some ([5%float; PrimFloat.nan; PrimFloat.nan], 3%float)).
Proof. repeat split; vm_compute; reflexivity. Qed.

(** Claim C10 (amended): a scalar of one row ([scalar e], as
    [Value.scalar] builds it) transposes to itself, and for every value
    with r > 0 rows and c > 0 whole columns (every nonempty vector and
    matrix, and a scalar of one row), [transpose] gives a value with c
    rows, the same number of components and entry (j, i) equal to entry
    (i, j) of the original, whose transpose is the original value again.
    A scalar of r > 1 rows has a fractional column count and is not
    covered. *)
Theorem transpose_involution {N : Type} `{JsArith N} (x : Value N) (c : nat) :
  (forall e : N, transpose (scalar e) = Some (scalar e)) /\
  (0 < rows x -> 0 < c -> vlength x = rows x * c ->
   exists y, transpose x = Some y /\ rows y = c /\ vlength y = vlength x /\
     (forall i j, i < rows x -> j < c -> entry y j i = entry x i j) /\
     transpose y = Some x).
Proof.
  split; [intros e; reflexivity|].
  intros Hr Hc Hl.
  rewrite (transpose_layout x c Hr Hc Hl).
  set (g := fun p => js_at x ((p mod c) * rows x + p / c)).
  set (y := mkValue (map g (seq 0 (rows x * c))) c).
  exists y; split; [reflexivity|].
  split; [reflexivity|].
  assert (Hly : vlength y = rows x * c)
    by (unfold y, vlength; simpl; now rewrite length_map, length_seq).
  split; [rewrite Hly; symmetry; exact Hl|].
  split.
  - intros i j Hi Hj.
    unfold entry, index, js_at; simpl.
    rewrite nth_map_seq by nia; simpl; unfold g.
    destruct (divmod_block c i j Hj) as [-> ->]; reflexivity.
  - rewrite (transpose_layout y (rows x) Hc Hr) by (rewrite Hly; simpl; lia).
    f_equal; destruct x as [el r]; unfold vlength in *; simpl in *.
    f_equal.
    apply nth_ext with (d := jnan) (d' := jnan).
    + rewrite length_map, length_seq; lia.
    + intros p Hp; rewrite length_map, length_seq in Hp.
      rewrite nth_map_seq by exact Hp; simpl.
      assert (Hpm : p mod r < r) by (apply Nat.mod_upper_bound; lia).
      assert (Hpd : p / r < c) by (apply Nat.Div0.div_lt_upper_bound; lia).
      unfold js_at; simpl.
      rewrite nth_map_seq by nia; simpl; unfold g; simpl.
      destruct (divmod_block c (p mod r) (p / r) Hpd) as [-> ->].
      unfold js_at; simpl.
      rewrite (Nat.mul_comm (p / r) r), <- Nat.div_mod by lia; reflexivity.
Qed.

(** Witness of C10: the 2x3 matrix with columns (1,2), (3,4), (5,6). *)
Lemma transpose_involution_witness :
  exists y, transpose (mkValue [1; 2; 3; 4; 5; 6]%float 2) = Some y /\ rows y = 3 /\
    vlength y = 6 /\
    (forall i j, i < 2 -> j < 3 ->
       entry y j i = entry (mkValue [1; 2; 3; 4; 5; 6]%float 2) i j) /\
    transpose y = Some (mkValue [1; 2; 3; 4; 5; 6]%float 2).
Proof.
  destruct (transpose_involution (mkValue [1; 2; 3; 4; 5; 6]%float 2) 3) as [_ H2].
  apply H2; [simpl; lia | lia | reflexivity].
Defined.

(** ** Digit strings *)

Section Digits.
Import Stringify.

Lemma npow_pos (r n : N) : (0 < r)%N -> (0 < r ^ n)%N.
Proof. intros Hr; pose proof (N.pow_nonzero r n ltac:(lia)); lia. Qed.

Lemma rdf_stable (r : N) (f g : nat) (x : N) :
  (2 <= r)%N -> (0 < x)%N -> (x < r ^ N.of_nat f)%N -> (x < r ^ N.of_nat g)%N ->
  radix_digits_fuel f r x = radix_digits_fuel g r x.
Proof.
  intros Hr; revert g x; induction f as [|f IH]; intros g x Hx Hxf Hxg.
  - simpl in Hxf; lia.
  - destruct g as [|g]; [simpl in Hxg; lia|].
    cbn [radix_digits_fuel]; destruct (x <? r)%N eqn:E; [reflexivity|].
    apply N.ltb_ge in E.
    rewrite Nat2N.inj_succ, N.pow_succ_r' in Hxf, Hxg.
    f_equal; apply IH.
    + apply N.div_str_pos; lia.
    + apply N.Div0.div_lt_upper_bound; lia.
    + apply N.Div0.div_lt_upper_bound; lia.
Qed.

Lemma rd_fuel (r x : N) :
  (2 <= r)%N -> (x < r ^ N.of_nat (S (N.to_nat (N.size x))))%N.
Proof.
  intros Hr; rewrite Nat2N.inj_succ, N2Nat.id, N.pow_succ_r'.
  pose proof (N.size_gt x) as Hg.
  assert (Hle : (2 ^ N.size x <= r ^ N.size x)%N) by (apply N.pow_le_mono_l; lia).
  nia.
Qed.

Lemma rd_small (r x : N) : (x < r)%N -> radix_digits r x = [digit_char x].
Proof.
  intros Hx; unfold radix_digits; cbn [radix_digits_fuel].
  apply N.ltb_lt in Hx; now rewrite Hx.
Qed.

Lemma rd_unfold (r x : N) :
  (2 <= r)%N -> (r <= x)%N ->
  radix_digits r x = radix_digits r (x / r) ++ [digit_char (x mod r)].
Proof.
  intros Hr Hx; unfold radix_digits at 1; cbn [radix_digits_fuel].
  replace (x <? r)%N with false by (symmetry; apply N.ltb_ge; lia).
  f_equal; unfold radix_digits; apply rdf_stable; [lia | apply N.div_str_pos; lia | | apply rd_fuel; lia].
  pose proof (rd_fuel r x Hr) as Hf.
  rewrite Nat2N.inj_succ, N.pow_succ_r' in Hf.
  apply N.Div0.div_lt_upper_bound; lia.
Qed.

Lemma rd_mul (r x : N) :
  (2 <= r)%N -> (0 < x)%N ->
  radix_digits r (x * r) = radix_digits r x ++ [digit_char 0].
Proof.
  intros Hr Hx; rewrite rd_unfold by nia.
  rewrite N.div_mul, N.Div0.mod_mul by lia; reflexivity.
Qed.

Lemma repeat_snoc {A} (a : A) (n : nat) : repeat a n ++ [a] = repeat a (S n).
Proof. induction n as [|n IH]; simpl; [reflexivity | now rewrite IH]. Qed.

Lemma rd_mul_pow (x : N) (e : nat) :
  (0 < x)%N ->
  radix_digits 10 (x * 10 ^ N.of_nat e) = radix_digits 10 x ++ repeat "0"%char e.
Proof.
  intros Hx; induction e as [|e IH].
  - rewrite N.mul_1_r, app_nil_r; reflexivity.
  - rewrite Nat2N.inj_succ, N.pow_succ_r', N.mul_assoc, (N.mul_comm x 10), <- N.mul_assoc,
      (N.mul_comm 10).
    rewrite rd_mul, IH by (lia || (apply N.mul_pos_pos; [lia | apply npow_pos; lia])).
    rewrite <- app_assoc; f_equal; apply repeat_snoc.
Qed.

Lemma rd_length_bounds (r x : N) :
  (2 <= r)%N -> (0 < x)%N ->
  exists L, List.length (radix_digits r x) = S L /\
    (r ^ N.of_nat L <= x < r ^ N.of_nat (S L))%N.
Proof.
  intros Hr.
  assert (H : forall n x, (0 < x)%N -> (x < r ^ N.of_nat n)%N ->
            exists L, List.length (radix_digits r x) = S L /\
              (r ^ N.of_nat L <= x < r ^ N.of_nat (S L))%N).
  { induction n as [|n IH]; intros y Hy Hyn; [simpl in Hyn; lia|].
    destruct (N.lt_ge_cases y r) as [Hs|Hs].
    - exists 0; rewrite rd_small by exact Hs; split; [reflexivity|].
      change (N.of_nat 0) with 0%N; change (N.of_nat 1) with 1%N.
      rewrite N.pow_0_r, N.pow_1_r; lia.
    - rewrite Nat2N.inj_succ, N.pow_succ_r' in Hyn.
      destruct (IH (y / r)%N) as (L & HL & Hlo & Hhi);
        [apply N.div_str_pos; lia | apply N.Div0.div_lt_upper_bound; lia |].
      exists (S L); rewrite rd_unfold, length_app, HL by assumption; simpl List.length.
      split; [lia|].
      rewrite !Nat2N.inj_succ, !N.pow_succ_r' in *.
      pose proof (N.Div0.div_mod y r) as Hdm.
      pose proof (N.mod_lt y r ltac:(lia)) as Hm.
      set (A := (r ^ N.of_nat L)%N) in *.
      set (q := (y / r)%N) in *; set (m := (y mod r)%N) in *.
      split; nia. }
  intros Hx; apply (H (S (N.to_nat (N.size x)))); [exact Hx | apply rd_fuel; exact Hr].
Qed.

Lemma rd_length_unique (r x : N) (k : nat) :
  (2 <= r)%N -> (r ^ N.of_nat k <= x < r ^ N.of_nat (S k))%N ->
  List.length (radix_digits r x) = S k.
Proof.
  intros Hr [Hlo Hhi].
  assert (Hx : (0 < x)%N) by (pose proof (npow_pos r (N.of_nat k) ltac:(lia)); lia).
  destruct (rd_length_bounds r x Hr Hx) as (L & HL & Hl & Hh).
  rewrite HL; f_equal.
  destruct (Nat.lt_trichotomy L k) as [Hlt|[Heq|Hgt]]; [|exact Heq|].
  - assert (Hp : (r ^ N.of_nat (S L) <= r ^ N.of_nat k)%N)
      by (apply N.pow_le_mono_r; lia).
    lia.
  - assert (Hp : (r ^ N.of_nat (S k) <= r ^ N.of_nat L)%N)
      by (apply N.pow_le_mono_r; lia).
    lia.
Qed.

End Digits.

(** ** Decimal text of safe integers *)

Section DecimalText.
Import Stringify.

Lemma round_double_pos_exact (m : Z) :
  (0 <= m <= 2 ^ 53)%Z -> round_double_pos m = m.
Proof.
  intros Hm; destruct (Z.eq_dec m (2 ^ 53)) as [->|Hne]; [reflexivity|].
  unfold round_double_pos.
  destruct (Z.eq_dec m 0) as [->|Hz]; [reflexivity|].
  assert (Hl : (Z.log2 m < 53)%Z) by (apply Z.log2_lt_pow2; lia).
  replace (Z.log2 m + 1 - 53 <=? 0)%Z with true by (symmetry; apply Z.leb_le; lia).
  reflexivity.
Qed.

Lemma round_double_pos_safe (v x : Z) :
  (0 <= v)%Z -> (0 < x <= 2 ^ 53)%Z -> round_double_pos v = x ->
  v = x \/ (x = 2 ^ 53 /\ v = 2 ^ 53 + 1)%Z.
Proof.
  intros Hv Hx; unfold round_double_pos.
  destruct (Z.log2 v + 1 - 53 <=? 0)%Z eqn:Es; [now left|].
  apply Z.leb_gt in Es.
  assert (Hvp : (0 < v)%Z)
    by (destruct (Z.eq_dec v 0) as [->|]; [simpl in Es; lia | lia]).
  destruct (Z.log2_spec v Hvp) as [Hlo Hhi].
  set (L := Z.log2 v) in *.
  set (sh := (L + 1 - 53)%Z) in *.
  rewrite Z.shiftr_div_pow2, !Z.shiftl_mul_pow2 by lia.
  assert (E2 : (2 ^ L = 2 ^ 52 * 2 ^ sh)%Z)
    by (rewrite <- Z.pow_add_r by lia; f_equal; lia).
  assert (Hpos : (0 < 2 ^ sh)%Z) by (apply Z.pow_pos_nonneg; lia).
  assert (Hq : (2 ^ 52 <= v / 2 ^ sh)%Z)
    by (apply Z.div_le_lower_bound; lia).
  set (q := (v / 2 ^ sh)%Z) in *.
  assert (Hsh : (2 ^ sh = 2 \/ 4 <= 2 ^ sh)%Z).
  { destruct (Z.eq_dec sh 1) as [->|]; [now left|right].
    change 4%Z with (2 ^ 2)%Z; apply Z.pow_le_mono_r; lia. }
  intros Hr.
  destruct (_ || _)%bool in Hr.
  - exfalso; destruct Hsh as [Hsh|Hsh]; nia.
  - destruct Hsh as [Hsh|Hsh]; [|nia].
    rewrite Hsh in Hr.
    assert (Hq' : q = (2 ^ 52)%Z) by lia.
    pose proof (Z.div_mod v (2 ^ sh) ltac:(lia)) as Hdm.
    pose proof (Z.mod_pos_bound v (2 ^ sh) Hpos) as Hmb.
    fold q in Hdm; rewrite Hsh in Hdm, Hmb.
    destruct (Z.eq_dec (v mod 2) 0) as [H0|H1].
    + left; lia.
    + right; lia.
Qed.


Lemma closest_fold (x : Z) (ps : list (Z * nat)) (a : Z * nat) :
  exists b, fold_left (fun acc p => match acc with
                                    | None => Some p
                                    | Some q => if closer x p q then Some p else Some q
                                    end) ps (Some a) = Some b /\
    (b = a \/ In b ps) /\ (dist x b <= dist x a)%Z /\
    forall q, In q ps -> (dist x b <= dist x q)%Z.
Proof.
  revert a; induction ps as [|p ps IH]; intros a.
  - exists a; split; [reflexivity|]; split; [now left|]; split; [lia | intros q []].
  - simpl; destruct (closer x p a) eqn:C.
    + destruct (IH p) as (b & Hb & Hin & Hle & Hall).
      exists b; split; [exact Hb|].
      unfold closer in C; fold (dist x p) (dist x a) in C.
      split; [destruct Hin as [->|Hin]; right; [now left | now right]|].
      apply orb_true_iff in C; rewrite !andb_true_iff, Z.ltb_lt, Z.eqb_eq in C.
      split; [destruct C as [C|[[C _] _]]; lia|].
      intros q [<-|Hq]; [lia | now apply Hall].
    + destruct (IH a) as (b & Hb & Hin & Hle & Hall).
      exists b; split; [exact Hb|].
      unfold closer in C; fold (dist x p) (dist x a) in C.
      apply orb_false_iff in C as [C _]; apply Z.ltb_ge in C.
      split; [destruct Hin as [->|Hin]; [now left | right; now right]|].
      split; [exact Hle|].
      intros q [<-|Hq]; [lia | now apply Hall].
Qed.

Lemma closest_spec (x : Z) (ps : list (Z * nat)) :
  ps <> [] ->
  exists b, closest x ps = Some b /\ In b ps /\ forall q, In q ps -> (dist x b <= dist x q)%Z.
Proof.
  destruct ps as [|p ps]; [congruence|]; intros _.
  unfold closest; simpl.
  destruct (closest_fold x ps p) as (b & Hb & Hin & Hle & Hall).
  exists b; split; [exact Hb|]; split.
  - destruct Hin as [->|Hin]; [now left | now right].
  - intros q [<-|Hq]; [exact Hle | now apply Hall].
Qed.

Lemma candidate_facts (x s : Z) (k e : nat) :
  In (s, e) (shortest_candidates x k) ->
  (10 ^ Z.of_nat (k - 1) <= s < 10 ^ Z.of_nat k)%Z /\
  round_double_pos (s * 10 ^ Z.of_nat e) = x.
Proof.
  unfold shortest_candidates; rewrite filter_In; intros [_ H].
  rewrite !andb_true_iff, Z.leb_le, Z.ltb_lt, Z.eqb_eq in H; tauto.
Qed.

Lemma dec_bounds (x : Z) :
  (0 < x)%Z ->
  exists L, List.length (dec_digits x) = S L /\ (10 ^ Z.of_nat L <= x < 10 ^ Z.of_nat (S L))%Z.
Proof.
  intros Hx; unfold dec_digits.
  destruct (rd_length_bounds 10 (Z.to_N x) ltac:(lia) ltac:(lia)) as (L & HL & Hlo & Hhi).
  exists L; split; [exact HL|].
  apply N2Z.inj_le in Hlo; apply N2Z.inj_lt in Hhi.
  rewrite N2Z.inj_pow, Z2N.id, nat_N_Z in Hlo by lia.
  rewrite N2Z.inj_pow, Z2N.id, nat_N_Z in Hhi by lia.
  lia.
Qed.

Lemma dec_unique (s : Z) (k : nat) :
  (10 ^ Z.of_nat k <= s < 10 ^ Z.of_nat (S k))%Z -> List.length (dec_digits s) = S k.
Proof.
  intros [Hlo Hhi]; unfold dec_digits; apply rd_length_unique; [lia|].
  assert (Hp : (0 < 10 ^ Z.of_nat k)%Z) by (apply Z.pow_pos_nonneg; lia).
  split.
  - apply N2Z.inj_le; rewrite N2Z.inj_pow, Z2N.id, nat_N_Z by lia; exact Hlo.
  - apply N2Z.inj_lt; rewrite N2Z.inj_pow, Z2N.id, nat_N_Z by lia; exact Hhi.
Qed.

Lemma dec_mul_pow (s : Z) (e : nat) :
  (0 < s)%Z -> dec_digits (s * 10 ^ Z.of_nat e) = dec_digits s ++ repeat "0"%char e.
Proof.
  intros Hs; unfold dec_digits.
  rewrite Z2N.inj_mul, Z2N.inj_pow by lia.
  rewrite <- rd_mul_pow by lia.
  f_equal; f_equal; f_equal; lia.
Qed.

Lemma safe_candidate (x : Z) :
  (0 < x <= 2 ^ 53)%Z ->
  forall k, shortest_candidates x k <> [] ->
  exists s e, In (s, e) (shortest_candidates x k) /\ (s * 10 ^ Z.of_nat e = x)%Z.
Proof.
  intros Hx k Hne.
  destruct (shortest_candidates x k) as [|[s0 e0] cs] eqn:Ec; [congruence|].
  assert (Hin : In (s0, e0) (shortest_candidates x k)) by (rewrite Ec; now left).
  destruct (candidate_facts x s0 k e0 Hin) as [Hb Hr].
  assert (Hp : (0 < 10 ^ Z.of_nat (k - 1))%Z) by (apply Z.pow_pos_nonneg; lia).
  assert (Hpe : (0 < 10 ^ Z.of_nat e0)%Z) by (apply Z.pow_pos_nonneg; lia).
  assert (Hv0 : (0 <= s0 * 10 ^ Z.of_nat e0)%Z) by nia.
  destruct (round_double_pos_safe _ x Hv0 Hx Hr) as [Hv|[Hx2 Hv]].
  - exists s0, e0; rewrite <- Ec in *; split; assumption.
  - destruct e0 as [|e0].
    2:{ exfalso.
        rewrite Nat2Z.inj_succ, Z.pow_succ_r in Hv by lia.
        assert (Hm : ((2 ^ 53 + 1) mod 10 = 0)%Z)
          by (rewrite <- Hv, Z.mul_comm, <- Z.mul_assoc, Z.mul_comm, Z.mod_mul by lia;
              reflexivity).
        discriminate Hm. }
    rewrite Z.mul_1_r in Hv; subst s0 x.
    assert (Hk : k = 16).
    { assert (Hl := dec_unique (2 ^ 53 + 1) (k - 1)).
      replace (S (k - 1)) with k in Hl by (destruct k; [simpl in Hb; lia | lia]).
      specialize (Hl Hb).
      vm_compute in Hl; lia. }
    subst k; exists (2 ^ 53)%Z, 0; split; [|reflexivity].
    rewrite <- Ec; vm_compute; repeat first [left; reflexivity | right].
Qed.

Lemma positive_text_safe (x : Z) :
  (0 < x <= 2 ^ 53)%Z -> positive_text x = dec_digits x.
Proof.
  intros Hx; unfold positive_text.
  replace (2 ^ 1024 <=? x)%Z with false by (symmetry; apply Z.leb_gt; lia).
  destruct (dec_bounds x ltac:(lia)) as (L & HL & Hlo & Hhi).
  rewrite HL.
  set (f := fun k => match shortest_candidates x k with [] => false | _ => true end).
  assert (HD : f (S L) = true).
  { unfold f.
    assert (Hin : In (x, 0) (shortest_candidates x (S L))).
    { unfold shortest_candidates; rewrite filter_In, HL; split.
      - simpl; left.
        assert (E0 : L - 0 - S L = 0) by lia.
        rewrite E0; f_equal; apply Z.div_1_r.
      - rewrite Nat.sub_succ, Nat.sub_0_r, Z.mul_1_r, round_double_pos_exact by lia.
        rewrite Z.eqb_refl, andb_true_r; apply andb_true_iff; split;
          [apply Z.leb_le | apply Z.ltb_lt]; lia. }
    destruct (shortest_candidates x (S L)); [destruct Hin | reflexivity]. }
  destruct (find f (seq 1 (S L))) as [k|] eqn:Ef.
  2:{ exfalso; apply find_none with (x := S L) in Ef;
      [congruence | apply in_seq; lia]. }
  apply find_some in Ef as [Hk Hfk]; apply in_seq in Hk.
  assert (Hne : shortest_candidates x k <> [])
    by (unfold f in Hfk; destruct (shortest_candidates x k); [discriminate | congruence]).
  destruct (closest_spec x _ Hne) as ([s e] & Hc & Hin & Hmin).
  rewrite Hc.
  destruct (safe_candidate x Hx k Hne) as (s1 & e1 & Hin1 & Hex1).
  specialize (Hmin _ Hin1); unfold dist in Hmin; simpl in Hmin.
  rewrite Hex1, Z.sub_diag in Hmin; simpl in Hmin.
  assert (Hex : (s * 10 ^ Z.of_nat e = x)%Z) by lia.
  destruct (candidate_facts x s k e Hin) as [Hb _].
  assert (Hs : (0 < s)%Z) by (pose proof (Z.pow_pos_nonneg 10 (Z.of_nat (k - 1))); lia).
  assert (Hls : List.length (dec_digits s) = k)
    by (rewrite (dec_unique s (k - 1)); [lia | replace (S (k - 1)) with k by lia; exact Hb]).
  assert (Hdx : dec_digits x = dec_digits s ++ repeat "0"%char e)
    by (rewrite <- Hex; apply dec_mul_pow; exact Hs).
  assert (HL16 : L < 16).
  { destruct (Nat.lt_ge_cases L 16) as [|Hge]; [assumption|].
    assert (Hp : (10 ^ 16 <= 10 ^ Z.of_nat L)%Z) by (apply Z.pow_le_mono_r; lia).
    lia. }
  assert (Hke : k + e = S L)
    by (rewrite <- HL, Hdx, length_app, repeat_length, Hls; reflexivity).
  unfold digits_text; rewrite Hke.
  replace (S L <=? 21) with true by (symmetry; apply Nat.leb_le; lia).
  symmetry; exact Hdx.
Qed.

Lemma number_toString_safe (z : Z) :
  (Z.abs z <= 2 ^ 53)%Z -> number_toString (round_double z) = toString_radix 10 z.
Proof.
  intros Hz.
  assert (Hr : round_double z = z).
  { unfold round_double; destruct (z <? 0)%Z eqn:E.
    - apply Z.ltb_lt in E; rewrite round_double_pos_exact by lia; lia.
    - apply Z.ltb_ge in E; apply round_double_pos_exact; lia. }
  rewrite Hr; destruct z as [|p|p]; [reflexivity| |].
  - simpl; apply positive_text_safe; lia.
  - simpl number_toString; rewrite positive_text_safe by lia; reflexivity.
Qed.

Lemma stringify_decimal_safe (z : Z) :
  (Z.abs z <= 2 ^ 53)%Z ->
  stringifyScalar z Decimal = string_of_list_ascii (toString_radix 10 z).
Proof. intros Hz; unfold stringifyScalar; now rewrite number_toString_safe. Qed.

Lemma stringify_hex_double (z : Z) :
  round_double z = z -> (Z.abs z < 2 ^ 1024)%Z ->
  stringifyScalar z Hexadecimal
  = string_of_list_ascii
      (list_ascii_of_string "0x"
       ++ substr_neg (list_ascii_of_string "00000000" ++ toString_radix 16 z) 8).
Proof.
  intros Hd Hf; unfold stringifyScalar, hex_toString; rewrite Hd.
  replace (2 ^ 1024 <=? Z.abs z)%Z with false by (symmetry; apply Z.leb_gt; lia).
  reflexivity.
Qed.

Lemma round_double_safe (z : Z) : (Z.abs z <= 2 ^ 53)%Z -> round_double z = z.
Proof.
  intros Hz; unfold round_double.
  destruct (Z.ltb_spec z 0).
  - rewrite round_double_pos_exact by lia; lia.
  - apply round_double_pos_exact; lia.
Qed.

End DecimalText.

(** ** C8: hexadecimal formatting *)

Lemma substr_neg_cons (a : ascii) (l : list ascii) (k : nat) :
  k <= List.length l -> Stringify.substr_neg (a :: l) k = Stringify.substr_neg l k.
Proof.
  intros Hk; unfold Stringify.substr_neg; cbn [List.length].
  replace (S (List.length l) - k) with (S (List.length l - k)) by lia; reflexivity.
Qed.

Lemma substr_neg_snoc (l : list ascii) (a : ascii) (k : nat) :
  Stringify.substr_neg (l ++ [a]) (S k) = Stringify.substr_neg l k ++ [a].
Proof.
  unfold Stringify.substr_neg; rewrite length_app; simpl.
  replace (List.length l + 1 - S k) with (List.length l - k) by lia.
  rewrite skipn_app; f_equal.
  replace (List.length l - k - List.length l) with 0 by lia; reflexivity.
Qed.

Lemma repeat_S {A} (a : A) (n : nat) : repeat a (S n) = a :: repeat a n.
Proof. reflexivity. Qed.

Lemma fixed_hex_zero (k : nat) : Stringify.fixed_hex k 0 = repeat "0"%char k.
Proof.
  induction k as [|k IH]; [reflexivity|].
  rewrite repeat_S, repeat_cons, <- IH; reflexivity.
Qed.

Lemma substr_neg_repeat (k : nat) :
  Stringify.substr_neg (repeat "0"%char k) k = repeat "0"%char k.
Proof. unfold Stringify.substr_neg; now rewrite repeat_length, Nat.sub_diag. Qed.

(** With enough fuel, the last [k] characters of [k] zeros followed by the
    hex digits of [x] are the [k]-digit form of [x]. *)
Lemma padded_digits (f : nat) (x : N) (k : nat) :
  (x < 16 ^ N.of_nat f)%N ->
  Stringify.substr_neg (repeat "0"%char k ++ Stringify.radix_digits_fuel f 16 x) k
  = Stringify.fixed_hex k x.
Proof.
  revert x k; induction f as [|f IH]; intros x k Hx.
  - simpl in Hx; assert (x = 0%N) as -> by lia.
    simpl; rewrite app_nil_r, fixed_hex_zero; apply substr_neg_repeat.
  - simpl Stringify.radix_digits_fuel.
    destruct (N.ltb_spec x 16) as [Hs|Hs].
    + destruct k as [|k]; [unfold Stringify.substr_neg; now rewrite Nat.sub_0_r, skipn_all|].
      rewrite substr_neg_snoc, repeat_S, substr_neg_cons
        by (rewrite repeat_length; lia).
      rewrite substr_neg_repeat; simpl Stringify.fixed_hex.
      rewrite N.div_small, N.mod_small, fixed_hex_zero by exact Hs; reflexivity.
    + destruct k as [|k]; [unfold Stringify.substr_neg; now rewrite Nat.sub_0_r, skipn_all|].
      rewrite app_assoc, substr_neg_snoc, repeat_S, <- app_comm_cons.
      rewrite substr_neg_cons by (rewrite length_app, repeat_length; lia).
      simpl Stringify.fixed_hex; f_equal; apply IH.
      rewrite Nat2N.inj_succ, N.pow_succ_r' in Hx.
      apply N.Div0.div_lt_upper_bound; lia.
Qed.

Lemma fixed_hex_S (k : nat) (x : N) :
  Stringify.fixed_hex (S k) x
  = Stringify.fixed_hex k (x / 16) ++ [Stringify.digit_char (x mod 16)].
Proof. reflexivity. Qed.

Lemma fixed_hex_mod (k : nat) (x : N) :
  Stringify.fixed_hex k x = Stringify.fixed_hex k (x mod 16 ^ N.of_nat k).
Proof.
  revert x; induction k as [|k IH]; intros x; [reflexivity|].
  rewrite Nat2N.inj_succ, N.pow_succ_r', N.Div0.mod_mul_r, !fixed_hex_S.
  rewrite (IH (x / 16)%N), (IH ((x mod 16 + 16 * ((x / 16) mod 16 ^ N.of_nat k)) / 16)%N).
  assert (Hm : (x mod 16 < 16)%N) by (apply N.mod_lt; lia).
  rewrite (N.mul_comm 16), N.div_add by lia.
  rewrite (N.div_small (x mod 16)) by exact Hm.
  rewrite N.add_0_l, N.Div0.mod_mod.
  rewrite N.Div0.add_mod, N.Div0.mod_mul, N.add_0_r, !N.Div0.mod_mod; reflexivity.
Qed.

Lemma radix_digits_fuel_enough (n : N) :
  (n < 16 ^ N.of_nat (S (N.to_nat (N.size n))))%N.
Proof.
  rewrite Nat2N.inj_succ, N2Nat.id, N.pow_succ_r'.
  pose proof (N.size_gt n) as Hg.
  assert (Hle : (2 ^ N.size n <= 16 ^ N.size n)%N) by (apply N.pow_le_mono_l; lia).
  lia.
Qed.

Lemma skipn_repeat_app {A} (a : A) (m n : nat) (l : list A) :
  n <= m -> skipn n (repeat a m ++ l) = repeat a (m - n) ++ l.
Proof.
  revert m; induction n as [|n IH]; intros m Hn; [now rewrite Nat.sub_0_r|].
  destruct m as [|m]; [lia|]; simpl; apply IH; lia.
Qed.

Lemma substr_neg_app_r (l1 l2 : list ascii) (k : nat) :
  k <= List.length l2 -> Stringify.substr_neg (l1 ++ l2) k = Stringify.substr_neg l2 k.
Proof.
  intros Hk; unfold Stringify.substr_neg; rewrite length_app, skipn_app.
  rewrite skipn_all2 by lia; simpl; f_equal; lia.
Qed.

Lemma hex_digits_count (p : positive) :
  exists L, List.length (Stringify.toString_radix 16 (Zpos p)) = S L /\
    (16 ^ Z.of_nat L <= Zpos p < 16 ^ Z.of_nat (S L))%Z.
Proof.
  destruct (rd_length_bounds 16 (Npos p) ltac:(lia) ltac:(lia)) as (L & HL & Hlo & Hhi).
  exists L; split; [exact HL|].
  apply N2Z.inj_le in Hlo; apply N2Z.inj_lt in Hhi.
  rewrite N2Z.inj_pow, nat_N_Z in Hlo, Hhi; exact (conj Hlo Hhi).
Qed.

(** Claim C8 (as stated, refuted): [-1] is written with its minus sign,
    "0x000000-1", not wrapped to "0xffffffff"; and [-268435456] loses its
    sign altogether: it is written "0x10000000", the text of [268435456],
    while its unsigned 32-bit cast is "0xf0000000". *)
Lemma hex_negative_keeps_sign :
  (Stringify.stringifyScalar (-1) Hexadecimal = "0x000000-1"%string /\
   Stringify.uint32_hex8 (-1) = "0xffffffff"%string) /\
  (Stringify.stringifyScalar (-268435456) Hexadecimal = "0x10000000"%string /\
   Stringify.uint32_hex8 (-268435456) = "0xf0000000"%string).
Proof. split; split; vm_compute; reflexivity. Qed.

(** Claim C8 (amended): Hexadecimal stringification of an integer [x] is
    "0x" followed by the last 8 characters of "00000000" joined with the
    base-16 text of [x]. For [x >= 0] this is [x] modulo 2^32 (the unsigned
    32-bit cast) zero-padded to exactly 8 hex digits. For [x < 0] with
    [-x < 16^7] the minus sign stays in the text, after 7 minus (number of
    digits of [-x]) zeros. For [x < 0] with [-x >= 16^7] the sign is cut
    off and the text is that of [-x], the last 8 hex digits of [-x].
    Here [x] is a finite double: the double nearest to [x] is [x] itself
    and [|x| < 2^1024]. *)
Theorem stringify_hex_spec (x : Z) :
  Stringify.round_double x = x -> (Z.abs x < 2 ^ 1024)%Z ->
  ((0 <= x)%Z -> Stringify.stringifyScalar x Hexadecimal = Stringify.uint32_hex8 x) /\
  ((x < 0)%Z -> (- x < 16 ^ 7)%Z ->
   Stringify.stringifyScalar x Hexadecimal
   = string_of_list_ascii
       (list_ascii_of_string "0x"
        ++ repeat "0"%char (7 - List.length (Stringify.toString_radix 16 (- x)))
        ++ "-"%char :: Stringify.toString_radix 16 (- x))) /\
  ((x < 0)%Z -> (16 ^ 7 <= - x)%Z ->
   Stringify.stringifyScalar x Hexadecimal = Stringify.uint32_hex8 (- x)).
Proof.
  intros Hd Hf.
  assert (Hnn : forall x, (0 <= x)%Z -> Stringify.round_double x = x ->
            (Z.abs x < 2 ^ 1024)%Z ->
            Stringify.stringifyScalar x Hexadecimal = Stringify.uint32_hex8 x).
  { intros y Hy Hyd Hyf; rewrite (stringify_hex_double y Hyd Hyf).
    unfold Stringify.uint32_hex8.
    f_equal; f_equal.
    assert (Ht : Stringify.toString_radix 16 y = Stringify.radix_digits 16 (Z.to_N y))
      by (destruct y; [reflexivity | reflexivity | lia]).
    rewrite Ht.
    change (list_ascii_of_string "00000000") with (repeat "0"%char 8).
    unfold Stringify.radix_digits.
    rewrite padded_digits by apply radix_digits_fuel_enough.
    rewrite fixed_hex_mod, Z2N.inj_mod by lia.
    reflexivity. }
  split; [intros Hx; exact (Hnn x Hx Hd Hf)|].
  destruct x as [|p|p]; [split; intros; lia | split; intros; lia|].
  rewrite (stringify_hex_double (Zneg p) Hd Hf).
  change (- Zneg p)%Z with (Zpos p).
  destruct (hex_digits_count p) as (L & HL & Hlo & Hhi).
  change (Stringify.toString_radix 16 (Zneg p))
    with ("-"%char :: Stringify.toString_radix 16 (Zpos p)).
  split; intros _ Hb.
  - f_equal; f_equal.
    assert (HL7 : S L <= 7).
    { destruct (Nat.le_gt_cases (S L) 7) as [|Hgt]; [assumption|].
      assert (Hp : (16 ^ 7 <= 16 ^ Z.of_nat L)%Z) by (apply Z.pow_le_mono_r; lia).
      lia. }
    change (list_ascii_of_string "00000000") with (repeat "0"%char 8).
    unfold Stringify.substr_neg; rewrite length_app, repeat_length; cbn [List.length].
    rewrite HL, skipn_repeat_app by lia.
    f_equal; lia.
  - assert (Hpd : Stringify.round_double (Zpos p) = Zpos p).
    { unfold Stringify.round_double in Hd |- *.
      rewrite (proj2 (Z.ltb_lt (Zneg p) 0) ltac:(lia)) in Hd.
      rewrite (proj2 (Z.ltb_ge (Zpos p) 0) ltac:(lia)).
      change (- Zneg p)%Z with (Zpos p) in Hd; lia. }
    assert (Hpf : (Z.abs (Zpos p) < 2 ^ 1024)%Z) by (simpl in Hf |- *; exact Hf).
    rewrite <- (Hnn (Zpos p) ltac:(lia) Hpd Hpf).
    rewrite (stringify_hex_double (Zpos p) Hpd Hpf).
    assert (HL8 : 8 <= S L).
    { destruct (Nat.le_gt_cases 8 (S L)) as [|Hlt]; [assumption|].
      assert (Hp : (16 ^ Z.of_nat (S L) <= 16 ^ 7)%Z) by (apply Z.pow_le_mono_r; lia).
      lia. }
    f_equal; f_equal.
    rewrite (substr_neg_app_r _ ("-"%char :: _)) by (cbn [List.length]; lia).
    rewrite (substr_neg_app_r _ (Stringify.toString_radix 16 (Zpos p))) by lia.
    apply substr_neg_cons; lia.
Qed.

(** Witness of C8: 42, -1 and -268435456 are doubles; 42 is written
    "0x0000002a", -1 is written "0x000000-1" and -268435456 is written as
    268435456. *)
Lemma stringify_hex_spec_witness :
  (Stringify.round_double 42 = 42 /\ Stringify.round_double (-1) = -1 /\
   Stringify.round_double (-268435456) = -268435456)%Z /\
  Stringify.stringifyScalar 42 Hexadecimal = Stringify.uint32_hex8 42 /\
  Stringify.stringifyScalar (-1) Hexadecimal = "0x000000-1"%string /\
  Stringify.stringifyScalar (-268435456) Hexadecimal = Stringify.uint32_hex8 268435456.
Proof.
  assert (D1 : Stringify.round_double 42 = 42%Z) by (vm_compute; reflexivity).
  assert (D2 : Stringify.round_double (-1) = (-1)%Z) by (vm_compute; reflexivity).
  assert (D3 : Stringify.round_double (-268435456) = (-268435456)%Z)
    by (vm_compute; reflexivity).
  destruct (stringify_hex_spec 42 D1 ltac:(lia)) as [H1 _].
  destruct (stringify_hex_spec (-1) D2 ltac:(lia)) as [_ [H2 _]].
  destruct (stringify_hex_spec (-268435456) D3 ltac:(lia)) as [_ [_ H3]].
  split; [exact (conj D1 (conj D2 D3))|].
  split; [apply H1; lia|].
  split; [rewrite H2 by lia; vm_compute; reflexivity|].
  apply H3; lia.
Defined.

(** ** C6: angle *)

Lemma dimensions_shape {N : Type} (v w : Value N) :
  vlength v = vlength w -> rows v = rows w -> dimensions v = dimensions w.
Proof. intros Hl Hr; unfold dimensions; now rewrite Hl, Hr. Qed.

Lemma normalize_shape {N : Type} `{JsArith N} (x : Value N) :
  dimensions x = 1%Z ->
  vlength (normalize x) = vlength x /\ rows (normalize x) = rows x.
Proof.
  intros Hd; unfold normalize; rewrite Hd; simpl.
  unfold vlength; simpl; now rewrite length_map.
Qed.

Lemma cross_dimensions {N : Type} `{JsArith N} (a b : Value N) :
  dimensions (cross a b) = 1%Z.
Proof.
  unfold cross.
  destruct (negb (Z.eqb (dimensions a) 1) || negb (Z.eqb (dimensions b) 1)
            || (vlength a <? 3) || (vlength b <? 3)); reflexivity.
Qed.

Lemma magnitude_scalar {N : Type} `{JsArith N} (v : Value N) :
  dimensions v = 1%Z -> magnitude v = scalar (js_at (magnitude v) 0).
Proof. intros Hd; unfold magnitude; rewrite Hd; reflexivity. Qed.

Lemma dot_scalar {N : Type} `{JsArith N} (a b : Value N) :
  vlength a = vlength b -> dimensions a = 1%Z -> dimensions b = 1%Z ->
  dot a b = scalar (js_at (dot a b) 0).
Proof.
  intros Hl Ha Hb; unfold dot; rewrite Hl, Ha, Hb, Nat.eqb_refl; reflexivity.
Qed.

Lemma angle_guard {N : Type} `{JsArith N} (a b : Value N) :
  negb (Z.eqb (dimensions a) 1) || negb (Z.eqb (dimensions b) 1)
  || negb (vlength a =? vlength b) || (vlength a <? 2) || (3 <? vlength a)
  || jeqb (js_at (magnitude a) 0) jzero || jeqb (js_at (magnitude b) 0) jzero
  = negb (angle_ok a b).
Proof.
  unfold angle_ok; rewrite !Nat.ltb_antisym.
  destruct (Z.eqb (dimensions a) 1), (Z.eqb (dimensions b) 1),
    (vlength a =? vlength b), (2 <=? vlength a), (vlength a <=? 3),
    (jeqb (js_at (magnitude a) 0) jzero), (jeqb (js_at (magnitude b) 0) jzero);
    reflexivity.
Qed.

(** The value [angle] computes once its guard passes. *)
Lemma angle_value {N : Type} `{JsArith N} `{JsMath N} (a b : Value N) :
  angle_ok a b = true ->
  angle a b =
  scalar (if jltb half_sqrt2 (angle_cos a b)
          then jabs (jneg (jasin (angle_sin a b)))
          else jacos (angle_cos a b)).
Proof.
  intros Hok.
  assert (Hok' := Hok); unfold angle_ok in Hok'.
  rewrite !andb_true_iff, !negb_true_iff, !Z.eqb_eq, Nat.eqb_eq in Hok'.
  destruct Hok' as [[[[[[Ha Hb] Hl] _] _] _] _].
  destruct (normalize_shape a Ha) as [HlA HrA].
  destruct (normalize_shape b Hb) as [HlB HrB].
  assert (HdA : dimensions (normalize a) = 1%Z)
    by (rewrite (dimensions_shape _ a HlA HrA); exact Ha).
  assert (HdB : dimensions (normalize b) = 1%Z)
    by (rewrite (dimensions_shape _ b HlB HrB); exact Hb).
  assert (Hcos : dot (normalize a) (normalize b)
                 = scalar (angle_cos a b))
    by (apply dot_scalar; [rewrite HlA, HlB; exact Hl | exact HdA | exact HdB]).
  unfold angle; rewrite angle_guard, Hok; simpl negb; cbv iota.
  rewrite Hcos; unfold angle_sin.
  change (js_at (scalar (angle_cos a b)) 0) with (angle_cos a b).
  destruct (jltb half_sqrt2 (angle_cos a b)); [|reflexivity].
  destruct (vlength a =? 2); [reflexivity|].
  rewrite (magnitude_scalar _ (cross_dimensions _ _)); reflexivity.
Qed.

(** Unit vectors of the plane, in exact arithmetic. *)
Lemma magnitude_unit_R (x y : R) :
  (x * x + y * y = 1)%R -> magnitude (vec [x; y]) = scalar 1%R.
Proof.
  intros Hu; unfold magnitude, js_at; simpl.
  f_equal; rewrite <- sqrt_1; f_equal; lra.
Qed.

Lemma normalize_unit_R (x y : R) :
  (x * x + y * y = 1)%R -> normalize (vec [x; y]) = vec [x; y].
Proof.
  intros Hu; unfold normalize; rewrite (magnitude_unit_R x y Hu); simpl.
  unfold unary, js_at; simpl; unfold Rdiv; rewrite Rinv_1, !Rmult_1_r; reflexivity.
Qed.

Lemma angle_ok_unit_R (x1 y1 x2 y2 : R) :
  (x1 * x1 + y1 * y1 = 1)%R -> (x2 * x2 + y2 * y2 = 1)%R ->
  angle_ok (vec [x1; y1]) (vec [x2; y2]) = true.
Proof.
  intros H1 H2; unfold angle_ok.
  rewrite (magnitude_unit_R x1 y1 H1), (magnitude_unit_R x2 y2 H2).
  unfold js_at; simpl.
  destruct (Req_dec_T 1 0); [lra | reflexivity].
Qed.

Lemma angle_cos_unit_R (x1 y1 x2 y2 : R) :
  (x1 * x1 + y1 * y1 = 1)%R -> (x2 * x2 + y2 * y2 = 1)%R ->
  angle_cos (vec [x1; y1]) (vec [x2; y2]) = (x1 * x2 + y1 * y2)%R.
Proof.
  intros H1 H2; unfold angle_cos.
  rewrite (normalize_unit_R x1 y1 H1), (normalize_unit_R x2 y2 H2).
  cbn; ring.
Qed.

Lemma angle_sin_unit_R (x1 y1 x2 y2 : R) :
  (x1 * x1 + y1 * y1 = 1)%R -> (x2 * x2 + y2 * y2 = 1)%R ->
  angle_sin (vec [x1; y1]) (vec [x2; y2]) = (x1 * y2 - y1 * x2)%R.
Proof.
  intros H1 H2; unfold angle_sin.
  rewrite (normalize_unit_R x1 y1 H1), (normalize_unit_R x2 y2 H2).
  cbn; ring.
Qed.

Lemma half_sqrt2_R : (0 < sqrt 2 / 2 < 1)%R.
Proof.
  pose proof (sqrt_lt_R0 2 ltac:(lra)).
  pose proof (sqrt_less 2 ltac:(lra) ltac:(lra)).
  split; lra.
Qed.

(** Claim C6 (as stated, refuted): for opposite unit vectors the code
    compares the signed cosine -1 with sqrt(2)/2 and returns
    [acos(-1) = PI]; the claim's test on |cos| = 1 would take the arcsine
    branch and return [|asin 0| = 0].  And on doubles the result need not
    be a non-negative number: [(Infinity, 1)] and [(1, 0)] pass the guard
    (the magnitude [Infinity] is not 0), [normalize] gives [(NaN, 0)], the
    cosine is [NaN], and the result is [Math.acos(NaN)], which is [NaN]
    whatever [Math] does with other arguments. *)
Lemma angle_opposite_vectors :
  (angle (vec [1; 0]%R) (vec [-1; 0]%R) = scalar PI /\
   angle_claimed (vec [1; 0]%R) (vec [-1; 0]%R) = scalar 0%R) /\
  (angle_ok (vec [PrimFloat.infinity; 1%float]) (vec [1; 0]%float) = true /\
   forall M : JsMath float,
   @angle float _ M (vec [PrimFloat.infinity; 1%float]) (vec [1; 0]%float)
   = scalar (@jacos float M PrimFloat.nan)).
Proof.
  split; [|split; [vm_compute; reflexivity | intros M; vm_compute; reflexivity]].
  assert (U1 : (1 * 1 + 0 * 0 = 1)%R) by ring.
  assert (U2 : (-1 * -1 + 0 * 0 = 1)%R) by ring.
  assert (Hok := angle_ok_unit_R 1 0 (-1) 0 U1 U2).
  assert (Hc : angle_cos (vec [1; 0]%R) (vec [-1; 0]%R) = (-1)%R)
    by (rewrite (angle_cos_unit_R 1 0 (-1) 0 U1 U2); ring).
  assert (Hs : angle_sin (vec [1; 0]%R) (vec [-1; 0]%R) = 0%R)
    by (rewrite (angle_sin_unit_R 1 0 (-1) 0 U1 U2); ring).
  pose proof half_sqrt2_R as Hh.
  split.
  - rewrite (angle_value _ _ Hok), Hc; simpl.
    destruct (Rlt_dec (sqrt 2 / 2) (-1)); [lra|].
    unfold Ratan.acos; destruct (Rle_dec (-1) (-1)); [reflexivity | lra].
  - unfold angle_claimed; rewrite Hok, Hc, Hs; simpl.
    rewrite (Rabs_left (-1)) by lra.
    destruct (Rlt_dec (sqrt 2 / 2) (- -1)); [|lra].
    rewrite Ratan.asin_0, Ropp_0, Rabs_R0; reflexivity.
Qed.

(** Claim C6 (amended): [angle a b] is the sentinel exactly when the
    operands are not two nonzero vectors of equal length 2 or 3; otherwise
    it is the scalar [|asin(sin)|] (sin the 2D pseudo-cross or the
    magnitude of the 3D cross) when the signed cosine exceeds sqrt(2)/2,
    and [acos(cos)] otherwise.  So it is non-negative in any number model
    where [Math.abs] and [Math.acos] return non-negative numbers, as over
    the reals; on doubles [Math.acos(NaN)] is [NaN], and that result is
    reached. *)
Theorem angle_spec {N : Type} `{JsArith N} `{JsMath N} (a b : Value N) :
  (angle a b = invalid <-> angle_ok a b = false) /\
  (angle_ok a b = true ->
   angle a b =
   scalar (if jltb half_sqrt2 (angle_cos a b)
           then jabs (jneg (jasin (angle_sin a b)))
           else jacos (angle_cos a b))) /\
  (forall P : N -> Prop, (forall z, P (jabs z)) -> (forall z, P (jacos z)) ->
   angle_ok a b = true -> P (js_at (angle a b) 0)).
Proof.
  split; [|split].
  - destruct (angle_ok a b) eqn:Hok.
    + rewrite (angle_value a b Hok); split; discriminate.
    + unfold angle; rewrite angle_guard, Hok; tauto.
  - apply angle_value.
  - intros P Habs Hacos Hok; rewrite (angle_value a b Hok); simpl.
    destruct (jltb half_sqrt2 (angle_cos a b)); [apply Habs | apply Hacos].
Qed.

(** Witness of C6: the angle between (1, 0) and (0, 1) is non-negative. *)
Lemma angle_spec_witness :
  (0 <= js_at (angle (vec [1; 0]%R) (vec [0; 1]%R)) 0)%R.
Proof.
  destruct (angle_spec (vec [1; 0]%R) (vec [0; 1]%R)) as [_ [_ H3]].
  apply (H3 (fun z => 0 <= z)%R).
  - exact Rabs_pos.
  - intros z; apply Ratan.acos_bound.
  - apply angle_ok_unit_R; ring.
Defined.

(** ** C9: errors reset the session *)

(** Claim C9: when the submitted operand parses and the pending operator
    completes with a result, an invalid result is reported as "error" and
    the session is cleared (operand the sentinel, no operator, no captured
    source text, Decimal mode; only the stack and the remembered source
    range, which [clear] does not touch, are kept), while a valid result
    becomes the current selection with the session otherwise unchanged up
    to its display mode.  An operand that does not parse is reported and
    cleared the same way. *)
Theorem setOperandStr_error_reset {N : Type} `{JsArith N} `{JsMath N}
  (parseInt parseFloat : list ascii -> N) (st : Engine.Session N) (s : string) :
  (Engine.parsed_operand parseInt parseFloat s = None ->
   Engine.setOperandStr parseInt parseFloat st s
   = Engine.Reported "error"
       (Engine.mkSession invalid "" Decimal (Engine.stack st) (Engine.sourceRange st) "")) /\
  (forall o r,
   Engine.parsed_operand parseInt parseFloat s = Some o ->
   Engine.apply_operator (Engine.operator st) (Engine.operand st) o = Ok r ->
   (valid r = false ->
    exists st', Engine.setOperandStr parseInt parseFloat st s = Engine.Reported "error" st' /\
      Engine.operand st' = invalid /\ Engine.operator st' = ""%string /\
      Engine.sourceString st' = ""%string /\ Engine.mode st' = Decimal /\
      Engine.stack st' = Engine.stack st /\ Engine.sourceRange st' = Engine.sourceRange st) /\
   (valid r = true ->
    exists st1, Engine.setOperandStr parseInt parseFloat st s = Engine.Selected st1 r /\
      Engine.operand st1 = Engine.operand st /\ Engine.operator st1 = Engine.operator st /\
      Engine.stack st1 = Engine.stack st /\
      Engine.sourceString st1 = Engine.sourceString st)).
Proof.
  split.
  - intros Hp; unfold Engine.setOperandStr; rewrite Hp; reflexivity.
  - intros o r Hp Ha; unfold Engine.setOperandStr; rewrite Hp; simpl.
    rewrite Ha; split; intros Hv; rewrite Hv; simpl.
    + eexists; split; [reflexivity|]; repeat split.
    + eexists; split; [reflexivity|]; repeat split.
Qed.

(** Witness of C9: with [(1, 2) add] pending, submitting the 3-vector
    "(1, 2, 3)" gives mismatched lengths; the error clears the session. *)
Lemma setOperandStr_error_reset_witness :
  exists st',
    Engine.setOperandStr real_parse_integer real_parse_integer
      (Engine.mkSession (vec [1; 2]%R) "add" Decimal [] (Engine.mkRange 0 0 0 0) "(1, 2)")
      "(1, 2, 3)" = Engine.Reported "error" st' /\
    Engine.operand st' = invalid /\ Engine.operator st' = ""%string /\
    Engine.sourceString st' = ""%string /\ Engine.mode st' = Decimal /\
    Engine.stack st' = [] /\ Engine.sourceRange st' = Engine.mkRange 0 0 0 0.
Proof.
  destruct (setOperandStr_error_reset real_parse_integer real_parse_integer
              (Engine.mkSession (vec [1; 2]%R) "add" Decimal [] (Engine.mkRange 0 0 0 0) "(1, 2)")
              "(1, 2, 3)") as [_ H2].
  destruct (H2 (mkValue [real_parse_integer ["1"%char]; real_parse_integer ["2"%char];
                         real_parse_integer ["3"%char]] 3) invalid)
    as [Hbad _]; [reflexivity | reflexivity |].
  apply Hbad; reflexivity.
Defined.

(** ** C4: numeric literal forms *)

(** Claim C4 (code diverges from the documented parser): the pattern
    [/^((0x[0-9A-Fa-f]+)|(-?\d+\.?\d*(e[+-]?\d+)?f?))([^a-zA-Z0-9]|$)/]
    takes hex and lowercase [e]/[f] literals whole, but a number cannot
    start with [.] and the exponent and suffix letters are lowercase only:
    in ".5" only the "5" becomes a Scalar, "1E5" gives no Scalar at all,
    and in "1.5F" the Scalar spans only "1". *)
Theorem parse_literal_forms :
  Parser.parse "0x1F" = Parser.mkNode Parser.Scalar 0 4 "" [] /\
  Parser.parse "1.5e-3f" = Parser.mkNode Parser.Scalar 0 7 "" [] /\
  Parser.parse ".5" = Parser.mkNode Parser.Scalar 1 2 "" [] /\
  Parser.parse "1E5" = Parser.mkNode Parser.List 0 (-1) "" [] /\
  Parser.parse "1.5F" = Parser.mkNode Parser.Scalar 0 1 "" [].
Proof. repeat split; vm_compute; reflexivity. Qed.

(** ** C5: unclosed delimiters *)

(** Claim C5 (code diverges from the documented parser): at the end of the
    input [parse] returns the node on top of its stack as it is, without
    closing it: for "(1, 2" it is the open List node (end -1, never
    classified as a Vector) holding the two scalars, and for "(1, 2) ("
    it is the empty open node, while the closed vector (1, 2) is lost. *)
Theorem parse_unclosed :
  Parser.parse "(1, 2" =
    Parser.mkNode Parser.List 0 (-1) ")"
      [Parser.mkNode Parser.Scalar 1 2 "" []; Parser.mkNode Parser.Scalar 4 5 "" []] /\
  Parser.parse "(1, 2) (" = Parser.mkNode Parser.List 7 (-1) ")" [] /\
  Parser.parse "(1, 2)" =
    Parser.mkNode Parser.Vector 0 6 ")"
      [Parser.mkNode Parser.Scalar 1 2 "" []; Parser.mkNode Parser.Scalar 4 5 "" []].
Proof. repeat split; vm_compute; reflexivity. Qed.

(** ** C7: plane *)

(** Claim C7 (code bug): [xyz] tests [a.dimensions] although its parameter
    is [v], so it throws a [ReferenceError] on every call; [plane], and
    [pointPlaneDistance] with it, never return a value. *)
Theorem plane_throws {N : Type} `{JsArith N} `{JsMath N} (direction position : Value N) :
  plane direction position = Throw "ReferenceError: a is not defined" /\
  pointPlaneDistance direction position = Throw "ReferenceError: a is not defined".
Proof. split; reflexivity. Qed.

(** * Further properties of the code *)

(** ** Sums and folds *)

Lemma fold_sum_ext {N : Type} `{JsArith N} (f g : nat -> N) (l : list nat) (acc : N) :
  (forall i, In i l -> f i = g i) ->
  fold_left (fun s k => jadd s (f k)) l acc = fold_left (fun s k => jadd s (g k)) l acc.
Proof.
  revert acc; induction l as [|x l IH]; intros acc Hfg; simpl; [reflexivity|].
  rewrite (Hfg x (or_introl eq_refl)); apply IH.
  intros i Hi; apply Hfg; now right.
Qed.

Lemma sum_over_ext {N : Type} `{JsArith N} (n : nat) (f g : nat -> N) :
  (forall i, i < n -> f i = g i) -> sum_over n f = sum_over n g.
Proof.
  intros Hfg; unfold sum_over; apply fold_sum_ext.
  intros i Hi; apply in_seq in Hi; apply Hfg; lia.
Qed.

Lemma sum_over_S {N : Type} `{JsArith N} (n : nat) (f : nat -> N) :
  sum_over (S n) f = jadd (sum_over n f) (f n).
Proof. unfold sum_over; now rewrite seq_S, fold_left_app. Qed.

(** [dot] of two vectors of one length is the scalar sum of products. *)
Lemma dot_sum {N : Type} `{JsArith N} (a b : Value N) :
  vlength a = vlength b -> dimensions a = 1%Z -> dimensions b = 1%Z ->
  dot a b = scalar (sum_over (vlength a) (fun i => jmul (js_at a i) (js_at b i))).
Proof.
  intros Hl Ha Hb; unfold dot; rewrite Hl, Ha, Hb, Nat.eqb_refl, Nat.max_id.
  reflexivity.
Qed.

Lemma dot_guard_sym {N : Type} `{JsArith N} (a b : Value N) :
  negb (vlength a =? vlength b) || negb (Z.eqb (dimensions a) 1)
  || negb (Z.eqb (dimensions b) 1)
  = negb (vlength b =? vlength a) || negb (Z.eqb (dimensions b) 1)
    || negb (Z.eqb (dimensions a) 1).
Proof.
  rewrite Nat.eqb_sym.
  destruct (vlength b =? vlength a), (Z.eqb (dimensions a) 1),
    (Z.eqb (dimensions b) 1); reflexivity.
Qed.

Lemma dot_comm {N : Type} `{JsArith N} (a b : Value N) :
  (forall x y, jmul x y = jmul y x) -> dot a b = dot b a.
Proof.
  intros Hc.
  destruct (negb (vlength a =? vlength b) || negb (Z.eqb (dimensions a) 1)
            || negb (Z.eqb (dimensions b) 1)) eqn:G.
  - unfold dot; rewrite G, <- dot_guard_sym, G; reflexivity.
  - rewrite !orb_false_iff, !negb_false_iff, Nat.eqb_eq, !Z.eqb_eq in G.
    destruct G as [[Hl Ha] Hb].
    rewrite (dot_sum a b Hl Ha Hb), (dot_sum b a (eq_sym Hl) Hb Ha), Hl.
    f_equal; apply sum_over_ext; intros i _; apply Hc.
Qed.

(** ** Elementwise operators and the multiply dispatch *)

(** Extra: [addPairs] and [mulPairs] are commutative whenever the number
    addition and multiplication are: the guard and the broadcasting by
    [i % length] treat both operands alike. *)
Theorem pairs_commute {N : Type} `{JsArith N} (a b : Value N) :
  (forall x y, jadd x y = jadd y x) -> (forall x y, jmul x y = jmul y x) ->
  addPairs a b = addPairs b a /\ mulPairs a b = mulPairs b a.
Proof.
  intros Hadd Hmul.
  assert (Hc : opPairs_compatible a b = opPairs_compatible b a).
  { unfold opPairs_compatible; rewrite (Nat.eqb_sym (vlength a)), (Nat.eqb_sym (rows a)).
    destruct (vlength b =? vlength a), (rows b =? rows a),
      (Z.eqb (dimensions a) 0), (Z.eqb (dimensions b) 0); reflexivity. }
  assert (Hop : forall op : N -> N -> N, (forall x y, op x y = op y x) ->
                opPairs a b op = opPairs b a op).
  { intros op Hop.
    destruct (opPairs_compatible a b) eqn:E.
    - rewrite (opPairs_elems a b op E), (opPairs_elems b a op (eq_sym Hc)).
      rewrite (Nat.max_comm (vlength a)), (Nat.max_comm (rows a)).
      f_equal; apply map_ext; intros; apply Hop.
    - unfold opPairs; rewrite !opPairs_guard, E, <- Hc; reflexivity. }
  split; [apply Hop, Hadd | apply Hop, Hmul].
Qed.

Lemma pairs_commute_witness :
  addPairs (vec [1; 2]%R) (mkValue [3; 4; 5; 6]%R 2)
  = addPairs (mkValue [3; 4; 5; 6]%R 2) (vec [1; 2]%R) /\
  mulPairs (vec [1; 2]%R) (mkValue [3; 4; 5; 6]%R 2)
  = mulPairs (mkValue [3; 4; 5; 6]%R 2) (vec [1; 2]%R).
Proof. apply pairs_commute; [exact Rplus_comm | exact Rmult_comm]. Defined.

(** Extra: in ["multiply"], a matrix meets a vector (or any operand that is
    neither a scalar nor a matrix) in the same product [M v] whichever side
    of the operator it is on. *)
Theorem multiply_matrix_either_side {N : Type} `{JsArith N} `{JsMath N} (m v : Value N) :
  dimensions m = 2%Z -> dimensions v <> 0%Z -> dimensions v <> 2%Z ->
  Engine.apply_operator "multiply" m v = matrixMultiply m v /\
  Engine.apply_operator "multiply" v m = matrixMultiply m v.
Proof.
  intros Hm Hv0 Hv2; apply Z.eqb_neq in Hv0, Hv2.
  unfold Engine.apply_operator; cbn [String.eqb Ascii.eqb Bool.eqb].
  rewrite Hm, Hv0, Hv2; split; reflexivity.
Qed.

Lemma multiply_matrix_either_side_witness :
  dimensions (mkValue [1; 2; 3; 4]%R 2) = 2%Z /\
  dimensions (vec [5; 6]%R) <> 0%Z /\ dimensions (vec [5; 6]%R) <> 2%Z /\
  Engine.apply_operator "multiply" (mkValue [1; 2; 3; 4]%R 2) (vec [5; 6]%R)
  = matrixMultiply (mkValue [1; 2; 3; 4]%R 2) (vec [5; 6]%R) /\
  Engine.apply_operator "multiply" (vec [5; 6]%R) (mkValue [1; 2; 3; 4]%R 2)
  = matrixMultiply (mkValue [1; 2; 3; 4]%R 2) (vec [5; 6]%R).
Proof.
  assert (Hm : dimensions (mkValue [1; 2; 3; 4]%R 2) = 2%Z) by reflexivity.
  assert (H0 : dimensions (vec [5; 6]%R) <> 0%Z) by (intro Hc; vm_compute in Hc; discriminate).
  assert (H2 : dimensions (vec [5; 6]%R) <> 2%Z) by (intro Hc; vm_compute in Hc; discriminate).
  destruct (multiply_matrix_either_side _ _ Hm H0 H2) as [E1 E2].
  exact (conj Hm (conj H0 (conj H2 (conj E1 E2)))).
Defined.

(** Extra: in ["multiply"], a scalar operand on either side scales every
    element of the other (non-empty) operand, matrices included, and
    keeps its shape. *)
Theorem multiply_by_scalar {N : Type} `{JsArith N} `{JsMath N} (x : Value N) (k : N) :
  0 < vlength x -> 0 < rows x ->
  Engine.apply_operator "multiply" x (scalar k) = Ok (unary x (fun e => jmul e k)) /\
  Engine.apply_operator "multiply" (scalar k) x = Ok (unary x (fun e => jmul k e)).
Proof.
  intros Hl Hr.
  assert (Hs : dimensions (scalar k) = 0%Z) by reflexivity.
  assert (Hxs : opPairs_compatible x (scalar k) = true)
    by (unfold opPairs_compatible; rewrite Hs, orb_true_r; reflexivity).
  assert (Hsx : opPairs_compatible (scalar k) x = true)
    by (unfold opPairs_compatible; rewrite Hs; simpl; now rewrite orb_true_r).
  unfold Engine.apply_operator; cbn [String.eqb Ascii.eqb Bool.eqb].
  rewrite Hs; cbn [Z.eqb negb]; rewrite !andb_false_r; cbn [andb].
  unfold mulPairs; rewrite (opPairs_elems _ _ _ Hxs), (opPairs_elems _ _ _ Hsx).
  change (vlength (scalar k)) with 1; change (rows (scalar k)) with 1.
  rewrite (Nat.max_l (vlength x) 1), (Nat.max_r 1 (vlength x)),
    (Nat.max_l (rows x) 1), (Nat.max_r 1 (rows x)) by lia.
  unfold unary, vlength, js_at; split; f_equal; f_equal;
    rewrite <- (map_nth_seq _ (elems x) jnan); apply map_ext_in; intros i Hi;
    apply in_seq in Hi; rewrite Nat.mod_1_r, Nat.mod_small by (unfold vlength in *; lia);
    reflexivity.
Qed.

Lemma multiply_by_scalar_witness :
  0 < vlength (mkValue [1; 2; 3; 4]%R 2) /\ 0 < rows (mkValue [1; 2; 3; 4]%R 2) /\
  Engine.apply_operator "multiply" (mkValue [1; 2; 3; 4]%R 2) (scalar 2%R)
  = Ok (unary (mkValue [1; 2; 3; 4]%R 2) (fun e => jmul e 2%R)) /\
  Engine.apply_operator "multiply" (scalar 2%R) (mkValue [1; 2; 3; 4]%R 2)
  = Ok (unary (mkValue [1; 2; 3; 4]%R 2) (fun e => jmul 2%R e)).
Proof.
  assert (Hl : 0 < vlength (mkValue [1; 2; 3; 4]%R 2)) by (cbn; lia).
  assert (Hr : 0 < rows (mkValue [1; 2; 3; 4]%R 2)) by (cbn; lia).
  destruct (multiply_by_scalar _ 2%R Hl Hr) as [E1 E2].
  exact (conj Hl (conj Hr (conj E1 E2))).
Defined.

(** ** dot and cross *)

(** Extra: [dot a b] is the scalar sum of the products [a[i] * b[i]] when
    both operands have dimension 1 and one length, and [invalid]
    otherwise; it does not depend on the order of the operands when the
    number multiplication commutes. *)
Theorem dot_value_symmetric {N : Type} `{JsArith N} (a b : Value N) :
  (forall x y, jmul x y = jmul y x) ->
  dot a b = (if (vlength a =? vlength b) && Z.eqb (dimensions a) 1
                && Z.eqb (dimensions b) 1
             then scalar (sum_over (vlength a) (fun i => jmul (js_at a i) (js_at b i)))
             else invalid)
  /\ dot a b = dot b a.
Proof.
  intros Hc; split; [|now apply dot_comm].
  destruct (vlength a =? vlength b) eqn:El, (Z.eqb (dimensions a) 1) eqn:Ea,
    (Z.eqb (dimensions b) 1) eqn:Eb; cbn [andb];
    try (unfold dot; rewrite El, Ea, Eb; reflexivity).
  apply Nat.eqb_eq in El; apply Z.eqb_eq in Ea, Eb; now apply dot_sum.
Qed.

Lemma dot_value_symmetric_witness :
  dot (vec [1; 2; 3]%R) (vec [4; 5; 6]%R)
  = (if (vlength (vec [1; 2; 3]%R) =? vlength (vec [4; 5; 6]%R))
        && Z.eqb (dimensions (vec [1; 2; 3]%R)) 1 && Z.eqb (dimensions (vec [4; 5; 6]%R)) 1
     then scalar (sum_over 3 (fun i => jmul (js_at (vec [1; 2; 3]%R) i)
                                           (js_at (vec [4; 5; 6]%R) i)))
     else invalid)
  /\ dot (vec [1; 2; 3]%R) (vec [4; 5; 6]%R) = dot (vec [4; 5; 6]%R) (vec [1; 2; 3]%R).
Proof. apply dot_value_symmetric; exact Rmult_comm. Defined.

Lemma vec3_shape {N : Type} (v : Value N) :
  dimensions v = 1%Z -> 3 <= vlength v ->
  exists x0 x1 x2 rest, elems v = x0 :: x1 :: x2 :: rest.
Proof.
  intros _ Hl; unfold vlength in Hl.
  destruct (elems v) as [|x0 [|x1 [|x2 rest]]]; simpl in Hl; try lia.
  now exists x0, x1, x2, rest.
Qed.

(** Extra: [cross a b] is defined for two vectors of length at least 3
    and is [invalid] otherwise; it reads only the first three components
    of each, so longer vectors are cut down to three. *)
Theorem cross_first_three {N : Type} `{JsArith N} (a b : Value N) :
  cross a b =
  if Z.eqb (dimensions a) 1 && Z.eqb (dimensions b) 1
     && (3 <=? vlength a) && (3 <=? vlength b)
  then cross (vec (firstn 3 (elems a))) (vec (firstn 3 (elems b)))
  else invalid.
Proof.
  unfold cross at 1; rewrite !Nat.ltb_antisym.
  destruct (Z.eqb (dimensions a) 1) eqn:Ea, (Z.eqb (dimensions b) 1) eqn:Eb,
    (3 <=? vlength a) eqn:La, (3 <=? vlength b) eqn:Lb; try reflexivity.
  apply Z.eqb_eq in Ea, Eb; apply Nat.leb_le in La, Lb.
  destruct (vec3_shape a Ea La) as (a0 & a1 & a2 & ra & Ha).
  destruct (vec3_shape b Eb Lb) as (b0 & b1 & b2 & rb & Hb).
  unfold js_at; rewrite Ha, Hb; reflexivity.
Qed.

Lemma vec3_R (v : Value R) :
  vlength v = 3 -> rows v = 3 -> v = vec [js_at v 0; js_at v 1; js_at v 2].
Proof.
  destruct v as [l r]; unfold vlength, js_at, vec; simpl; intros Hl Hr; subst r.
  destruct l as [|x0 [|x1 [|x2 [|x3 l]]]]; simpl in Hl; try lia; reflexivity.
Qed.

(** Extra: in exact arithmetic, the cross product of two 3-vectors is
    orthogonal to both ([dot] gives the scalar 0) and changes sign when
    the operands are swapped. *)
Theorem cross_orthogonal_R (a b : Value R) :
  vlength a = 3 -> rows a = 3 -> vlength b = 3 -> rows b = 3 ->
  dot a (cross a b) = scalar 0%R /\ dot b (cross a b) = scalar 0%R /\
  cross b a = negate (cross a b).
Proof.
  intros La Ra Lb Rb.
  rewrite (vec3_R a La Ra), (vec3_R b Lb Rb).
  generalize (js_at a 0) (js_at a 1) (js_at a 2) (js_at b 0) (js_at b 1) (js_at b 2).
  intros a0 a1 a2 b0 b1 b2.
  unfold dot, cross, negate, unary, scalar, vec, js_at; simpl.
  repeat split; repeat f_equal; ring.
Qed.

Lemma cross_orthogonal_R_witness :
  dot (vec [1; 2; 3]%R) (cross (vec [1; 2; 3]%R) (vec [4; 5; 6]%R)) = scalar 0%R /\
  dot (vec [4; 5; 6]%R) (cross (vec [1; 2; 3]%R) (vec [4; 5; 6]%R)) = scalar 0%R /\
  cross (vec [4; 5; 6]%R) (vec [1; 2; 3]%R)
  = negate (cross (vec [1; 2; 3]%R) (vec [4; 5; 6]%R)).
Proof. apply cross_orthogonal_R; reflexivity. Defined.

(** ** Sums in exact arithmetic *)

Lemma sum_over_R_0 (f : nat -> R) : sum_over 0 f = 0%R.
Proof. reflexivity. Qed.

Lemma sum_over_R_S (n : nat) (f : nat -> R) :
  sum_over (S n) f = (sum_over n f + f n)%R.
Proof. exact (sum_over_S n f). Qed.

Lemma sum_over_R_lin (n : nat) (f g : nat -> R) (c d : R) :
  sum_over n (fun i => c * f i + d * g i)%R = (c * sum_over n f + d * sum_over n g)%R.
Proof.
  induction n as [|n IH]; [rewrite !sum_over_R_0; ring|].
  rewrite !sum_over_R_S, IH; ring.
Qed.

Lemma sum_over_R_sq_nonneg (n : nat) (f : nat -> R) :
  (0 <= sum_over n (fun i => f i * f i)%R)%R.
Proof.
  induction n as [|n IH]; [rewrite sum_over_R_0; lra|].
  rewrite sum_over_R_S; generalize (Rle_0_sqr (f n)); unfold Rsqr; lra.
Qed.

Lemma sum_over_R_sq_zero (n : nat) (f : nat -> R) :
  sum_over n (fun i => f i * f i)%R = 0%R -> forall i, i < n -> f i = 0%R.
Proof.
  induction n as [|n IH]; intros Hs i Hi; [lia|].
  rewrite sum_over_R_S in Hs.
  generalize (sum_over_R_sq_nonneg n f) (Rle_0_sqr (f n)); unfold Rsqr; intros H1 H2.
  assert (Hn : (f n * f n = 0)%R) by lra.
  assert (Hp : sum_over n (fun i => f i * f i)%R = 0%R) by lra.
  destruct (Nat.eq_dec i n) as [->|Hne].
  - destruct (Rmult_integral _ _ Hn); assumption.
  - apply IH; [exact Hp | lia].
Qed.

(** ** Reading elements of computed values *)

Lemma opPairs_at {N : Type} `{JsArith N} (a b : Value N) op (i : nat) :
  opPairs_compatible a b = true -> i < Nat.max (vlength a) (vlength b) ->
  js_at (opPairs a b op) i = op (js_at a (i mod vlength a)) (js_at b (i mod vlength b)).
Proof.
  intros Hc Hi; rewrite (opPairs_elems a b op Hc); unfold js_at at 1; simpl.
  now rewrite nth_map_seq.
Qed.

Lemma opPairs_length {N : Type} `{JsArith N} (a b : Value N) op :
  opPairs_compatible a b = true ->
  vlength (opPairs a b op) = Nat.max (vlength a) (vlength b) /\
  rows (opPairs a b op) = Nat.max (rows a) (rows b).
Proof.
  intros Hc; rewrite (opPairs_elems a b op Hc); unfold vlength; simpl.
  now rewrite length_map, length_seq.
Qed.

Lemma unary_at {N : Type} `{JsArith N} (x : Value N) (g : N -> N) (i : nat) :
  i < vlength x -> js_at (unary x g) i = g (js_at x i).
Proof.
  intros Hi; unfold js_at, unary; simpl.
  rewrite (nth_indep _ _ (g jnan)) by (rewrite length_map; exact Hi).
  apply map_nth.
Qed.

(** Two vectors of one length: elementwise operations work index by index. *)
Lemma same_shape_compatible {N : Type} `{JsArith N} (a b : Value N) :
  vlength a = vlength b -> rows a = rows b -> opPairs_compatible a b = true.
Proof.
  intros Hl Hr; unfold opPairs_compatible; rewrite Hl, Hr, !Nat.eqb_refl; reflexivity.
Qed.

Lemma vector_rows {N : Type} (v : Value N) :
  dimensions v = 1%Z -> rows v = vlength v /\ vlength v <> 1.
Proof.
  unfold dimensions; destruct (Nat.eqb_spec (vlength v) 1); [discriminate|].
  destruct (Nat.eqb_spec (vlength v) (rows v)); [split; congruence|].
  destruct (js_mod_is_zero (vlength v) (rows v)); discriminate.
Qed.

Lemma magnitude_sum {N : Type} `{JsArith N} (x : Value N) :
  dimensions x = 1%Z ->
  magnitude x = scalar (jsqrt (sum_over (vlength x) (fun i => jmul (js_at x i) (js_at x i)))).
Proof. intros Hd; unfold magnitude; rewrite Hd; reflexivity. Qed.

Lemma normalize_unary {N : Type} `{JsArith N} (x : Value N) :
  dimensions x = 1%Z ->
  normalize x = unary x (fun e => jmul e (jdiv jone (js_at (magnitude x) 0))).
Proof. intros Hd; unfold normalize; rewrite Hd; reflexivity. Qed.

(** ** Magnitude, normalize, project and reject in exact arithmetic *)

(** Extra: in exact arithmetic the magnitude of a vector is a
    non-negative scalar, and [normalize] turns a vector of non-zero
    magnitude into one of magnitude 1. *)
Theorem normalize_magnitude_one_R (x : Value R) :
  dimensions x = 1%Z ->
  (0 <= js_at (magnitude x) 0)%R /\
  (js_at (magnitude x) 0 <> 0%R -> magnitude (normalize x) = scalar 1%R).
Proof.
  intros Hd.
  set (S := sum_over (vlength x) (fun i => js_at x i * js_at x i)%R).
  assert (HS : (0 <= S)%R) by apply sum_over_R_sq_nonneg.
  assert (Hm : magnitude x = scalar (sqrt S)) by exact (magnitude_sum x Hd).
  rewrite Hm; change (js_at (scalar (sqrt S)) 0) with (sqrt S).
  split; [apply sqrt_pos|intros Hne].
  destruct (normalize_shape x Hd) as [Hl Hr].
  assert (Hd' : dimensions (normalize x) = 1%Z)
    by (rewrite (dimensions_shape _ x Hl Hr); exact Hd).
  rewrite (magnitude_sum _ Hd'), Hl.
  rewrite (normalize_unary x Hd), Hm; change (js_at (scalar (sqrt S)) 0) with (sqrt S).
  set (k := (1 / sqrt S)%R).
  rewrite (sum_over_ext _ _ (fun i => k * k * (js_at x i * js_at x i)
                                      + 0 * (js_at x i * js_at x i))%R).
  2:{ intros i Hi; rewrite unary_at by exact Hi; cbn [jmul jdiv jone real_arith].
       unfold k; ring. }
  rewrite sum_over_R_lin; fold S.
  replace (k * k * S + 0 * S)%R with 1%R.
  - cbn [jsqrt real_arith]; now rewrite sqrt_1.
  - unfold k; generalize (sqrt_sqrt S HS) Hne; generalize (sqrt S).
    intros m HSS Hm0; rewrite <- HSS; field; exact Hm0.
Qed.

Lemma normalize_magnitude_one_R_witness :
  dimensions (vec [3; 4]%R) = 1%Z /\
  (0 <= js_at (magnitude (vec [3; 4]%R)) 0)%R /\
  (js_at (magnitude (vec [3; 4]%R)) 0 <> 0%R ->
   magnitude (normalize (vec [3; 4]%R)) = scalar 1%R).
Proof.
  assert (Hd : dimensions (vec [3; 4]%R) = 1%Z) by reflexivity.
  split; [exact Hd | apply (normalize_magnitude_one_R _ Hd)].
Defined.

Lemma value_ext {N : Type} `{JsArith N} (v w : Value N) :
  vlength v = vlength w -> rows v = rows w ->
  (forall i, i < vlength v -> js_at v i = js_at w i) -> v = w.
Proof.
  destruct v as [lv rv], w as [lw rw]; unfold vlength, js_at; simpl.
  intros Hl Hr He; subst rw; f_equal; apply (nth_ext _ _ jnan jnan Hl He).
Qed.

Lemma sum_over_R_zero_factor (n : nat) (f g : nat -> R) :
  (forall i, i < n -> g i = 0%R) -> sum_over n (fun i => f i * g i)%R = 0%R.
Proof.
  intros Hg.
  rewrite (sum_over_ext _ _ (fun i => 0 * f i + 0 * f i)%R).
  - rewrite sum_over_R_lin; ring.
  - intros i Hi; rewrite Hg by exact Hi; ring.
Qed.

(** What [project] computes on two vectors of one length, in exact
    arithmetic: [c * b] with [c * (b.b) = a.b]. *)
Lemma project_scaled_R (a b : Value R) :
  dimensions a = 1%Z -> dimensions b = 1%Z -> vlength a = vlength b ->
  exists c : R,
    (c * js_at (dot b b) 0 = js_at (dot a b) 0)%R /\
    vlength (project a b) = vlength b /\ rows (project a b) = rows b /\
    forall i, i < vlength b -> js_at (project a b) i = (c * js_at b i)%R.
Proof.
  intros Ha Hb Hl.
  destruct (vector_rows a Ha) as [Hra Hna], (vector_rows b Hb) as [Hrb Hnb].
  set (n := vlength b) in *.
  set (Sab := sum_over n (fun i => js_at a i * js_at b i)%R).
  set (Sbb := sum_over n (fun i => js_at b i * js_at b i)%R).
  assert (Dab : dot a b = scalar Sab) by (rewrite (dot_sum a b Hl Ha Hb), Hl; reflexivity).
  assert (Dbb : dot b b = scalar Sbb) by exact (dot_sum b b eq_refl Hb Hb).
  rewrite Dab, Dbb; change (js_at (scalar ?x) 0) with x.
  unfold project; cbv zeta; rewrite Dab, Dbb.
  replace (negb (valid (scalar Sab))) with false by reflexivity; cbv iota.
  change (js_at (scalar Sab) 0) with Sab.
  cbn [jeqb jzero real_arith]; destruct (Req_dec_T Sab 0) as [H0|H0]; cbv iota.
  - exists 0%R; split; [rewrite H0; ring|].
    unfold zero, vlength; simpl; rewrite length_map; fold (vlength a).
    repeat split; [congruence | congruence |].
    intros i Hi; rewrite unary_at by congruence; cbn [jzero real_arith]; ring.
  - assert (Hbb : Sbb <> 0%R).
    { intros Hz; apply H0; unfold Sab.
      apply sum_over_R_zero_factor, sum_over_R_sq_zero; exact Hz. }
    assert (Hn : 2 <= n).
    { destruct n as [|[|n']]; [|contradiction|lia]. exfalso; apply H0; reflexivity. }
    exists (Sab / Sbb)%R; split; [field; exact Hbb|].
    assert (Hq : divPairs (scalar Sab) (scalar Sbb) = scalar (Sab / Sbb)%R) by reflexivity.
    rewrite Hq.
    assert (Hc : opPairs_compatible b (scalar (Sab / Sbb)%R) = true)
      by (unfold opPairs_compatible; now rewrite !orb_true_r).
    destruct (opPairs_length b (scalar (Sab / Sbb)%R) jmul Hc) as [L R0].
    unfold mulPairs; rewrite L, R0; change (vlength (scalar ?x)) with 1;
      change (rows (scalar ?x)) with 1; fold n.
    repeat split; [lia | lia |].
    intros i Hi; rewrite opPairs_at by (exact Hc || (change (vlength (scalar (Sab / Sbb)%R)) with 1; fold n; lia)).
    fold n; rewrite Nat.mod_small, Nat.mod_1_r by lia.
    cbn [jmul real_arith]; change (js_at (scalar ?x) 0) with x; ring.
Qed.

(** Extra: in exact arithmetic, [project a b] of two vectors of one length
    is the multiple [c * b] of [b] with [c * (b.b) = a.b]; in particular
    [c = (a.b)/(b.b)] when [b] is not the zero vector. *)
Theorem project_multiple_R (a b : Value R) :
  dimensions a = 1%Z -> dimensions b = 1%Z -> vlength a = vlength b ->
  exists c : R,
    (c * js_at (dot b b) 0 = js_at (dot a b) 0)%R /\
    project a b = unary b (fun e => c * e)%R.
Proof.
  intros Ha Hb Hl.
  destruct (project_scaled_R a b Ha Hb Hl) as (c & Hc & L & Rw & E).
  exists c; split; [exact Hc|].
  apply value_ext.
  - rewrite L; unfold vlength, unary; simpl; now rewrite length_map.
  - exact Rw.
  - intros i Hi; rewrite L in Hi; rewrite E, unary_at by exact Hi; reflexivity.
Qed.

Lemma project_multiple_R_witness :
  exists c : R,
    (c * js_at (dot (vec [1; 0]%R) (vec [1; 0]%R)) 0
     = js_at (dot (vec [3; 4]%R) (vec [1; 0]%R)) 0)%R /\
    project (vec [3; 4]%R) (vec [1; 0]%R) = unary (vec [1; 0]%R) (fun e => c * e)%R.
Proof. apply project_multiple_R; reflexivity. Defined.

(** Extra: in exact arithmetic, [reject a b] of two vectors of one length
    is orthogonal to [b]: their [dot] is the scalar 0. *)
Theorem reject_orthogonal_R (a b : Value R) :
  dimensions a = 1%Z -> dimensions b = 1%Z -> vlength a = vlength b ->
  dot (reject a b) b = scalar 0%R.
Proof.
  intros Ha Hb Hl.
  destruct (project_scaled_R a b Ha Hb Hl) as (c & Hc & L & Rw & E).
  destruct (vector_rows a Ha) as [Hra _], (vector_rows b Hb) as [Hrb _].
  assert (Hcp : opPairs_compatible a (project a b) = true)
    by (apply same_shape_compatible; congruence).
  destruct (opPairs_length a (project a b) jsub Hcp) as [L' R'].
  rewrite L, <- Hl, Nat.max_id in L'; rewrite Rw, Hra, Hrb, Hl, Nat.max_id in R'.
  unfold reject, subPairs.
  assert (Hd : dimensions (opPairs a (project a b) jsub) = 1%Z)
    by (rewrite (dimensions_shape _ b); [exact Hb | congruence | congruence]).
  rewrite (dot_sum _ b (eq_trans L' Hl) Hd Hb), L'.
  rewrite (sum_over_ext _ _ (fun i => 1 * (js_at a i * js_at b i)
                                      + (- c) * (js_at b i * js_at b i))%R).
  - rewrite sum_over_R_lin.
    rewrite (dot_sum a b Hl Ha Hb), (dot_sum b b eq_refl Hb Hb), Hl in Hc.
    assert (Hc' : (c * sum_over (vlength b) (fun i => js_at b i * js_at b i)
                   = sum_over (vlength b) (fun i => js_at a i * js_at b i))%R)
      by exact Hc.
    rewrite Hl, <- Hc'.
    unfold scalar, vec; do 3 f_equal; ring.
  - intros i Hi.
    rewrite opPairs_at by (exact Hcp || (rewrite L, <- Hl, Nat.max_id; exact Hi)).
    rewrite L, <- Hl, Nat.mod_small by exact Hi.
    rewrite E by congruence; cbn [jsub jmul real_arith]; ring.
Qed.

Lemma reject_orthogonal_R_witness :
  dot (reject (vec [3; 4; 5]%R) (vec [1; 2; 2]%R)) (vec [1; 2; 2]%R) = scalar 0%R.
Proof. apply reject_orthogonal_R; reflexivity. Defined.

(** ** angle in exact arithmetic *)

Lemma angle_ok_sym {N : Type} `{JsArith N} (a b : Value N) :
  angle_ok a b = angle_ok b a.
Proof.
  unfold angle_ok; destruct (Nat.eqb_spec (vlength a) (vlength b)) as [e|e].
  - rewrite e, Nat.eqb_refl.
    destruct (Z.eqb (dimensions a) 1), (Z.eqb (dimensions b) 1), (2 <=? vlength b),
      (vlength b <=? 3), (jeqb (js_at (magnitude a) 0) jzero),
      (jeqb (js_at (magnitude b) 0) jzero); reflexivity.
  - assert (e' : (vlength b =? vlength a) = false) by (apply Nat.eqb_neq; congruence).
    rewrite e'.
    destruct (Z.eqb (dimensions a) 1), (Z.eqb (dimensions b) 1); reflexivity.
Qed.

Lemma cross_magnitude_sym_R (u v : Value R) :
  vlength u = 3 -> rows u = 3 -> vlength v = 3 -> rows v = 3 ->
  magnitude (cross u v) = magnitude (cross v u).
Proof.
  intros Lu Ru Lv Rv; rewrite (vec3_R u Lu Ru), (vec3_R v Lv Rv).
  generalize (js_at u 0) (js_at u 1) (js_at u 2) (js_at v 0) (js_at v 1) (js_at v 2).
  intros u0 u1 u2 v0 v1 v2.
  unfold magnitude, cross, scalar, vec, js_at; simpl.
  do 3 f_equal; ring.
Qed.

(** Extra: in exact arithmetic [angle a b = angle b a]: the guard, the
    cosine and the size of the sine do not depend on the order of the
    operands (the 2D pseudo-cross changes sign, which [asin] and [abs]
    undo). *)
Theorem angle_symmetric_R (a b : Value R) : angle a b = angle b a.
Proof.
  destruct (angle_ok a b) eqn:Ok.
  2:{ assert (Ok' : angle_ok b a = false) by (rewrite angle_ok_sym; exact Ok).
      unfold angle; rewrite !angle_guard, Ok, Ok'; reflexivity. }
  assert (Ok' : angle_ok b a = true) by (rewrite angle_ok_sym; exact Ok).
  rewrite (angle_value a b Ok), (angle_value b a Ok').
  assert (Hcos : angle_cos a b = angle_cos b a)
    by (unfold angle_cos; rewrite dot_comm; [reflexivity | exact Rmult_comm]).
  rewrite Hcos; destruct (jltb half_sqrt2 (angle_cos b a)); [|reflexivity].
  f_equal.
  assert (Hok := Ok); unfold angle_ok in Hok.
  rewrite !andb_true_iff, !Z.eqb_eq, Nat.eqb_eq, !Nat.leb_le in Hok.
  destruct Hok as [[[[[[Ha Hb] Hl] H2] H3] _] _].
  unfold angle_sin; rewrite <- Hl.
  destruct (Nat.eqb_spec (vlength a) 2) as [E2|E2].
  - cbn [jabs jneg jasin jsub jmul real_math real_arith].
    replace (js_at (normalize b) 0 * js_at (normalize a) 1
             - js_at (normalize b) 1 * js_at (normalize a) 0)%R
      with (- (js_at (normalize a) 0 * js_at (normalize b) 1
               - js_at (normalize a) 1 * js_at (normalize b) 0))%R by ring.
    rewrite asin_opp, !Rabs_Ropp; reflexivity.
  - assert (L3 : vlength a = 3) by lia.
    destruct (normalize_shape a Ha) as [LA RA], (normalize_shape b Hb) as [LB RB].
    destruct (vector_rows a Ha) as [Hra _], (vector_rows b Hb) as [Hrb _].
    rewrite (cross_magnitude_sym_R (normalize a) (normalize b)); [reflexivity|..];
      congruence.
Qed.

(** ** value.ts: columns *)

Lemma chunks_concat {A} (r c : nat) (l : list A) :
  List.length l = c * r ->
  List.concat (map (fun i => firstn r (skipn (i * r) l)) (seq 0 c)) = l.
Proof.
  revert l; induction c as [|c IH]; intros l Hl.
  - destruct l; [reflexivity | simpl in Hl; lia].
  - transitivity (firstn r l ++ skipn r l); [|apply firstn_skipn].
    cbn [seq map List.concat]; rewrite Nat.mul_0_l, skipn_0; f_equal.
    rewrite <- seq_shift, map_map.
    rewrite (map_ext _ (fun i => firstn r (skipn (i * r) (skipn r l)))).
    + apply IH; rewrite length_skipn; lia.
    + intros i; rewrite skipn_skipn; f_equal; f_equal; lia.
Qed.

(** Extra: for a matrix of [c] columns of [r] rows ([length = c * r],
    [r > 0]), [col(i)] for [i < c] is the column vector of the entries
    [(j, i)], the columns laid end to end give back the matrix's
    components, and [col(i)] for [i >= c] is not valid. *)
Theorem col_columns {N : Type} `{JsArith N} (x : Value N) (c : nat) :
  0 < rows x -> vlength x = c * rows x ->
  (forall i, i < c -> col x i = vec (map (fun j => entry x j i) (seq 0 (rows x)))) /\
  List.concat (map (fun i => elems (col x i)) (seq 0 c)) = elems x /\
  (forall i, c <= i -> valid (col x i) = false).
Proof.
  intros Hr Hl; unfold vlength in Hl.
  split; [|split].
  - intros i Hi; unfold col; f_equal.
    apply (nth_ext _ _ jnan jnan).
    + rewrite length_firstn, length_skipn, length_map, length_seq.
      assert (i * rows x + rows x <= c * rows x) by nia. lia.
    + intros j Hj.
      rewrite length_firstn, length_skipn in Hj.
      rewrite nth_firstn, nth_skipn.
      destruct (Nat.ltb_spec j (rows x)) as [Hjr|Hjr]; [|lia].
      rewrite nth_map_seq by exact Hjr.
      unfold entry, index, js_at; f_equal; lia.
  - unfold col, vec; simpl; apply chunks_concat; exact Hl.
  - intros i Hi; unfold col, valid, vec; simpl.
    rewrite skipn_all2 by nia; destruct (rows x); reflexivity.
Qed.

Lemma col_columns_witness :
  (forall i, i < 2 -> col (mkValue [1; 2; 3; 4; 5; 6]%R 3) i
     = vec (map (fun j => entry (mkValue [1; 2; 3; 4; 5; 6]%R 3) j i) (seq 0 3))) /\
  List.concat (map (fun i => elems (col (mkValue [1; 2; 3; 4; 5; 6]%R 3) i)) (seq 0 2))
  = [1; 2; 3; 4; 5; 6]%R /\
  (forall i, 2 <= i -> valid (col (mkValue [1; 2; 3; 4; 5; 6]%R 3) i) = false).
Proof. apply (col_columns (mkValue [1; 2; 3; 4; 5; 6]%R 3) 2); cbn; lia. Defined.

(** ** parser.ts *)

Section ParserFacts.
Import Parser.

Lemma fold_type_list (rest : list Node) :
  fold_left (fun t it => if NodeType_eqb (type it) t then t else List) rest List = List.
Proof.
  induction rest as [|x rest IH]; simpl; [reflexivity|].
  destruct (NodeType_eqb (type x) List); exact IH.
Qed.

Lemma fold_type (rest : list Node) (t : NodeType) :
  fold_left (fun t it => if NodeType_eqb (type it) t then t else List) rest t
  = if forallb (fun it => NodeType_eqb (type it) t) rest then t else List.
Proof.
  revert t; induction rest as [|x rest IH]; intros t; simpl; [reflexivity|].
  destruct (NodeType_eqb (type x) t); simpl; [apply IH | apply fold_type_list].
Qed.

Lemma fold_count_minus1 (rest : list Node) :
  fold_left (fun c it => if Z.eqb (Z.of_nat (List.length (items it))) c then c else (-1)%Z)
    rest (-1)%Z = (-1)%Z.
Proof.
  induction rest as [|x rest IH]; simpl; [reflexivity|].
  destruct (Z.eqb_spec (Z.of_nat (List.length (items x))) (-1)); [lia | exact IH].
Qed.

Lemma fold_count (rest : list Node) (k : nat) :
  fold_left (fun c it => if Z.eqb (Z.of_nat (List.length (items it))) c then c else (-1)%Z)
    rest (Z.of_nat k)
  = if forallb (fun it => List.length (items it) =? k) rest then Z.of_nat k else (-1)%Z.
Proof.
  induction rest as [|x rest IH]; simpl; [reflexivity|].
  destruct (Nat.eqb_spec (List.length (items x)) k) as [E|E]; simpl.
  - rewrite E, Z.eqb_refl; apply IH.
  - rewrite (proj2 (Z.eqb_neq _ _)) by lia; apply fold_count_minus1.
Qed.

Lemma forallb_and_split {A} (f g : A -> bool) (l : list A) :
  forallb (fun x => f x && g x) l = forallb f l && forallb g l.
Proof.
  induction l as [|x l IH]; simpl; [reflexivity|].
  rewrite IH; destruct (f x), (g x), (forallb f l), (forallb g l); reflexivity.
Qed.

Lemma NodeType_eqb_eq (a b : NodeType) : NodeType_eqb a b = true <-> a = b.
Proof. destruct a, b; simpl; split; congruence. Qed.

(** Extra: [close] drops a node with no items; otherwise a node whose
    items are all scalars becomes a vector (a lone scalar item takes the
    node's place), a node whose items are all vectors of one common
    length above 1 becomes a matrix (a lone vector item takes its place),
    and any other node keeps its type; the closing position becomes its
    [end]. *)
Theorem close_classification (n : Node) (e : Z) :
  close n e =
  match items n with
  | [] => None
  | first :: rest =>
    Some
      (if forallb (fun it => NodeType_eqb (type it) Scalar) (items n) then
         match rest with
         | [] => mkNode Scalar (begin first) (end_ first) (delim n) []
         | _ => mkNode Vector (begin n) e (delim n) (items n)
         end
       else if forallb (fun it => NodeType_eqb (type it) Vector
                                  && (List.length (items it) =? List.length (items first)))
                       (items n)
               && (1 <? List.length (items first)) then
         match rest with
         | [] => mkNode Vector (begin first) (end_ first) (delim n) (items first)
         | _ => mkNode Matrix (begin n) e (delim n) (items n)
         end
       else mkNode (type n) (begin n) e (delim n) (items n))
  end.
Proof.
  unfold close; destruct (items n) as [|first rest] eqn:Hi; [reflexivity|].
  rewrite fold_type, fold_count; f_equal.
  assert (Hs : NodeType_eqb (if forallb (fun it => NodeType_eqb (type it) (type first)) rest
                             then type first else List) Scalar
               = forallb (fun it => NodeType_eqb (type it) Scalar) (first :: rest)).
  { simpl; destruct (type first) eqn:Tf;
      destruct (forallb (fun it => NodeType_eqb (type it) _) rest); reflexivity. }
  assert (Hv : NodeType_eqb (if forallb (fun it => NodeType_eqb (type it) (type first)) rest
                             then type first else List) Vector
               && Z.ltb 1 (if forallb (fun it => List.length (items it) =? List.length (items first)) rest
                           then Z.of_nat (List.length (items first)) else (-1)%Z)
               = forallb (fun it => NodeType_eqb (type it) Vector
                                    && (List.length (items it) =? List.length (items first)))
                   (first :: rest)
                 && (1 <? List.length (items first))).
  { simpl forallb; rewrite Nat.eqb_refl, andb_true_r, forallb_and_split.
    destruct (type first) eqn:Tf;
      destruct (forallb (fun it => NodeType_eqb (type it) _) rest);
      destruct (forallb (fun it => List.length (items it) =? List.length (items first)) rest);
      simpl; rewrite ?andb_false_r; try reflexivity;
      destruct (Nat.ltb_spec 1 (List.length (items first)));
      destruct (Z.ltb_spec 1 (Z.of_nat (List.length (items first)))); lia. }
  rewrite Hs, Hv.
  destruct rest; reflexivity.
Qed.

(** A character that neither opens a group nor can start a number. *)
Lemma parse_loop_inert (fuel : nat) (cs : list ascii) (i : nat) (valid : bool) :
  forallb (fun c => negb (is_char "(" c || is_char "[" c || is_char "{" c
                          || is_digit c || is_char "-" c)) cs = true ->
  parse_loop fuel cs i [newNode 0 ""] valid = [newNode 0 ""].
Proof.
  intros Hall; revert i valid; induction fuel as [|fuel IH]; intros i valid; [reflexivity|].
  cbn [parse_loop].
  destruct (nth_error cs i) as [c|] eqn:Hc; [|reflexivity].
  assert (Hin : In c cs) by (eapply nth_error_In; exact Hc).
  rewrite forallb_forall in Hall; specialize (Hall c Hin).
  destruct (is_char "(" c), (is_char "[" c), (is_char "{" c), (is_digit c),
    (is_char "-" c); try discriminate Hall; cbn [orb].
  replace (String.eqb (String c EmptyString) (delim (newNode 0 ""))) with false
    by reflexivity.
  destruct valid; [apply IH|].
  destruct (negb (is_alnum c || false)); apply IH.
Qed.

(** Extra: a line with no opening bracket, no digit and no ['-'] holds no
    number: [parse] gives the empty root [List] node, which
    [setOperandStr] reports as an error. *)
Theorem parse_without_numbers (line : string) :
  forallb (fun c => negb (is_char "(" c || is_char "[" c || is_char "{" c
                          || is_digit c || is_char "-" c))
    (list_ascii_of_string line) = true ->
  parse line = mkNode List 0 (-1) "" [].
Proof.
  intros Hall; unfold parse; rewrite parse_loop_inert by exact Hall; reflexivity.
Qed.

Lemma parse_without_numbers_witness :
  forallb (fun c => negb (is_char "(" c || is_char "[" c || is_char "{" c
                          || is_digit c || is_char "-" c))
    (list_ascii_of_string "x + y = pi") = true /\
  parse "x + y = pi" = mkNode List 0 (-1) "" [].
Proof.
  assert (H : forallb (fun c => negb (is_char "(" c || is_char "[" c || is_char "{" c
                                      || is_digit c || is_char "-" c))
                (list_ascii_of_string "x + y = pi") = true) by reflexivity.
  split; [exact H | exact (parse_without_numbers _ H)].
Defined.

End ParserFacts.

(** ** Reading back printed numbers *)

Section PrintedText.
Import Parser Stringify.
Context {V : Type}.
Variable pI pF : list ascii -> V.

Lemma star_app {X} p l rest k (x : X) :
  forallb p l = true -> star_match p rest k = Some x -> star_match p (l ++ rest) k = Some x.
Proof.
  induction l as [|c l IH]; simpl; intros Hl Hr; [exact Hr|].
  apply andb_true_iff in Hl as [Hc Hl]; rewrite Hc, (IH Hl Hr); reflexivity.
Qed.

Lemma is_char_eq a h : is_char a h = true -> h = a.
Proof. unfold is_char; intros H; apply Ascii.eqb_eq in H; congruence. Qed.


Lemma hex_alnum c : is_hex c = true -> is_alnum c = true.
Proof.
  unfold is_hex, is_alnum, is_alpha, is_digit, in_range.
  change (nat_of_ascii "0") with 48; change (nat_of_ascii "9") with 57;
  change (nat_of_ascii "A") with 65; change (nat_of_ascii "F") with 70;
  change (nat_of_ascii "Z") with 90; change (nat_of_ascii "a") with 97;
  change (nat_of_ascii "f") with 102; change (nat_of_ascii "z") with 122.
  generalize (nat_of_ascii c); intros n.
  destruct (Nat.leb_spec 48 n), (Nat.leb_spec n 57), (Nat.leb_spec 65 n),
    (Nat.leb_spec n 70), (Nat.leb_spec 97 n), (Nat.leb_spec n 102),
    (Nat.leb_spec n 90), (Nat.leb_spec n 122); simpl; intros; try reflexivity;
    try discriminate; lia.
Qed.

Lemma stop_facts (h : ascii) : is_alnum h = false /\ is_char "." h = false ->
  is_digit h = false /\ is_char "." h = false /\ is_char "e" h = false /\
  is_char "f" h = false /\ is_char "x" h = false /\ is_hex h = false.
Proof.
  intros [Ha Hd].
  assert (Hdg : is_digit h = false)
    by (unfold is_alnum in Ha; apply orb_false_iff in Ha; tauto).
  assert (Hx : is_hex h = false)
    by (destruct (is_hex h) eqn:E; [rewrite (hex_alnum h E) in Ha; discriminate | reflexivity]).
  repeat split; try assumption;
  match goal with
  | |- is_char ?a h = false =>
    destruct (is_char a h) eqn:E; [apply is_char_eq in E; subst h; discriminate|reflexivity]
  end.
Qed.

Lemma number_match_decimal (neg : bool) (d : ascii) (ds rest : list ascii) :
  is_digit d = true -> forallb is_digit ds = true ->
  match rest with [] => True | h :: _ => is_alnum h = false /\ is_char "." h = false end ->
  number_match ((if neg then ["-"%char] else []) ++ d :: ds ++ rest)
  = Some (List.length ((if neg then ["-"%char] else []) ++ d :: ds)).
Proof.
  intros Hd Hds Hr.
  unfold number_match, number_group1.
  change (re_match (RAlt ?a ?b) ?s ?k)
    with (match re_match a s k with Some x => Some x | None => re_match b s k end).
  assert (Hx : forall c, is_digit c = true -> is_char "x" c = false).
  { intros c Hc; destruct (is_char "x" c) eqn:E; [|reflexivity].
    apply is_char_eq in E; subst c; discriminate. }
  destruct neg; cbn [app].
  - cbn [re_match seqs plus]; rewrite Hd.
    change (is_char "0" "-") with false; change (is_char "-" "-") with true; cbv iota.
    erewrite star_app; [reflexivity | exact Hds |].
    destruct rest as [|h t].
    + cbn; f_equal; rewrite length_app; simpl; lia.
    + destruct (stop_facts h Hr) as (F1 & F2 & F3 & F4 & F5 & F6).
      destruct Hr as [Hal _].
      cbn [star_match re_match number_group5]; rewrite F1, F2, F3, F4, Hal.
      simpl negb; cbv iota; f_equal; rewrite !length_cons, length_app, length_cons; lia.
  - assert (Hm : is_char "-" d = false).
    { destruct (is_char "-" d) eqn:E; [|reflexivity].
      apply is_char_eq in E; subst d; discriminate. }
    assert (A1 : forall k : list ascii -> option nat,
               re_match (seqs [RChar (is_char "0"); RChar (is_char "x"); plus is_hex])
                 (d :: ds ++ rest) k = None).
    { intros k; cbn [re_match seqs plus].
      destruct (is_char "0" d); [|reflexivity].
      destruct ds as [|d2 ds'].
      - destruct rest as [|h t]; [reflexivity|].
        destruct (stop_facts h Hr) as (_ & _ & _ & _ & F5 & _); cbn [app]; rewrite F5; reflexivity.
      - simpl in Hds; apply andb_true_iff in Hds as [Hd2 _].
        cbn [app]; rewrite (Hx d2 Hd2); reflexivity. }
    rewrite A1.
    cbn [re_match seqs plus]; rewrite Hm, Hd; cbv iota.
    erewrite star_app; [reflexivity | exact Hds |].
    destruct rest as [|h t].
    + cbn; f_equal; rewrite length_app; simpl; lia.
    + destruct (stop_facts h Hr) as (F1 & F2 & F3 & F4 & F5 & F6).
      destruct Hr as [Hal _].
      cbn [star_match re_match number_group5]; rewrite F1, F2, F3, F4, Hal.
      simpl negb; cbv iota; f_equal; rewrite !length_cons, length_app, length_cons; lia.
Qed.

Lemma number_match_hex (h : ascii) (hs rest : list ascii) :
  is_hex h = true -> forallb is_hex hs = true ->
  match rest with [] => True | h :: _ => is_alnum h = false /\ is_char "." h = false end ->
  number_match ("0"%char :: "x"%char :: h :: hs ++ rest)
  = Some (List.length ("0"%char :: "x"%char :: h :: hs)).
Proof.
  intros Hh Hhs Hr.
  unfold number_match, number_group1.
  change (re_match (RAlt ?a ?b) ?s ?k)
    with (match re_match a s k with Some x => Some x | None => re_match b s k end).
  cbn [re_match seqs plus].
  change (is_char "0" "0") with true; change (is_char "x" "x") with true; cbv iota.
  rewrite Hh.
  erewrite star_app; [reflexivity | exact Hhs |].
  destruct rest as [|c t].
  - cbn; f_equal; rewrite ?app_nil_r, ?length_app; simpl; lia.
  - destruct (stop_facts c Hr) as (_ & _ & _ & _ & _ & F6).
    destruct Hr as [Hal _].
    cbn [star_match re_match number_group5]; rewrite F6, Hal.
    simpl negb; cbv iota; f_equal; rewrite !length_cons, length_app, length_cons; lia.
Qed.

Lemma parse_number_line (c : ascii) (cs : list ascii) :
  (is_digit c = true \/ c = "-"%char) ->
  number_match (c :: cs) = Some (S (List.length cs)) ->
  parse (string_of_list_ascii (c :: cs))
  = mkNode Scalar 0 (Z.of_nat (S (List.length cs))) "" [].
Proof.
  intros Hc Hm; unfold parse; rewrite list_ascii_of_string_of_list_ascii.
  assert (Hop : is_char "(" c || is_char "[" c || is_char "{" c = false).
  { destruct Hc as [Hc| ->]; [|reflexivity].
    destruct (is_char "(" c) eqn:E1; [apply is_char_eq in E1; subst c; discriminate|].
    destruct (is_char "[" c) eqn:E2; [apply is_char_eq in E2; subst c; discriminate|].
    destruct (is_char "{" c) eqn:E3; [apply is_char_eq in E3; subst c; discriminate|].
    reflexivity. }
  assert (Hn : is_digit c || is_char "-" c = true)
    by (destruct Hc as [Hc| ->]; [rewrite Hc; reflexivity | reflexivity]).
  cbn [List.length parse_loop nth_error].
  rewrite Hop.
  replace (String.eqb (String c EmptyString) (delim (newNode 0 ""))) with false
    by reflexivity.
  cbv iota. rewrite Hn. cbn [skipn]. rewrite Hm. cbv zeta.
  destruct (List.length cs) as [|f] eqn:Hl; cbn [parse_loop].
  - reflexivity.
  - replace (nth_error (c :: cs) (0 + S (S f))) with (@None ascii).
    + reflexivity.
    + symmetry; apply nth_error_None; simpl; lia.
Qed.


Lemma digit_char_digit (d : N) : (d < 10)%N -> is_digit (digit_char d) = true.
Proof.
  intros Hd; unfold digit_char.
  assert (Hn : N.to_nat d < 10) by lia.
  generalize (N.to_nat d) Hn; intros n Hn'.
  do 10 (destruct n as [|n]; [reflexivity|]); lia.
Qed.

Lemma digit_char_hex (d : N) : (d < 16)%N -> is_hex (digit_char d) = true.
Proof.
  intros Hd; unfold digit_char.
  assert (Hn : N.to_nat d < 16) by lia.
  generalize (N.to_nat d) Hn; intros n Hn'.
  do 16 (destruct n as [|n]; [reflexivity|]); lia.
Qed.

Lemma radix_digits_decimal (f : nat) (x : N) :
  forallb is_digit (radix_digits_fuel f 10 x) = true.
Proof.
  revert x; induction f as [|f IH]; intros x; [reflexivity|].
  cbn [radix_digits_fuel]; destruct (N.ltb_spec x 10) as [Hx|Hx].
  - simpl; now rewrite digit_char_digit.
  - rewrite forallb_app, IH; simpl; rewrite digit_char_digit; [reflexivity|].
    apply N.mod_lt; lia.
Qed.

Lemma radix_digits_nonempty (f : nat) (r x : N) :
  exists d ds, radix_digits_fuel (S f) r x = d :: ds.
Proof.
  cbn [radix_digits_fuel]; destruct (x <? r)%N; [eexists _, _; reflexivity|].
  destruct (radix_digits_fuel f r (x / r) ++ [digit_char (x mod r)]) as [|d ds] eqn:E.
  - destruct (radix_digits_fuel f r (x / r)); discriminate.
  - now exists d, ds.
Qed.

Lemma decimal_text_shape (z : Z) :
  exists (neg : bool) d ds,
    toString_radix 10 z = (if neg then ["-"%char] else []) ++ d :: ds /\
    is_digit d = true /\ forallb is_digit ds = true.
Proof.
  assert (Hr : forall x, exists d ds, radix_digits 10 x = d :: ds /\
                 is_digit d = true /\ forallb is_digit ds = true).
  { intros x; unfold radix_digits.
    destruct (radix_digits_nonempty (N.to_nat (N.size x)) 10 x) as (d & ds & E).
    exists d, ds; split; [exact E|].
    generalize (radix_digits_decimal (S (N.to_nat (N.size x))) x); rewrite E; simpl.
    now rewrite andb_true_iff. }
  destruct z as [|p|p]; unfold toString_radix.
  - destruct (Hr (Z.to_N 0)) as (d & ds & E & H1 & H2); exists false, d, ds; now rewrite E.
  - destruct (Hr (Z.to_N (Zpos p))) as (d & ds & E & H1 & H2); exists false, d, ds; now rewrite E.
  - destruct (Hr (Npos p)) as (d & ds & E & H1 & H2); exists true, d, ds; now rewrite E.
Qed.

Lemma fixed_hex_shape (k : nat) (x : N) :
  forallb is_hex (fixed_hex k x) = true /\ List.length (fixed_hex k x) = k.
Proof.
  revert x; induction k as [|k IH]; intros x; [split; reflexivity|].
  cbn [fixed_hex]; rewrite forallb_app, length_app; destruct (IH (x / 16)%N) as [H1 H2].
  rewrite H1, H2; simpl; rewrite digit_char_hex by (apply N.mod_lt; lia).
  split; [reflexivity | lia].
Qed.

Lemma hex_text_shape (z : Z) :
  (0 <= z <= 2 ^ 53)%Z ->
  exists h hs, list_ascii_of_string (stringifyScalar z Hexadecimal)
               = "0"%char :: "x"%char :: h :: hs /\
               is_hex h = true /\ forallb is_hex hs = true /\ List.length hs = 7.
Proof.
  intros Hz; rewrite (stringify_hex_double z (round_double_safe z ltac:(lia)) ltac:(lia)).
  rewrite list_ascii_of_string_of_list_ascii.
  assert (Ht : toString_radix 16 z = radix_digits 16 (Z.to_N z))
    by (destruct z; [reflexivity | reflexivity | lia]).
  rewrite Ht; unfold radix_digits.
  change (list_ascii_of_string "00000000") with (repeat "0"%char 8).
  rewrite (padded_digits _ _ 8 (radix_digits_fuel_enough _)).
  destruct (fixed_hex_shape 8 (Z.to_N z)) as [H1 H2].
  destruct (fixed_hex 8 (Z.to_N z)) as [|h hs]; [discriminate|].
  exists h, hs; simpl in H1 |- *; apply andb_true_iff in H1 as [Hh Hhs].
  repeat split; try assumption; simpl in H2; lia.
Qed.

(** Extra: a scalar the calculator prints (as the stack's pop does with
    [stringify]) reads back as one scalar taken from the whole text: the
    decimal text of an integer of magnitude at most 2^53, which is its
    plain digits, goes to [parseFloat], and the hex text of an integer
    from 0 to 2^53 goes to [parseInt] and keeps the hex mode.  Larger integers
    are printed in the shortest round-trip or exponent form and are not
    covered. *)
Theorem scalar_text_reads_back (z : Z) :
  ((Z.abs z <= 2 ^ 53)%Z ->
   Engine.parsed_operand pI pF (stringifyScalar z Decimal)
   = Some (mkValue [pF (toString_radix 10 z)] 1)) /\
  ((0 <= z <= 2 ^ 53)%Z ->
   Engine.enumerate pI pF (list_ascii_of_string (stringifyScalar z Hexadecimal))
     (parse (stringifyScalar z Hexadecimal))
   = ([pI (list_ascii_of_string (stringifyScalar z Hexadecimal))], true) /\
   Engine.parsed_operand pI pF (stringifyScalar z Hexadecimal)
   = Some (mkValue [pI (list_ascii_of_string (stringifyScalar z Hexadecimal))] 1)).
Proof.
  split.
  - intros Hz; unfold Engine.parsed_operand; rewrite (stringify_decimal_safe z Hz).
    destruct (decimal_text_shape z) as (neg & d & ds & E & Hd & Hds).
    assert (Hm := number_match_decimal neg d ds [] Hd Hds I).
    rewrite app_nil_r, <- E in Hm.
    assert (Hp : exists c cs, toString_radix 10 z = c :: cs /\
                   (is_digit c = true \/ c = "-"%char) /\
                   match cs with c1 :: _ => Ascii.eqb c1 "x" = false | [] => True end).
    { rewrite E; destruct neg; cbn [app].
      - exists "-"%char, (d :: ds); repeat split; [now right|].
        destruct (Ascii.eqb d "x") eqn:X; [|reflexivity].
        apply Ascii.eqb_eq in X; subst d; discriminate.
      - exists d, ds; repeat split; [now left|].
        destruct ds as [|d2 ds']; [exact I|].
        simpl in Hds; apply andb_true_iff in Hds as [Hd2 _].
        destruct (Ascii.eqb d2 "x") eqn:X; [|reflexivity].
        apply Ascii.eqb_eq in X; subst d2; discriminate. }
    destruct Hp as (c & cs & Ec & Hc & Hx).
    rewrite Ec in Hm; simpl List.length in Hm.
    rewrite Ec, (parse_number_line c cs Hc Hm), list_ascii_of_string_of_list_ascii.
    cbn [Engine.enumerate type fst].
    rewrite Nat2Z.id; cbn [Z.to_nat skipn Nat.sub].
    rewrite firstn_all2 by (simpl; lia).
    replace (match c :: cs with
             | c0 :: c1 :: _ => Ascii.eqb c0 "0" && Ascii.eqb c1 "x"
             | _ => false end) with false.
    + reflexivity.
    + destruct cs as [|c1 cs']; [reflexivity|]; rewrite Hx, andb_false_r; reflexivity.
  - intros Hz.
    destruct (hex_text_shape z Hz) as (h & hs & E & Hh & Hhs & L).
    assert (Hm := number_match_hex h hs [] Hh Hhs I).
    rewrite app_nil_r in Hm.
    assert (Hpar : parse (stringifyScalar z Hexadecimal)
                   = mkNode Scalar 0 (Z.of_nat (S (List.length ("x"%char :: h :: hs)))) "" []).
    { rewrite <- (string_of_list_ascii_of_string (stringifyScalar z Hexadecimal)), E.
      apply parse_number_line; [now left | exact Hm]. }
    assert (Hen : Engine.enumerate pI pF (list_ascii_of_string (stringifyScalar z Hexadecimal))
                    (parse (stringifyScalar z Hexadecimal))
                  = ([pI (list_ascii_of_string (stringifyScalar z Hexadecimal))], true)).
    { rewrite Hpar; cbn [Engine.enumerate].
      rewrite Nat2Z.id; cbn [Z.to_nat skipn Nat.sub].
      rewrite E, firstn_all2 by (simpl; lia); reflexivity. }
    split; [exact Hen|].
    unfold Engine.parsed_operand; rewrite Hen, Hpar; reflexivity.
Qed.

End PrintedText.

(** ** Reading back printed vectors and matrices *)

Section PrintedValues.
Import Parser Stringify.

Lemma list_ascii_of_string_app (s1 s2 : string) :
  list_ascii_of_string (s1 ++ s2) = list_ascii_of_string s1 ++ list_ascii_of_string s2.
Proof. induction s1 as [|c s1 IH]; simpl; [reflexivity | now rewrite IH]. Qed.

Lemma fold_string_concat (g : nat -> string) (l : list nat) (init : string) :
  list_ascii_of_string (fold_left (fun acc i => (acc ++ g i)%string) l init)
  = list_ascii_of_string init ++ List.concat (map (fun i => list_ascii_of_string (g i)) l).
Proof.
  revert init; induction l as [|i l IH]; intros init; simpl.
  - now rewrite app_nil_r.
  - rewrite IH, list_ascii_of_string_app, app_assoc; reflexivity.
Qed.

Lemma concat_sep {A} (s : A -> list ascii) (x : list A) (d : A) :
  List.concat (map (fun i => s (nth i x d) ++ (if Nat.ltb i (List.length x - 1)
                                          then [","%char; " "%char] else []))
              (seq 0 (List.length x)))
  = join_comma (map s x).
Proof.
  induction x as [|z x IH]; [reflexivity|].
  cbn [List.length seq map List.concat nth].
  rewrite <- seq_shift, map_map.
  destruct x as [|z' x'].
  - simpl; now rewrite !app_nil_r.
  - rewrite (map_ext_in _ (fun i => s (nth i (z' :: x') d)
                           ++ (if Nat.ltb i (List.length (z' :: x') - 1)
                               then [","%char; " "%char] else []))).
    + rewrite IH; cbn [map join_comma].
      replace (Nat.ltb 0 (List.length (z' :: x') + 1 - 1)) with true
        by (symmetry; apply Nat.ltb_lt; simpl; lia).
      change (List.length (z :: z' :: x')) with (S (List.length (z' :: x'))).
      simpl (S _ - 1). rewrite <- app_assoc. reflexivity.
    + intros i Hi; apply in_seq in Hi.
      cbn [nth]. f_equal.
      destruct (Nat.ltb_spec i (List.length (z' :: x') - 1)),
        (Nat.ltb_spec (S i) (S (List.length (z' :: x')) - 1)); try reflexivity; lia.
Qed.

Lemma stringifyVector_text (x : list Z) (mode : ValueMode) :
  list_ascii_of_string (Display.stringifyVector x mode)
  = "("%char :: join_comma (map (fun z => list_ascii_of_string (stringifyScalar z mode)) x)
    ++ [")"%char].
Proof.
  unfold Display.stringifyVector.
  rewrite list_ascii_of_string_app, fold_string_concat.
  rewrite <- (concat_sep (fun z => list_ascii_of_string (stringifyScalar z mode)) x 0%Z).
  cbn [list_ascii_of_string app]; f_equal; f_equal; f_equal.
  apply map_ext; intros i.
  rewrite list_ascii_of_string_app; f_equal.
  destruct (Nat.ltb i (List.length x - 1)); reflexivity.
Qed.

Lemma skipn_step {A} (i : nat) (l rest : list A) (c : A) :
  skipn i l = c :: rest -> nth_error l i = Some c /\ skipn (S i) l = rest.
Proof.
  intros H; split.
  - rewrite <- hd_error_skipn, H; reflexivity.
  - change (S i) with (1 + i); rewrite <- skipn_skipn, H; reflexivity.
Qed.

Lemma skipn_over {A} (i : nat) (l t rest : list A) :
  skipn i l = t ++ rest -> skipn (i + List.length t) l = rest.
Proof.
  intros H; rewrite Nat.add_comm, <- skipn_skipn, H; clear H.
  induction t as [|a t IH]; [reflexivity|]; simpl; exact IH.
Qed.

Lemma digit_not_alpha (c : ascii) : is_digit c = true -> is_alpha c = false.
Proof.
  unfold is_digit, is_alpha, in_range.
  change (nat_of_ascii "0") with 48; change (nat_of_ascii "9") with 57;
  change (nat_of_ascii "A") with 65; change (nat_of_ascii "Z") with 90;
  change (nat_of_ascii "a") with 97; change (nat_of_ascii "z") with 122.
  generalize (nat_of_ascii c); intros n.
  destruct (Nat.leb_spec 48 n), (Nat.leb_spec n 57), (Nat.leb_spec 65 n),
    (Nat.leb_spec n 90), (Nat.leb_spec 97 n), (Nat.leb_spec n 122);
    simpl; intros; try reflexivity; try discriminate; lia.
Qed.

Lemma numeral_start (c : ascii) :
  is_digit c = true \/ c = "-"%char ->
  (is_char "(" c || is_char "[" c || is_char "{" c)%char = false /\
  String.eqb (String c EmptyString) ")" = false /\
  is_alpha c = false /\ (is_digit c || is_char "-" c)%char = true.
Proof.
  intros [Hc| ->]; [|repeat split; reflexivity].
  assert (Hn : forall a, is_digit a = false -> is_char a c = false).
  { intros a Ha; destruct (is_char a c) eqn:E; [|reflexivity].
    apply is_char_eq in E; subst c; congruence. }
  rewrite (Hn "("%char eq_refl), (Hn "["%char eq_refl), (Hn "{"%char eq_refl), digit_not_alpha, Hc
    by exact Hc.
  repeat split.
  destruct (String.eqb_spec (String c EmptyString) ")") as [E|E]; [|reflexivity].
  injection E as ->; discriminate.
Qed.



Lemma loop_number f line i t rest top below :
  leaf_ok t -> skipn i line = t ++ rest -> stops rest -> delim top = ")"%string ->
  parse_loop (S f) line i (top :: below) true
  = parse_loop f line (i + List.length t)
      (push_item top (mkNode Scalar (Z.of_nat i) (Z.of_nat (i + List.length t)) "" []) :: below) true.
Proof.
  intros (c & cs & -> & Hc & Hm) Hs Hr Hd.
  destruct (skipn_step i line (cs ++ rest) c Hs) as [Hn _].
  destruct (numeral_start c Hc) as (H1 & H2 & H3 & H4).
  cbn [parse_loop]; rewrite Hn, H1, Hd, H2, H3, H4, Hs, (Hm rest Hr); reflexivity.
Qed.

Lemma loop_plain f line i c top below :
  nth_error line i = Some c ->
  (is_char "(" c || is_char "[" c || is_char "{" c)%char = false ->
  String.eqb (String c EmptyString) (delim top) = false ->
  is_alpha c = false -> (is_digit c || is_char "-" c)%char = false ->
  parse_loop (S f) line i (top :: below) true = parse_loop f line (S i) (top :: below) true.
Proof.
  intros N1 H1 H2 H3 H4; cbn [parse_loop]; rewrite N1, H1, H2, H3, H4; reflexivity.
Qed.

Lemma loop_sep f line i rest top below :
  skipn i line = ","%char :: " "%char :: rest -> delim top = ")"%string ->
  parse_loop (S (S f)) line i (top :: below) true
  = parse_loop f line (S (S i)) (top :: below) true.
Proof.
  intros Hs Hd.
  destruct (skipn_step i line _ _ Hs) as [N1 Hs1].
  destruct (skipn_step (S i) line _ _ Hs1) as [N2 _].
  rewrite (loop_plain _ _ _ _ _ _ N1); try (rewrite ?Hd; reflexivity).
  apply (loop_plain _ _ _ _ _ _ N2); rewrite ?Hd; reflexivity.
Qed.

Lemma loop_open f line i rest nodes v :
  nodes <> [] -> skipn i line = "("%char :: rest ->
  parse_loop (S f) line i nodes v
  = parse_loop f line (S i) (newNode (Z.of_nat i) "(" :: nodes) true.
Proof.
  intros Hne Hs; destruct (skipn_step i line _ _ Hs) as [N1 _].
  destruct nodes as [|top below]; [congruence|].
  cbn [parse_loop]; rewrite N1; reflexivity.
Qed.

Lemma loop_close f line i rest top parent below v :
  skipn i line = ")"%char :: rest -> delim top = ")"%string ->
  parse_loop (S f) line i (top :: parent :: below) v
  = parse_loop f line (S i)
      (match close top (Z.of_nat (S i)) with
       | Some n => push_item parent n :: below
       | None => parent :: below end) true.
Proof.
  intros Hs Hd; destruct (skipn_step i line _ _ Hs) as [N1 _].
  cbn [parse_loop]; rewrite N1, Hd; reflexivity.
Qed.


Lemma loop_end f line i nodes v :
  List.length line <= i -> parse_loop f line i nodes v = nodes.
Proof.
  intros H; destruct f; [reflexivity|]; cbn [parse_loop].
  rewrite (proj2 (nth_error_None line i) H); reflexivity.
Qed.

Section Sequence.
Context {A : Type}.
Variable txt : A -> list ascii.
Variable cost : A -> nat.
Variable node : nat -> A -> Node.
Variable ok : A -> Prop.
Hypothesis step : forall line f i e rest top below,
  ok e -> skipn i line = txt e ++ rest -> stops rest -> delim top = ")"%string ->
  parse_loop (cost e + f) line i (top :: below) true
  = parse_loop f line (i + List.length (txt e)) (push_item top (node i e) :: below) true.



Lemma loop_seq line es : forall f i rest top below,
  Forall ok es -> es <> [] -> skipn i line = join_comma (map txt es) ++ rest ->
  stops rest -> delim top = ")"%string ->
  parse_loop (seq_cost cost es + f) line i (top :: below) true
  = parse_loop f line (i + List.length (join_comma (map txt es)))
      (with_items top (seq_nodes txt node i es) :: below) true.
Proof.
  induction es as [|e es IH]; intros f i rest top below Hok Hne Hs Hr Hd; [congruence|].
  inversion Hok as [|? ? He Hes]; subst.
  destruct es as [|e' es'].
  - cbn [seq_cost map join_comma seq_nodes] in *.
    rewrite (step line f i e rest top below He Hs Hr Hd); reflexivity.
  - change (join_comma (map txt (e :: e' :: es')))
      with (txt e ++ [","%char; " "%char] ++ join_comma (map txt (e' :: es'))) in *.
    rewrite <- app_assoc in Hs.
    change (seq_cost cost (e :: e' :: es')) with (cost e + 2 + seq_cost cost (e' :: es')).
    rewrite <- Nat.add_assoc, <- Nat.add_assoc.
    rewrite (step line _ i e _ top below He Hs ltac:(split; reflexivity) Hd).
    pose proof (skipn_over _ _ _ _ Hs) as Hs1.
    rewrite <- app_assoc in Hs1; cbn [app] in Hs1.
    change (2 + (seq_cost cost (e' :: es') + f)) with (S (S (seq_cost cost (e' :: es') + f))).
    rewrite (loop_sep _ _ _ _ (push_item top (node i e)) _ Hs1 Hd).
    destruct (skipn_step _ _ _ _ Hs1) as [_ Hs2].
    destruct (skipn_step _ _ _ _ Hs2) as [_ Hs3].
    rewrite (IH f _ rest (push_item top (node i e)) below Hes ltac:(discriminate) Hs3 Hr Hd).
    f_equal; [|f_equal].
    + rewrite !length_app; cbn [List.length]; lia.
    + unfold with_items, push_item; cbn [type begin end_ delim items seq_nodes].
      rewrite <- app_assoc.
      replace (S (S (i + List.length (txt e)))) with (i + List.length (txt e) + 2) by lia.
      reflexivity.
Qed.

End Sequence.

Lemma seq_nodes_length {A} txt node i (es : list A) :
  List.length (seq_nodes txt node i es) = List.length es.
Proof. revert i; induction es as [|e es IH]; intros i; simpl; [reflexivity | now rewrite IH]. Qed.

Lemma seq_cost_le {A} (txt : A -> list ascii) cost (ok : A -> Prop) es :
  (forall e, ok e -> cost e <= List.length (txt e)) -> Forall ok es ->
  seq_cost cost es <= List.length (join_comma (map txt es)).
Proof.
  intros Hc; induction 1 as [|e es He Hes IH]; [simpl; lia|].
  specialize (Hc e He); destruct es as [|e' es'].
  - exact Hc.
  - change (seq_cost cost (e :: e' :: es')) with (cost e + 2 + seq_cost cost (e' :: es')).
    change (join_comma (map txt (e :: e' :: es')))
      with (txt e ++ [","%char; " "%char] ++ join_comma (map txt (e' :: es'))).
    rewrite !length_app; change (List.length [","%char; " "%char]) with 2; lia.
Qed.








Lemma loop_leaves line ts f i rest top below :
  Forall leaf_ok ts -> ts <> [] -> skipn i line = join_comma ts ++ rest ->
  stops rest -> delim top = ")"%string ->
  parse_loop (leaves_cost ts + f) line i (top :: below) true
  = parse_loop f line (i + List.length (join_comma ts))
      (with_items top (leaves i ts) :: below) true.
Proof.
  intros Hok Hne Hs Hr Hd.
  pose proof (loop_seq (fun t => t) (fun _ => 1) leaf_node leaf_ok
    (fun line f i e rest top below He Hs Hr Hd => loop_number f line i e rest top below He Hs Hr Hd)
    line ts f i rest top below Hok Hne) as H.
  rewrite map_id in H; exact (H Hs Hr Hd).
Qed.

Lemma leaves_scalar j ts :
  forallb (fun it => NodeType_eqb (type it) Scalar) (leaves j ts) = true.
Proof.
  unfold leaves; revert j; induction ts as [|t ts IH]; intros j; [reflexivity|].
  cbn [seq_nodes forallb]; rewrite IH; reflexivity.
Qed.

Lemma close_leaves n j ts e :
  items n = [] -> 2 <= List.length ts ->
  close (with_items n (leaves j ts)) e
  = Some (mkNode Vector (begin n) e (delim n) (leaves j ts)).
Proof.
  intros Hn Hl.
  pose proof (leaves_scalar j ts) as Hty.
  assert (Hlen : List.length (leaves j ts) = List.length ts) by apply seq_nodes_length.
  unfold close, with_items; cbn [items begin delim]; rewrite Hn; cbn [app].
  destruct (leaves j ts) as [|first rest]; [simpl in Hlen; lia|].
  cbn [forallb] in Hty; apply andb_true_iff in Hty as [Hf Hr].
  apply NodeType_eqb_eq in Hf; rewrite Hf, fold_type, Hr.
  destruct rest as [|r rest']; [simpl in Hlen; lia|].
  reflexivity.
Qed.

Lemma loop_block line ts f i rest top below v :
  block_ok ts -> skipn i line = block_text ts ++ rest ->
  parse_loop (block_cost ts + f) line i (top :: below) v
  = parse_loop f line (i + List.length (block_text ts))
      (push_item top (block_node i ts) :: below) true.
Proof.
  intros [Hok Hl] Hs.
  assert (Hne : ts <> []) by (destruct ts; simpl in Hl; [lia | discriminate]).
  unfold block_text in Hs; cbn [app] in Hs; rewrite <- app_assoc in Hs; cbn [app] in Hs.
  change (block_cost ts + f) with (S (S (leaves_cost ts + f))).
  rewrite (loop_open _ line i _ (top :: below) v ltac:(discriminate) Hs).
  destruct (skipn_step _ _ _ _ Hs) as [_ Hs1].
  replace (S (leaves_cost ts + f)) with (leaves_cost ts + S f) by lia.
  rewrite (loop_leaves line ts (S f) (S i) (")"%char :: rest) (newNode (Z.of_nat i) "(")
             (top :: below) Hok Hne Hs1 ltac:(split; reflexivity) eq_refl).
  pose proof (skipn_over _ _ _ _ Hs1) as Hs2.
  rewrite (loop_close f line _ rest (with_items (newNode (Z.of_nat i) "(") (leaves (S i) ts))
             top below true Hs2 eq_refl).
  rewrite close_leaves by (reflexivity || exact Hl).
  unfold block_node, block_text; rewrite length_cons, length_app; cbn [List.length].
  replace (S (S i + List.length (join_comma ts))) with (i + S (List.length (join_comma ts) + 1))
    by lia.
  reflexivity.
Qed.






Lemma loop_blocks line cols f i rest top below :
  Forall block_ok cols -> cols <> [] -> skipn i line = join_comma (map block_text cols) ++ rest ->
  stops rest -> delim top = ")"%string ->
  parse_loop (seq_cost block_cost cols + f) line i (top :: below) true
  = parse_loop f line (i + List.length (join_comma (map block_text cols)))
      (with_items top (blocks i cols) :: below) true.
Proof.
  apply (loop_seq block_text block_cost block_node block_ok).
  intros line' f' i' e rest' top' below' He Hs _ _; exact (loop_block line' e f' i' rest' top' below' true He Hs).
Qed.

Lemma blocks_shape j cols r :
  Forall (fun ts => List.length ts = r) cols ->
  forallb (fun it => NodeType_eqb (type it) Vector) (blocks j cols) = true /\
  forallb (fun it => List.length (items it) =? r) (blocks j cols) = true.
Proof.
  unfold blocks; intros H; revert j; induction H as [|ts cols Hts Hcols IH]; intros j;
    [split; reflexivity|].
  cbn [seq_nodes forallb]; destruct (IH (j + List.length (block_text ts) + 2)) as [H1 H2].
  rewrite H1, H2; unfold block_node; cbn [type items].
  unfold leaves; rewrite seq_nodes_length, Hts, Nat.eqb_refl; split; reflexivity.
Qed.

Lemma close_blocks n j cols r e :
  items n = [] -> Forall (fun ts => List.length ts = r) cols -> 2 <= r -> 2 <= List.length cols ->
  close (with_items n (blocks j cols)) e
  = Some (mkNode Matrix (begin n) e (delim n) (blocks j cols)).
Proof.
  intros Hn Hr H2 Hl.
  destruct (blocks_shape j cols r Hr) as [Hty Hcnt].
  assert (Hlen : List.length (blocks j cols) = List.length cols) by apply seq_nodes_length.
  unfold close, with_items; cbn [items begin delim]; rewrite Hn; cbn [app].
  destruct (blocks j cols) as [|first rest]; [simpl in Hlen; lia|].
  cbn [forallb] in Hty, Hcnt; apply andb_true_iff in Hty as [Hf Hty].
  apply andb_true_iff in Hcnt as [Hc Hcnt].
  apply NodeType_eqb_eq in Hf; apply Nat.eqb_eq in Hc.
  rewrite Hf, fold_type, Hty, Hc, fold_count, Hcnt.
  destruct rest as [|x rest']; [simpl in Hlen; lia|].
  cbn [NodeType_eqb andb]; destruct (Z.ltb_spec 1 (Z.of_nat r)); [|lia].
  reflexivity.
Qed.

Lemma loop_matrix line r cols f i rest top below v :
  matrix_ok r cols -> skipn i line = matrix_text cols ++ rest ->
  parse_loop (matrix_cost cols + f) line i (top :: below) v
  = parse_loop f line (i + List.length (matrix_text cols))
      (push_item top (matrix_node i cols) :: below) true.
Proof.
  intros [Hok Hl] Hs.
  assert (Hne : cols <> []) by (destruct cols; simpl in Hl; [lia | discriminate]).
  assert (Hb : Forall block_ok cols) by (revert Hok; apply Forall_impl; tauto).
  assert (Hr : Forall (fun ts => List.length ts = r) cols)
    by (revert Hok; apply Forall_impl; tauto).
  assert (H2 : 2 <= r).
  { destruct cols as [|ts cols']; [congruence|].
    inversion Hok as [|? ? [[_ Hts] <-] _]; exact Hts. }
  unfold matrix_text in Hs; cbn [app] in Hs; rewrite <- app_assoc in Hs; cbn [app] in Hs.
  change (matrix_cost cols + f) with (S (S (seq_cost block_cost cols + f))).
  rewrite (loop_open _ line i _ (top :: below) v ltac:(discriminate) Hs).
  destruct (skipn_step _ _ _ _ Hs) as [_ Hs1].
  replace (S (seq_cost block_cost cols + f)) with (seq_cost block_cost cols + S f) by lia.
  rewrite (loop_blocks line cols (S f) (S i) (")"%char :: rest) (newNode (Z.of_nat i) "(")
             (top :: below) Hb Hne Hs1 ltac:(split; reflexivity) eq_refl).
  pose proof (skipn_over _ _ _ _ Hs1) as Hs2.
  rewrite (loop_close f line _ rest (with_items (newNode (Z.of_nat i) "(") (blocks (S i) cols))
             top below true Hs2 eq_refl).
  rewrite (close_blocks _ _ _ r) by (reflexivity || assumption).
  unfold matrix_node, matrix_text; rewrite length_cons, length_app; cbn [List.length].
  replace (S (S i + List.length (join_comma (map block_text cols))))
    with (i + S (List.length (join_comma (map block_text cols)) + 1)) by lia.
  reflexivity.
Qed.

Lemma block_cost_le ts : block_ok ts -> block_cost ts <= List.length (block_text ts).
Proof.
  intros [Hok _]; unfold block_cost, leaves_cost, block_text.
  pose proof (seq_cost_le (fun t => t) (fun _ => 1) leaf_ok ts) as H.
  rewrite map_id in H.
  assert (seq_cost (fun _ => 1) ts <= List.length (join_comma ts)).
  { apply H; [|exact Hok]. intros t (c & cs & -> & _); simpl; lia. }
  rewrite length_cons, length_app; simpl; lia.
Qed.

Lemma matrix_cost_le r cols : matrix_ok r cols -> matrix_cost cols <= List.length (matrix_text cols).
Proof.
  intros [Hok _]; unfold matrix_cost, matrix_text.
  assert (seq_cost block_cost cols <= List.length (join_comma (map block_text cols))).
  { apply (seq_cost_le _ _ block_ok); [exact block_cost_le|].
    revert Hok; apply Forall_impl; tauto. }
  rewrite length_cons, length_app; simpl; lia.
Qed.

Lemma parse_block ts :
  block_ok ts -> parse (string_of_list_ascii (block_text ts)) = block_node 0 ts.
Proof.
  intros Hok; unfold parse; rewrite list_ascii_of_string_of_list_ascii.
  pose proof (block_cost_le ts Hok) as Hc.
  replace (List.length (block_text ts))
    with (block_cost ts + (List.length (block_text ts) - block_cost ts)) by lia.
  rewrite (loop_block (block_text ts) ts _ 0 [] (newNode 0 "") [] true Hok)
    by (rewrite app_nil_r; reflexivity).
  rewrite loop_end by lia.
  reflexivity.
Qed.

Lemma parse_matrix r cols :
  matrix_ok r cols -> parse (string_of_list_ascii (matrix_text cols)) = matrix_node 0 cols.
Proof.
  intros Hok; unfold parse; rewrite list_ascii_of_string_of_list_ascii.
  pose proof (matrix_cost_le r cols Hok) as Hc.
  replace (List.length (matrix_text cols))
    with (matrix_cost cols + (List.length (matrix_text cols) - matrix_cost cols)) by lia.
  rewrite (loop_matrix (matrix_text cols) r cols _ 0 [] (newNode 0 "") [] true Hok)
    by (rewrite app_nil_r; reflexivity).
  rewrite loop_end by lia.
  reflexivity.
Qed.

Section ReadBack.
Context {V : Type}.
Variable pI pF : list ascii -> V.


Lemma enumerate_leaf line i t rest :
  skipn i line = t ++ rest -> Engine.enumerate pI pF line (leaf_node i t) = leaf_read pI pF t.
Proof.
  intros Hs; unfold leaf_node; cbn [Engine.enumerate].
  rewrite !Nat2Z.id, Hs.
  replace (i + List.length t - i) with (List.length t) by lia.
  rewrite firstn_app, Nat.sub_diag, firstn_O, app_nil_r, firstn_all.
  reflexivity.
Qed.

Lemma enumerate_items line ty b e d its :
  ty <> Scalar ->
  Engine.enumerate pI pF line (mkNode ty b e d its)
  = (List.concat (map (fun it => fst (Engine.enumerate pI pF line it)) its),
     forallb (fun it => snd (Engine.enumerate pI pF line it)) its).
Proof.
  intros Hty.
  assert (H : forall its', Engine.enumerate pI pF line (mkNode ty b e d its')
            = (fix go (its : list Node) : list V * bool :=
                 match its with
                 | [] => ([], true)
                 | it :: its =>
                   let (x1, h1) := Engine.enumerate pI pF line it in
                   let (x2, h2) := go its in (x1 ++ x2, h1 && h2)
                 end) its')
    by (intros its'; destruct ty; [reflexivity | congruence | reflexivity | reflexivity]).
  rewrite H; clear H.
  induction its as [|it its IH]; [reflexivity|].
  cbn [map List.concat forallb].
  destruct (Engine.enumerate pI pF line it) as [x1 h1].
  match goal with |- (let (x2, h2) := ?g in _) = _ => change g with
    ((fix go (its : list Node) : list V * bool :=
                 match its with
                 | [] => ([], true)
                 | it :: its =>
                   let (x1, h1) := Engine.enumerate pI pF line it in
                   let (x2, h2) := go its in (x1 ++ x2, h1 && h2)
                 end) its) end.
  rewrite IH; reflexivity.
Qed.

Lemma enumerate_seq {A} (txt : A -> list ascii) node (den : A -> list V * bool)
    (ok : A -> Prop) line :
  (forall i e rest, ok e -> skipn i line = txt e ++ rest ->
     Engine.enumerate pI pF line (node i e) = den e) ->
  forall es i rest, Forall ok es -> skipn i line = join_comma (map txt es) ++ rest ->
  map (Engine.enumerate pI pF line) (seq_nodes txt node i es) = map den es.
Proof.
  intros Hden es; induction es as [|e es IH]; intros i rest Hok Hs; [reflexivity|].
  inversion Hok as [|? ? He Hes]; subst.
  destruct es as [|e' es'].
  - cbn [map join_comma seq_nodes] in *; rewrite (Hden i e rest He Hs); reflexivity.
  - change (join_comma (map txt (e :: e' :: es')))
      with (txt e ++ [","%char; " "%char] ++ join_comma (map txt (e' :: es'))) in Hs.
    cbn [seq_nodes map]; rewrite <- !app_assoc in Hs.
    rewrite (Hden i e _ He Hs); f_equal.
    rewrite app_assoc in Hs; pose proof (skipn_over _ _ _ _ Hs) as Hs1.
    rewrite length_app, Nat.add_assoc in Hs1; cbn [List.length] in Hs1.
    exact (IH _ rest Hes Hs1).
Qed.

Lemma concat_fst_map {A} (f : A -> list V * bool) (l : list A) g (l' : list Node) :
  map g l' = map f l ->
  List.concat (map (fun it => fst (g it)) l') = List.concat (map (fun e => fst (f e)) l) /\
  forallb (fun it => snd (g it)) l' = forallb (fun e => snd (f e)) l.
Proof.
  revert l'; induction l as [|a l IH]; intros [|it l'] H; try discriminate;
    [split; reflexivity|].
  injection H as H1 H2; destruct (IH l' H2) as [E1 E2].
  cbn [map List.concat forallb]; rewrite H1, E1, E2; split; reflexivity.
Qed.


Lemma enumerate_block line i ts rest :
  block_ok ts -> skipn i line = block_text ts ++ rest ->
  Engine.enumerate pI pF line (block_node i ts) = block_read pI pF ts.
Proof.
  intros [Hok _] Hs; unfold block_node; rewrite enumerate_items by discriminate.
  unfold block_text in Hs; cbn [app] in Hs; rewrite <- app_assoc in Hs.
  destruct (skipn_step _ _ _ _ Hs) as [_ Hs1].
  assert (Hm : map (Engine.enumerate pI pF line) (leaves (S i) ts) = map (leaf_read pI pF) ts).
  { apply (enumerate_seq (fun t => t) leaf_node (leaf_read pI pF) leaf_ok line) with (rest := [")"%char] ++ rest).
    - intros j t rest' _ Hj; exact (enumerate_leaf line j t rest' Hj).
    - exact Hok.
    - rewrite map_id; exact Hs1. }
  destruct (concat_fst_map _ _ _ _ Hm) as [E1 E2]; rewrite E1, E2; reflexivity.
Qed.

Lemma enumerate_matrix line i r cols rest :
  matrix_ok r cols -> skipn i line = matrix_text cols ++ rest ->
  Engine.enumerate pI pF line (matrix_node i cols)
  = (List.concat (map (fun ts => fst (block_read pI pF ts)) cols),
     forallb (fun ts => snd (block_read pI pF ts)) cols).
Proof.
  intros [Hok _] Hs; unfold matrix_node; rewrite enumerate_items by discriminate.
  unfold matrix_text in Hs; cbn [app] in Hs; rewrite <- app_assoc in Hs.
  destruct (skipn_step _ _ _ _ Hs) as [_ Hs1].
  assert (Hm : map (Engine.enumerate pI pF line) (blocks (S i) cols) = map (block_read pI pF) cols).
  { apply (enumerate_seq block_text block_node (block_read pI pF) block_ok line) with (rest := [")"%char] ++ rest).
    - intros j ts rest' Hb Hj; exact (enumerate_block line j ts rest' Hb Hj).
    - revert Hok; apply Forall_impl; tauto.
    - exact Hs1. }
  destruct (concat_fst_map _ _ _ _ Hm) as [E1 E2]; rewrite E1, E2; reflexivity.
Qed.

End ReadBack.

Lemma concat_sep_seq (s : nat -> list ascii) (c : nat) :
  List.concat (map (fun i => s i ++ (if Nat.ltb i (c - 1) then [","%char; " "%char] else []))
                (seq 0 c))
  = join_comma (map s (seq 0 c)).
Proof.
  pose proof (concat_sep s (seq 0 c) 0) as H; rewrite length_seq in H.
  rewrite <- H; f_equal; apply map_ext_in; intros i Hi; apply in_seq in Hi.
  rewrite seq_nth by lia; reflexivity.
Qed.


Lemma stringify_vector_text (v : Value Z) (mode : ValueMode) :
  dimensions v = 1%Z ->
  list_ascii_of_string (Display.stringify v mode) = block_text (map (scalar_text mode) (elems v)).
Proof.
  intros Hd; unfold Display.stringify; rewrite Hd.
  rewrite stringifyVector_text; reflexivity.
Qed.

Lemma stringify_matrix_text (v : Value Z) (mode : ValueMode) :
  dimensions v = 2%Z ->
  list_ascii_of_string (Display.stringify v mode)
  = matrix_text (map (fun i => map (scalar_text mode) (elems (col v i)))
                     (seq 0 (Nat.div (vlength v) (rows v)))).
Proof.
  intros Hd; unfold Display.stringify; rewrite Hd; cbv zeta.
  rewrite list_ascii_of_string_app, fold_string_concat.
  unfold matrix_text; cbn [list_ascii_of_string app]; f_equal.
  rewrite map_map; f_equal.
  rewrite <- concat_sep_seq; f_equal; apply map_ext; intros i.
  rewrite list_ascii_of_string_app, stringifyVector_text; f_equal.
  destruct (Nat.ltb i (Nat.div (vlength v) (rows v) - 1)); reflexivity.
Qed.

Section ReadText.
Context {V : Type}.
Variable pI pF : list ascii -> V.



Lemma scalar_text_leaf (mode : ValueMode) (z : Z) :
  printable mode z ->
  leaf_ok (scalar_text mode z) /\
  leaf_read pI pF (scalar_text mode z) = ([text_read pI pF mode z], mode_is_hex mode).
Proof.
  intros Hz; destruct mode.
  - unfold text_read, scalar_text; rewrite (stringify_decimal_safe z Hz).
    rewrite list_ascii_of_string_of_list_ascii.
    destruct (decimal_text_shape z) as (neg & d & ds & E & Hd & Hds); rewrite E.
    destruct neg; cbn [app]; split.
    + exists "-"%char, (d :: ds); split; [reflexivity | split; [now right|]].
      intros rest Hr; exact (number_match_decimal true d ds rest Hd Hds Hr).
    + reflexivity.
    + exists d, ds; split; [reflexivity | split; [now left|]].
      intros rest Hr; exact (number_match_decimal false d ds rest Hd Hds Hr).
    + unfold leaf_read; destruct ds as [|d2 ds']; [reflexivity|].
      cbn [forallb] in Hds; apply andb_true_iff in Hds as [Hd2 _].
      destruct (Ascii.eqb d2 "x") eqn:X.
      * apply Ascii.eqb_eq in X; subst d2; discriminate.
      * rewrite andb_false_r; reflexivity.
  - destruct (hex_text_shape z Hz) as (h & hs & E & Hh & Hhs & _).
    unfold text_read, scalar_text; rewrite E; split.
    + exists "0"%char, ("x"%char :: h :: hs); split; [reflexivity | split; [now left|]].
      intros rest Hr; exact (number_match_hex h hs rest Hh Hhs Hr).
    + reflexivity.
Qed.

End ReadText.

Section ValueText.
Context {V : Type}.
Variable pI pF : list ascii -> V.

Lemma block_read_texts (mode : ValueMode) (x : list Z) :
  Forall (printable mode) x ->
  Forall leaf_ok (map (scalar_text mode) x) /\
  block_read pI pF (map (scalar_text mode) x)
  = (map (text_read pI pF mode) x, forallb (fun _ => mode_is_hex mode) x).
Proof.
  induction x as [|z x IH]; intros Hx; [split; [constructor | reflexivity]|].
  assert (Hz : printable mode z) by (inversion Hx; assumption).
  assert (Hx' : Forall (printable mode) x) by (inversion Hx; assumption).
  destruct (scalar_text_leaf pI pF mode z Hz) as [Hl Hr].
  destruct (IH Hx') as [Hls Hrs].
  split; [constructor; assumption|].
  unfold block_read in *; cbn [map List.concat forallb].
  injection Hrs as E1 E2; rewrite Hr, E1, E2; reflexivity.
Qed.

Lemma forallb_const {A} (b : bool) (x : list A) : x <> [] -> forallb (fun _ => b) x = b.
Proof.
  destruct x as [|a x]; [congruence|]; intros _; cbn [forallb].
  destruct b; [|reflexivity]; induction x; simpl; auto.
Qed.

Lemma matrix_dims (v : Value Z) :
  dimensions v = 2%Z ->
  0 < rows v /\ vlength v = Nat.div (vlength v) (rows v) * rows v /\ vlength v <> rows v.
Proof.
  unfold dimensions; destruct (Nat.eqb_spec (vlength v) 1); [discriminate|].
  destruct (Nat.eqb_spec (vlength v) (rows v)); [discriminate|].
  unfold js_mod_is_zero; destruct (rows v) as [|r] eqn:R; [discriminate|].
  destruct (Nat.eqb_spec (vlength v mod S r) 0) as [M|M]; [|discriminate]; intros _.
  split; [lia|split; [|assumption]].
  rewrite (Nat.div_mod_eq (vlength v) (S r)) at 1; rewrite M; lia.
Qed.

End ValueText.

Lemma forallb_map_in {A B} (f : B -> bool) (g : A -> B) (l : list A) :
  forallb f (map g l) = forallb (fun x => f (g x)) l.
Proof. induction l as [|a l IH]; simpl; [reflexivity | now rewrite IH]. Qed.

Lemma forallb_in_ext {A} (f g : A -> bool) (l : list A) :
  (forall x, In x l -> f x = g x) -> forallb f l = forallb g l.
Proof.
  induction l as [|a l IH]; intros H; simpl; [reflexivity|].
  rewrite (H a (or_introl eq_refl)), IH; [reflexivity|].
  intros x Hx; apply H; now right.
Qed.

Section ReadBackTheorem.
Context {V : Type}.
Variable pI pF : list ascii -> V.

(** Extra: a vector of at least two components, or a matrix of at least
    two rows, that [stringify] prints reads back through [parse] and
    [enumerate] as a value of the same shape: each component is read from
    its own text ([parseFloat] of a decimal text, [parseInt] of a hex text),
    and [allHex] comes out set exactly in hex mode.  The components are
    integers, of magnitude at most 2^53 in decimal mode and from 0 to 2^53
    in hex mode ([printable]). *)
Theorem value_text_reads_back (v : Value Z) (mode : ValueMode) :
  ((dimensions v = 1%Z /\ 2 <= vlength v) \/
   (dimensions v = 2%Z /\ 2 <= rows v /\ 0 < vlength v)) ->
  Forall (printable mode) (elems v) ->
  Engine.parsed_operand pI pF (Display.stringify v mode)
  = Some (mkValue (map (text_read pI pF mode) (elems v)) (rows v)) /\
  snd (Engine.enumerate pI pF (list_ascii_of_string (Display.stringify v mode))
         (parse (Display.stringify v mode))) = mode_is_hex mode.
Proof.
  intros [[Hd Hl] | (Hd & Hr & Hl)] Hx.
  - set (T := map (scalar_text mode) (elems v)).
    pose proof (stringify_vector_text v mode Hd) as Ht; fold T in Ht.
    destruct (block_read_texts pI pF mode (elems v) Hx) as [Hok Hread]; fold T in Hok, Hread.
    assert (Hb : block_ok T)
      by (split; [exact Hok | unfold T, vlength in *; rewrite length_map; exact Hl]).
    assert (Hp : parse (Display.stringify v mode) = block_node 0 T).
    { rewrite <- (string_of_list_ascii_of_string (Display.stringify v mode)), Ht.
      apply parse_block; exact Hb. }
    assert (He : Engine.enumerate pI pF (list_ascii_of_string (Display.stringify v mode))
                   (block_node 0 T) = block_read pI pF T).
    { rewrite Ht; apply (enumerate_block pI pF _ 0 T []); [exact Hb|].
      rewrite app_nil_r; reflexivity. }
    rewrite Hp, He, Hread; split.
    + unfold Engine.parsed_operand; rewrite Hp, He, Hread; cbn [type block_node fst].
      rewrite length_map; destruct (vector_rows v Hd) as [R _]; unfold vlength in R.
      rewrite R; reflexivity.
    + apply forallb_const; intros E; unfold vlength in Hl; rewrite E in Hl; simpl in Hl; lia.
  - destruct (matrix_dims v Hd) as (Hr0 & Hlen & Hne).
    set (r := rows v) in *; set (c := Nat.div (vlength v) r) in *.
    assert (Hc : 2 <= c).
    { destruct c as [|[|c']]; [lia | lia | lia]. }
    assert (Hcol : forall i, elems (col v i) = firstn r (skipn (i * r) (elems v)))
      by reflexivity.
    assert (Hcat : List.concat (map (fun i => elems (col v i)) (seq 0 c)) = elems v).
    { rewrite (map_ext _ _ Hcol); apply chunks_concat; unfold vlength in Hlen; exact Hlen. }
    assert (Hclen : forall i, In i (seq 0 c) -> List.length (elems (col v i)) = r).
    { intros i Hi; apply in_seq in Hi; rewrite Hcol, length_firstn, length_skipn.
      unfold vlength in Hlen; assert (i * r + r <= c * r) by nia; lia. }
    assert (Hxs : forall i, In i (seq 0 c) ->
               Forall (printable mode) (elems (col v i))).
    { intros i Hi; rewrite <- Hcat in Hx.
      apply Forall_concat in Hx; rewrite Forall_forall in Hx; apply Hx.
      apply (in_map (fun i => elems (col v i))); exact Hi. }
    set (cols := map (fun i => map (scalar_text mode) (elems (col v i))) (seq 0 c)).
    pose proof (stringify_matrix_text v mode Hd) as Ht; fold r c cols in Ht.
    assert (Hok : matrix_ok r cols).
    { split.
      - unfold cols; apply Forall_map, Forall_forall; intros i Hi.
        destruct (block_read_texts pI pF mode _ (Hxs i Hi)) as [Hl' _].
        rewrite length_map, (Hclen i Hi); repeat split; [exact Hl' | rewrite length_map, (Hclen i Hi); exact Hr].
      - unfold cols; rewrite length_map, length_seq; exact Hc. }
    assert (Hp : parse (Display.stringify v mode) = matrix_node 0 cols).
    { rewrite <- (string_of_list_ascii_of_string (Display.stringify v mode)), Ht.
      apply (parse_matrix r); exact Hok. }
    assert (He : Engine.enumerate pI pF (list_ascii_of_string (Display.stringify v mode))
                   (matrix_node 0 cols)
                 = (map (text_read pI pF mode) (elems v), mode_is_hex mode)).
    { rewrite Ht, (enumerate_matrix pI pF _ 0 r cols []) by (exact Hok || now rewrite app_nil_r).
      unfold cols; rewrite !map_map, forallb_map_in; f_equal.
      - rewrite (map_ext_in _ (fun i => map (text_read pI pF mode) (elems (col v i)))).
        + rewrite <- Hcat, concat_map, map_map; reflexivity.
        + intros i Hi; destruct (block_read_texts pI pF mode _ (Hxs i Hi)) as [_ R].
          rewrite R; reflexivity.
      - rewrite (forallb_in_ext _ (fun _ => mode_is_hex mode)).
        + apply forallb_const; destruct c as [|c']; [lia | discriminate].
        + intros i Hi; destruct (block_read_texts pI pF mode _ (Hxs i Hi)) as [_ R].
          rewrite R; apply forallb_const; intros E.
          specialize (Hclen i Hi); rewrite E in Hclen; simpl in Hclen; lia. }
    split.
    + unfold Engine.parsed_operand; rewrite Hp, He; cbn [type matrix_node fst items].
      unfold blocks; rewrite seq_nodes_length, length_map.
      unfold cols; rewrite length_map, length_seq.
      change (List.length (elems v)) with (vlength v); rewrite Hlen, Nat.mul_comm, Nat.div_mul by lia.
      reflexivity.
    + rewrite Hp, He; reflexivity.
Qed.

End ReadBackTheorem.

End PrintedValues.

Lemma value_text_reads_back_witness :
  ((dimensions (mkValue [1; 2; 3; 4]%Z 2) = 1%Z /\ 2 <= vlength (mkValue [1; 2; 3; 4]%Z 2)) \/
   (dimensions (mkValue [1; 2; 3; 4]%Z 2) = 2%Z /\ 2 <= rows (mkValue [1; 2; 3; 4]%Z 2) /\
    0 < vlength (mkValue [1; 2; 3; 4]%Z 2))) /\
  Forall (printable Hexadecimal) [1; 2; 3; 4]%Z /\
  (Engine.parsed_operand (fun t => (true, t)) (fun t => (false, t))
     (Display.stringify (mkValue [1; 2; 3; 4]%Z 2) Hexadecimal)
   = Some (mkValue (map (text_read (fun t => (true, t)) (fun t => (false, t)) Hexadecimal)
                        [1; 2; 3; 4]%Z) 2) /\
   snd (Engine.enumerate (fun t => (true, t)) (fun t => (false, t))
          (list_ascii_of_string (Display.stringify (mkValue [1; 2; 3; 4]%Z 2) Hexadecimal))
          (Parser.parse (Display.stringify (mkValue [1; 2; 3; 4]%Z 2) Hexadecimal)))
   = mode_is_hex Hexadecimal).
Proof.
  assert (H1 : (dimensions (mkValue [1; 2; 3; 4]%Z 2) = 1%Z /\
                2 <= vlength (mkValue [1; 2; 3; 4]%Z 2)) \/
               (dimensions (mkValue [1; 2; 3; 4]%Z 2) = 2%Z /\
                2 <= rows (mkValue [1; 2; 3; 4]%Z 2) /\ 0 < vlength (mkValue [1; 2; 3; 4]%Z 2)))
    by (right; split; [reflexivity | cbn; lia]).
  assert (H2 : Forall (printable Hexadecimal) [1; 2; 3; 4]%Z)
    by (repeat constructor; unfold printable; lia).
  split; [exact H1 | split; [exact H2|]].
  exact (value_text_reads_back (fun t => (true, t)) (fun t => (false, t))
           (mkValue [1; 2; 3; 4]%Z 2) Hexadecimal H1 H2).
Defined.

(** ** Reading back a matrix of one row *)

Section RowMatrix.
Import Parser Stringify.

Lemma close_scalars n l e :
  items n = [] -> forallb (fun it => NodeType_eqb (type it) Scalar) l = true ->
  2 <= List.length l ->
  close (with_items n l) e = Some (mkNode Vector (begin n) e (delim n) l).
Proof.
  intros Hn Hty Hlen.
  unfold close, with_items; cbn [items begin delim]; rewrite Hn; cbn [app].
  destruct l as [|first rest]; [simpl in Hlen; lia|].
  cbn [forallb] in Hty; apply andb_true_iff in Hty as [Hf Hr].
  apply NodeType_eqb_eq in Hf; rewrite Hf, fold_type, Hr.
  destruct rest as [|r rest']; [simpl in Hlen; lia|].
  reflexivity.
Qed.

Lemma loop_single line t f i rest top below v :
  leaf_ok t -> skipn i line = single_text t ++ rest ->
  parse_loop (3 + f) line i (top :: below) v
  = parse_loop f line (i + List.length (single_text t))
      (push_item top (single_node i t) :: below) true.
Proof.
  intros Hok Hs.
  unfold single_text, block_text in Hs; cbn [app join_comma] in Hs.
  rewrite <- app_assoc in Hs; cbn [app] in Hs.
  change (3 + f) with (S (S (S f))).
  rewrite (loop_open _ line i _ (top :: below) v ltac:(discriminate) Hs).
  destruct (skipn_step _ _ _ _ Hs) as [_ Hs1].
  rewrite (loop_number (S f) line (S i) t (")"%char :: rest) (newNode (Z.of_nat i) "(")
             (top :: below) Hok Hs1 ltac:(split; reflexivity) eq_refl).
  pose proof (skipn_over _ _ _ _ Hs1) as Hs2.
  erewrite loop_close; [| exact Hs2 | reflexivity].
  unfold single_node, single_text, block_text; cbn [join_comma].
  rewrite length_cons, length_app; cbn [List.length].
  replace (S (S i + List.length t)) with (i + S (List.length t + 1)) by lia.
  reflexivity.
Qed.

Lemma singles_scalar txt j ts :
  forallb (fun it => NodeType_eqb (type it) Scalar) (seq_nodes txt single_node j ts) = true.
Proof.
  revert j; induction ts as [|t ts IH]; intros j; [reflexivity|].
  cbn [seq_nodes forallb]; rewrite IH; reflexivity.
Qed.


Lemma loop_singles line ts f i rest top below v :
  Forall leaf_ok ts -> 2 <= List.length ts ->
  skipn i line = matrix_text (map (fun t => [t]) ts) ++ rest ->
  parse_loop (2 + seq_cost (fun _ => 3) ts + f) line i (top :: below) v
  = parse_loop f line (i + List.length (matrix_text (map (fun t => [t]) ts)))
      (push_item top (singles_node i ts) :: below) true.
Proof.
  intros Hok Hl Hs.
  assert (Hne : ts <> []) by (destruct ts; simpl in Hl; [lia | discriminate]).
  unfold matrix_text in Hs; rewrite map_map in Hs; fold single_text in Hs.
  change (map (fun x => single_text x) ts) with (map single_text ts) in Hs.
  cbn [app] in Hs; rewrite <- app_assoc in Hs; cbn [app] in Hs.
  change (2 + seq_cost (fun _ => 3) ts + f) with (S (S (seq_cost (fun _ => 3) ts + f))).
  rewrite (loop_open _ line i _ (top :: below) v ltac:(discriminate) Hs).
  destruct (skipn_step _ _ _ _ Hs) as [_ Hs1].
  replace (S (seq_cost (fun _ => 3) ts + f)) with (seq_cost (fun _ => 3) ts + S f) by lia.
  rewrite (loop_seq single_text (fun _ => 3) single_node leaf_ok
    (fun line f i e rest top below He Hs _ _ => loop_single line e f i rest top below true He Hs)
    line ts (S f) (S i) (")"%char :: rest) (newNode (Z.of_nat i) "(") (top :: below)
    Hok Hne Hs1 ltac:(split; reflexivity) eq_refl).
  pose proof (skipn_over _ _ _ _ Hs1) as Hs2.
  rewrite (loop_close f line _ rest
             (with_items (newNode (Z.of_nat i) "(") (seq_nodes single_text single_node (S i) ts))
             top below true Hs2 eq_refl).
  rewrite close_scalars by (reflexivity || apply singles_scalar
                            || (rewrite seq_nodes_length; exact Hl)).
  unfold singles_node, matrix_text; rewrite map_map; fold single_text.
  change (map (fun x => single_text x) ts) with (map single_text ts).
  rewrite length_cons, length_app; cbn [List.length].
  replace (S (S i + List.length (join_comma (map single_text ts))))
    with (i + S (List.length (join_comma (map single_text ts)) + 1)) by lia.
  reflexivity.
Qed.

Lemma parse_singles ts :
  Forall leaf_ok ts -> 2 <= List.length ts ->
  parse (string_of_list_ascii (matrix_text (map (fun t => [t]) ts))) = singles_node 0 ts.
Proof.
  intros Hok Hl; unfold parse; rewrite list_ascii_of_string_of_list_ascii.
  assert (Hc : 2 + seq_cost (fun _ => 3) ts <= List.length (matrix_text (map (fun t => [t]) ts))).
  { assert (seq_cost (fun _ => 3) ts <= List.length (join_comma (map single_text ts))).
    { apply (seq_cost_le _ _ leaf_ok); [|exact Hok].
      intros t (c & cs & -> & _); unfold single_text, block_text; cbn [join_comma].
      rewrite length_cons, length_app; simpl; lia. }
    unfold matrix_text; rewrite map_map, length_cons, length_app.
    change (map (fun x => block_text [x]) ts) with (map single_text ts); cbn [List.length]; lia. }
  replace (List.length (matrix_text (map (fun t => [t]) ts)))
    with (2 + seq_cost (fun _ => 3) ts
          + (List.length (matrix_text (map (fun t => [t]) ts)) - (2 + seq_cost (fun _ => 3) ts)))
    by lia.
  rewrite (loop_singles _ ts _ 0 [] (newNode 0 "") [] true Hok Hl)
    by (rewrite app_nil_r; reflexivity).
  rewrite loop_end by lia.
  reflexivity.
Qed.

Section SinglesRead.
Context {V : Type}.
Variable pI pF : list ascii -> V.

Lemma enumerate_singles line i ts rest :
  Forall leaf_ok ts -> skipn i line = matrix_text (map (fun t => [t]) ts) ++ rest ->
  Engine.enumerate pI pF line (singles_node i ts)
  = (List.concat (map (fun t => fst (leaf_read pI pF t)) ts),
     forallb (fun t => snd (leaf_read pI pF t)) ts).
Proof.
  intros Hok Hs; unfold singles_node; rewrite enumerate_items by discriminate.
  unfold matrix_text in Hs; rewrite map_map in Hs; fold single_text in Hs.
  change (map (fun x => single_text x) ts) with (map single_text ts) in Hs.
  cbn [app] in Hs; rewrite <- app_assoc in Hs.
  destruct (skipn_step _ _ _ _ Hs) as [_ Hs1].
  assert (Hm : map (Engine.enumerate pI pF line) (seq_nodes single_text single_node (S i) ts)
               = map (leaf_read pI pF) ts).
  { apply (enumerate_seq pI pF single_text single_node (leaf_read pI pF) leaf_ok line)
      with (rest := [")"%char] ++ rest); [|exact Hok|exact Hs1].
    intros j t rest' _ Hj.
    unfold single_text, block_text in Hj; cbn [join_comma app] in Hj; rewrite <- app_assoc in Hj.
    destruct (skipn_step _ _ _ _ Hj) as [_ Hj1].
    unfold single_node; cbn [Engine.enumerate].
    rewrite !Nat2Z.id, Hj1.
    replace (S j + List.length t - S j) with (List.length t) by lia.
    rewrite firstn_app, Nat.sub_diag, firstn_O, app_nil_r, firstn_all.
    reflexivity. }
  destruct (concat_fst_map _ _ _ _ Hm) as [E1 E2]; rewrite E1, E2; reflexivity.
Qed.

Lemma firstn_one_columns {A} (l : list A) :
  map (fun i => firstn 1 (skipn i l)) (seq 0 (List.length l)) = map (fun z => [z]) l.
Proof.
  induction l as [|a l IH]; [reflexivity|].
  cbn [List.length seq map]; rewrite <- seq_shift, map_map; cbn [skipn firstn].
  f_equal; exact IH.
Qed.

(** Extra: a matrix of one row and at least two columns (dimensions 2)
    that [stringify] prints reads back as a vector: the same components,
    each read from its own text, with as many rows as components.  The
    components are integers, of magnitude at most 2^53 in decimal mode
    and from 0 to 2^53 in hex mode ([printable]). *)
Theorem row_matrix_reads_back (v : Value Z) (mode : ValueMode) :
  rows v = 1 -> 2 <= vlength v ->
  Forall (printable mode) (elems v) ->
  dimensions v = 2%Z /\
  Engine.parsed_operand pI pF (Display.stringify v mode)
  = Some (mkValue (map (text_read pI pF mode) (elems v)) (vlength v)).
Proof.
  intros Hr Hl Hx.
  assert (Hd : dimensions v = 2%Z).
  { unfold dimensions; rewrite Hr.
    destruct (Nat.eqb_spec (vlength v) 1); [lia|]; reflexivity. }
  split; [exact Hd|].
  set (ts := map (scalar_text mode) (elems v)).
  assert (Ht : list_ascii_of_string (Display.stringify v mode) = matrix_text (map (fun t => [t]) ts)).
  { rewrite (stringify_matrix_text v mode Hd), Hr, Nat.div_1_r; f_equal.
    unfold col, ts; rewrite Hr.
    rewrite (map_ext _ (fun i => map (scalar_text mode) (firstn 1 (skipn i (elems v)))))
      by (intros i; rewrite Nat.mul_1_r; reflexivity).
    rewrite <- (map_map (fun i => firstn 1 (skipn i (elems v))) (map (scalar_text mode))).
    unfold vlength; rewrite firstn_one_columns, !map_map; reflexivity. }
  destruct (block_read_texts pI pF mode (elems v) Hx) as [Hok Hread]; fold ts in Hok, Hread.
  assert (Hlt : 2 <= List.length ts) by (unfold ts, vlength in *; rewrite length_map; exact Hl).
  assert (Hp : parse (Display.stringify v mode) = singles_node 0 ts).
  { rewrite <- (string_of_list_ascii_of_string (Display.stringify v mode)), Ht.
    apply parse_singles; assumption. }
  unfold Engine.parsed_operand; rewrite Hp, Ht.
  rewrite (enumerate_singles _ 0 ts []) by (exact Hok || now rewrite app_nil_r).
  unfold block_read in Hread; injection Hread as E1 _.
  cbn [type singles_node fst]; rewrite E1, length_map; reflexivity.
Qed.

End SinglesRead.

End RowMatrix.

Lemma row_matrix_reads_back_witness :
  rows (mkValue [7; 8; 9]%Z 1) = 1 /\ 2 <= vlength (mkValue [7; 8; 9]%Z 1) /\
  Forall (printable Decimal) [7; 8; 9]%Z /\
  (dimensions (mkValue [7; 8; 9]%Z 1) = 2%Z /\
   Engine.parsed_operand (fun t => (true, t)) (fun t => (false, t))
     (Display.stringify (mkValue [7; 8; 9]%Z 1) Decimal)
   = Some (mkValue (map (text_read (fun t => (true, t)) (fun t => (false, t)) Decimal)
                        [7; 8; 9]%Z) (vlength (mkValue [7; 8; 9]%Z 1)))).
Proof.
  assert (H1 : rows (mkValue [7; 8; 9]%Z 1) = 1) by reflexivity.
  assert (H2 : 2 <= vlength (mkValue [7; 8; 9]%Z 1)) by (cbn; lia).
  assert (H3 : Forall (printable Decimal) [7; 8; 9]%Z)
    by (repeat constructor; unfold printable; lia).
  split; [exact H1 | split; [exact H2 | split; [exact H3|]]].
  exact (row_matrix_reads_back (fun t => (true, t)) (fun t => (false, t))
           (mkValue [7; 8; 9]%Z 1) Decimal H1 H2 H3).
Defined.
